(** * The doozer client: multiplexed calls over one connection, and the
      cluster session on top of it.

    The development follows [client.go].  A [conn] carries many calls at
    once; each call owns a tag of the callback table [cb], and a single
    goroutine ([readResponses]) routes every inbound response to the
    channel registered under its tag.  The goroutines of the program are
    embedded as small machines whose steps are the atomic sections of the
    source (a region held under [cblk] or [clk], one channel operation,
    one read of a shared field); a schedule interleaves them. *)

From Stdlib Require Import ZArith String List Lia.
From stdpp Require Import base option list gmap strings.

(** ** Machine integers and flags *)

(** [c.n++] on an [int32] wraps around. *)
Definition wrap32 (z : Z) : Z := ((z + 2 ^ 31) `mod` 2 ^ 32 - 2 ^ 31)%Z.

Definition is_int32 (z : Z) : Prop := (- 2 ^ 31 ≤ z < 2 ^ 31)%Z.

(** [const ( Valid = 1 << iota; Done; Set; Del )] *)
Definition Valid : Z := 1.
Definition Done : Z := 2.
Definition Set' : Z := 4.
Definition Del : Z := 8.

(** [flags&f != 0] *)
Definition has_flag (flags f : Z) : bool := negb (Z.land flags f =? 0)%Z.

(** [pb.GetInt32], [pb.GetString]: the zero value for a nil pointer. *)
Definition GetInt (p : option Z) : Z := default 0%Z p.
Definition GetString (p : option string) : string := default EmptyString p.

(** ** Errors *)

(** The values of [os.Error] the client can produce.  [Error c d] is the
    source's [&Error{c, d}]; [IOError] stands for an error of the byte
    stream and [PbError] for one of the protobuf library. *)
Inductive os_Error : Type :=
  | EOF | ENOTDIR | EISDIR | ENOENT
  | ErrNoAddrs | ErrBadTag | ErrOldRev
  | ErrTooLate
  | Error (Code : Z) (Detail : string)
  | IOError (msg : string)
  | PbError (msg : string).

#[global] Instance os_Error_eq_dec : EqDecision os_Error.
Proof. solve_decision. Defined.

(** What the byte stream reports when an operation on it fails. *)
Inductive ioerr : Type :=
  | io_eof
  | io_fail (msg : string).

Definition os_of_io (e : ioerr) : os_Error :=
  match e with
  | io_eof => EOF
  | io_fail m => IOError m
  end.

(** ** Requests, responses, events *)

Inductive Request_Verb : Type :=
  | Request_CANCEL | Request_DEL | Request_GET | Request_NOP | Request_REV
  | Request_SET | Request_WALK | Request_WATCH | Request_STAT | Request_GETDIR.

#[global] Instance Request_Verb_eq_dec : EqDecision Request_Verb.
Proof. solve_decision. Defined.

(** [type T Request]; a nil pointer field is [None]. *)
Record T : Type := mkT {
  T_Tag : option Z;
  T_Verb : option Request_Verb;
  T_Path : option string;
  T_Value : list Z;
  T_OtherTag : option Z;
  T_Rev : option Z;
  T_Offset : option Z;
  T_Limit : option Z
}.

#[global] Instance T_eq_dec : EqDecision T.
Proof. solve_decision. Defined.

Definition T_zero : T := mkT None None None [] None None None None.

(** [t.Tag = &tag] *)
Definition T_set_Tag (t : T) (tag : Z) : T :=
  mkT (Some tag) (T_Verb t) (T_Path t) (T_Value t) (T_OtherTag t)
      (T_Rev t) (T_Offset t) (T_Limit t).

(** [type R Response] *)
Record R : Type := mkR {
  R_Tag : option Z;
  R_Flags : option Z;
  R_Rev : option Z;
  R_Path : option string;
  R_Value : list Z;
  R_Len : option Z;
  R_ErrCode : option Z;
  R_ErrDetail : option string
}.

#[global] Instance R_eq_dec : EqDecision R.
Proof. solve_decision. Defined.

Record Event : Type := mkEvent {
  Ev_Rev : Z;
  Ev_Path : string;
  Ev_Body : list Z;
  Ev_Flag : Z;
  Ev_Err : option os_Error
}.

#[global] Instance Event_eq_dec : EqDecision Event.
Proof. solve_decision. Defined.

(** [func (e Event) IsSet() bool], [func (e Event) IsDel() bool] *)
Definition IsSet (e : Event) : bool := (0 <? Z.land (Ev_Flag e) Set')%Z.
Definition IsDel (e : Event) : bool := (0 <? Z.land (Ev_Flag e) Del)%Z.

(** The error codes of the wire protocol.  Their declarations
    ([Response_NOTDIR] and the like) are generated from the protocol
    description, which is not among the sources, so the development is
    parametric in them; the keys of a Go map literal are pairwise
    distinct. *)
Class RespCodes : Type := {
  Response_NOTDIR : Z;
  Response_ISDIR : Z;
  Response_NOENT : Z;
  Response_REV_MISMATCH : Z;
  Response_TOO_LATE : Z;
  Response_REDIRECT : Z;
  errs_keys_NoDup :
    NoDup [Response_NOTDIR; Response_ISDIR; Response_NOENT;
           Response_REV_MISMATCH; Response_TOO_LATE]
}.

(** A numbering to run the examples with. *)
#[global] Program Instance wire_codes : RespCodes := {|
  Response_NOTDIR := 20;
  Response_ISDIR := 21;
  Response_NOENT := 22;
  Response_REV_MISMATCH := 5;
  Response_TOO_LATE := 4;
  Response_REDIRECT := 3
|}.
Next Obligation. by apply (bool_decide_unpack _). Qed.

(** What an atomic section of the source does: it returns, it panics (an
    assignment to an entry of a nil map, a send on or a close of a closed
    channel, a slice bound out of range, a negative length given to
    [make]), or it does not come back (a loop that never finds what it
    looks for). *)
Inductive outcome (A : Type) : Type :=
  | Returns (a : A)
  | Panics
  | Hangs.
Arguments Returns {A} a.
Arguments Panics {A}.
Arguments Hangs {A}.

Section Conn.
Context `{codes : !RespCodes}.

(** [var errs = map[int32]os.Error{...}] *)
Definition errs : gmap Z os_Error :=
  list_to_map
    [ (Response_NOTDIR, ENOTDIR);
      (Response_ISDIR, EISDIR);
      (Response_NOENT, ENOENT);
      (Response_REV_MISMATCH, ErrOldRev);
      (Response_TOO_LATE, ErrTooLate) ].

(** [func (r *R) err() os.Error]; the receiver may be nil. *)
Definition R_err (r : option R) : option os_Error :=
  match r with
  | None => Some EOF
  | Some r =>
      match R_ErrCode r with
      | Some c =>
          match R_ErrDetail r with
          | Some d => Some (Error c d)
          | None =>
              match errs !! c with
              | Some e => Some e
              | None => Some (Error c EmptyString)
              end
          end
      | None => None
      end
  end.

(** ** The connection *)

(** A channel is known by its identity; [make] yields a fresh one. *)
Definition chan : Type := nat.

(** [type conn struct].  An entry of [cb] holds a channel or nil; the
    map itself is nil ([None]) once [close] has run.  The two mutexes
    are not fields of the model: a region held under one of them is one
    step.  [closed] is a channel with a buffer of one. *)
Record conn : Type := mkConn {
  conn_addr : string;
  conn_err : option os_Error;
  conn_n : Z;
  conn_cb : option (gmap Z (option chan));
  conn_redirectAddr : string;
  conn_redirected : bool;
  conn_closed : list bool
}.

Definition set_err (e : option os_Error) (c : conn) : conn :=
  mkConn (conn_addr c) e (conn_n c) (conn_cb c)
         (conn_redirectAddr c) (conn_redirected c) (conn_closed c).

Definition set_n_cb (n : Z) (cb : option (gmap Z (option chan))) (c : conn) : conn :=
  mkConn (conn_addr c) (conn_err c) n cb
         (conn_redirectAddr c) (conn_redirected c) (conn_closed c).

Definition set_cb (cb : option (gmap Z (option chan))) (c : conn) : conn :=
  set_n_cb (conn_n c) cb c.

Definition set_redirect (a : string) (c : conn) : conn :=
  mkConn (conn_addr c) (conn_err c) (conn_n c) (conn_cb c)
         a true (conn_closed c).

Definition push_closed (c : conn) : conn :=
  mkConn (conn_addr c) (conn_err c) (conn_n c) (conn_cb c)
         (conn_redirectAddr c) (conn_redirected c) (conn_closed c ++ [true]).

(** [ch, ok := c.cb[tag]]: [None] is [!ok]; [Some None] is a nil entry.
    Reading a nil map finds nothing. *)
Definition cb_lookup (cb : option (gmap Z (option chan))) (tag : Z)
  : option (option chan) :=
  match cb with
  | Some m => m !! tag
  | None => None
  end.

(** [c.cb[tag] = v] *)
Definition cb_assign (cb : option (gmap Z (option chan))) (tag : Z)
    (v : option chan) : outcome (option (gmap Z (option chan))) :=
  match cb with
  | Some m => Returns (Some (<[tag := v]> m))
  | None => Panics
  end.

(** [c.cb[tag] = nil, false] *)
Definition cb_delete (cb : option (gmap Z (option chan))) (tag : Z)
  : outcome (option (gmap Z (option chan))) :=
  match cb with
  | Some m => Returns (Some (delete tag m))
  | None => Panics
  end.

(** *** writeT *)

(** What the outside decides during one [writeT]: the result of
    [pb.Marshal], of [binary.Write] for the length prefix, and of each
    successive [c.c.Write] (the count [n] it reports, an [int], and the
    error). *)
Record write_input : Type := mkWriteInput {
  wr_marshal : string + list Z;
  wr_len : option ioerr;
  wr_body : list (Z * option ioerr)
}.

(** [buf[n:]]: the slice expression panics when [n] is negative or
    beyond [len(buf)]. *)
Definition slice_from (buf : list Z) (n : Z) : outcome (list Z) :=
  if ((n <? 0) || (Z.of_nat (length buf) <? n))%Z then Panics
  else Returns (drop (Z.to_nat n) buf).

(** [for len(buf) > 0 { n, err := c.c.Write(buf); ...; buf = buf[n:] }]:
    the loop returns nil when the buffer is drained and the error of
    the first [Write] that fails; it panics when the count of a [Write]
    is no bound of the buffer; and it does not come back while writes
    are still outstanding. *)
Fixpoint write_loop (buf : list Z) (rs : list (Z * option ioerr))
  : outcome (option ioerr) :=
  match buf with
  | [] => Returns None
  | _ :: _ =>
      match rs with
      | [] => Hangs
      | (_, Some e) :: _ => Returns (Some e)
      | (n, None) :: rs' =>
          match slice_from buf n with
          | Returns buf' => write_loop buf' rs'
          | Panics => Panics
          | Hangs => Hangs
          end
      end
  end.

(** The bytes that some calls of [Write] have reported as taken. *)
Definition written (rs : list (Z * option ioerr)) : Z :=
  foldr (λ p acc, (p.1 + acc)%Z) 0%Z rs.

(** Calls of [Write] that have returned no error and no negative
    count. *)
Definition accepted (rs : list (Z * option ioerr)) : Prop :=
  Forall (λ p, p.2 = None ∧ (0 ≤ p.1)%Z) rs.

(** [func (c *conn) writeT(t *T) os.Error], run under [clk].  The
    boolean tells whether the byte stream was written to. *)
Definition writeT (i : write_input) (c : conn)
  : outcome (conn * option os_Error * bool) :=
  match conn_err c with
  | Some e => Returns (c, Some e, false)
  | None =>
      match wr_marshal i with
      | inl m => Returns (c, Some (PbError m), false)
      | inr buf =>
          match wr_len i with
          | Some e => Returns (set_err (Some (os_of_io e)) c, Some (os_of_io e), true)
          | None =>
              match write_loop buf (wr_body i) with
              | Returns None => Returns (c, None, true)
              | Returns (Some e) =>
                  Returns (set_err (Some (os_of_io e)) c, Some (os_of_io e), true)
              | Panics => Panics
              | Hangs => Hangs
              end
          end
      end
  end.

(** *** send: the two sections under cblk *)

(** [for _, ok := c.cb[c.n]; ok; _, ok = c.cb[c.n] { c.n++ }] *)
Fixpoint find_tag (fuel : nat) (m : gmap Z (option chan)) (n : Z) : option Z :=
  match fuel with
  | O => None
  | S fuel' =>
      match m !! n with
      | Some _ => find_tag fuel' m (wrap32 (n + 1))
      | None => Some n
      end
  end.

(** Lines 174-180: find an unused tag and put the reply channel in the
    table.  A table of [k] entries is left behind after at most [k]
    increments, unless it holds every tag there is. *)
Definition send_register (ch : chan) (c : conn) : outcome (Z * conn) :=
  match conn_cb c with
  | None => Panics
  | Some m =>
      match find_tag (S (size m)) m (conn_n c) with
      | None => Hangs
      | Some tag => Returns (tag, set_n_cb tag (Some (<[tag := Some ch]> m)) c)
      end
  end.

(** Lines 189-191: the failed send takes its tag out again. *)
Definition send_unregister (tag : Z) (c : conn) : outcome conn :=
  match cb_delete (conn_cb c) tag with
  | Returns cb' => Returns (set_cb cb' c)
  | Panics => Panics
  | Hangs => Hangs
  end.

(** *** readResponses: one frame *)

(** What the outside decides during one [readR]: the read of the
    length prefix fails; or the prefix read is negative; or it is not,
    and then the read of the payload fails, or its decoding, or there is
    a frame. *)
Inductive read_input : Type :=
  | ReadSizeFails (e : ioerr)
  | ReadSizeNegative
  | ReadBodyFails (e : ioerr)
  | ReadDecodeFails (msg : string)
  | ReadFrame (r : R).

(** [readR] (lines 242-261): the first failure is returned;
    [make([]byte, size)] panics on a negative [size]. *)
Definition readR (i : read_input) : outcome (os_Error + R) :=
  match i with
  | ReadSizeFails e => Returns (inl (os_of_io e))
  | ReadSizeNegative => Panics
  | ReadBodyFails e => Returns (inl (os_of_io e))
  | ReadDecodeFails m => Returns (inl (PbError m))
  | ReadFrame r => Returns (inr r)
  end.

(** Lines 291-294. *)
Definition note_redirect (r : R) (c : conn) : conn :=
  match R_ErrCode r with
  | Some code =>
      if bool_decide (code = Response_REDIRECT)
      then set_redirect (GetString (R_ErrDetail r)) c
      else c
  | None => c
  end.

(** What the read loop goes on to do with a frame once it has left the
    section under [cblk]. *)
Inductive routed : Type :=
  | Dropped                  (* a nil entry: [continue] *)
  | Unexpected               (* no entry: log, [continue] *)
  | ToSink (ch : chan).      (* an open entry *)

(** Lines 296-308: look the tag up and, for a [Done] frame, take it out
    of the table.  The boolean tells whether the tag was taken out. *)
Definition read_lookup (r : R) (c : conn) : outcome (conn * routed * bool) :=
  let tag := GetInt (R_Tag r) in
  let flags := GetInt (R_Flags r) in
  match cb_lookup (conn_cb c) tag with
  | Some None => Returns (c, Dropped, false)
  | found =>
      let to := match found with Some (Some ch) => ToSink ch | _ => Unexpected end in
      if has_flag flags Done then
        match cb_delete (conn_cb c) tag with
        | Returns cb' => Returns (set_cb cb' c, to, true)
        | Panics => Panics
        | Hangs => Hangs
        end
      else Returns (c, to, false)
  end.

(** *** cancel: the two sections under cblk *)

(** Lines 338-348.  [cb] is the channel the caller expects under [tag];
    like any channel value it may be nil. *)
Definition cancel_reserve (tag : Z) (cb : option chan) (c : conn)
  : outcome (conn * option os_Error) :=
  match cb_lookup (conn_cb c) tag with
  | None => Returns (c, Some ErrBadTag)
  | Some ch =>
      if bool_decide (ch = cb) then
        match cb_assign (conn_cb c) tag None with
        | Returns cb' => Returns (set_cb cb' c, None)
        | Panics => Panics
        | Hangs => Hangs
        end
      else Returns (c, Some ErrBadTag)
  end.

(** [&T{Verb: cancel, OtherTag: &tag}] *)
Definition cancel_request (tag : Z) : T :=
  mkT None (Some Request_CANCEL) None [] (Some tag) None None None.

(** Lines 358-361. *)
Definition cancel_release (tag : Z) (c : conn) : outcome conn :=
  match cb_delete (conn_cb c) tag with
  | Returns cb' => Returns (set_cb cb' c)
  | Panics => Panics
  | Hangs => Hangs
  end.

(** *** close *)

(** [close(ch)] on the set of channels closed so far. *)
Definition close_chan (ch : chan) (closed : gset chan) : outcome (gset chan) :=
  if bool_decide (ch ∈ closed) then Panics else Returns ({[ch]} ∪ closed).

(** The non-nil channels of the table. *)
Definition sinks (m : gmap Z (option chan)) : list chan :=
  omap snd (map_to_list m).

Fixpoint close_all (chs : list chan) (closed : gset chan) : outcome (gset chan) :=
  match chs with
  | [] => Returns closed
  | ch :: chs' =>
      match close_chan ch closed with
      | Returns closed' => close_all chs' closed'
      | Panics => Panics
      | Hangs => Hangs
      end
  end.

(** Lines 265-272 of [close]: every channel of the table is closed, and
    the table becomes nil. *)
Definition close_table (c : conn) (closed : gset chan)
  : outcome (conn * gset chan) :=
  match close_all (sinks (default ∅ (conn_cb c))) closed with
  | Returns closed' => Returns (set_cb None c, closed')
  | Panics => Panics
  | Hangs => Hangs
  end.

(** ** Goroutines *)

(** [type Watch struct]; the field [c] is the one connection at hand. *)
Record Watch : Type := mkWatch {
  W_C : chan;
  W_cb : chan;
  W_tag : Z
}.

(** Who called [conn.call]: a caller outside, or [cancel] on [tag] with
    the sink [ch] it is to close at the end. *)
Inductive caller : Type :=
  | Direct
  | FromCancel (tag : Z) (ch : chan).

(** Who called [conn.send]. *)
Inductive purpose : Type :=
  | ForCall (who : caller)
  | ForEvents.

(** What a goroutine ends with. *)
Inductive result : Type :=
  | RCall (r : option R) (err : option os_Error)
  | RWatch (w : option Watch) (err : option os_Error)
  | RCancel (err : option os_Error)
  | RExit.

(** Where a goroutine stands; each constructor names the atomic section
    it is about to run. *)
Inductive thread : Type :=
  (* send *)
  | SendCheck (k : purpose) (t : T)                   (* line 166 *)
  | SendAlloc (k : purpose) (t : T)                   (* lines 170-180 *)
  | SendWrite (k : purpose) (t : T) (tag : Z) (ch : chan)   (* lines 184-186 *)
  | SendCleanup (k : purpose) (tag : Z) (e : os_Error)      (* lines 189-191 *)
  (* call *)
  | CallRecv (who : caller) (ch : chan)               (* line 205 *)
  (* cancel *)
  | CancelCheck (tag : Z) (cb : chan)                 (* lines 338-348 *)
  | CancelRelease (tag : Z) (ch : chan)               (* lines 358-361 *)
  | CancelClose (ch : chan)                           (* line 363 *)
  (* the goroutine started by events *)
  | FwdRecv (cb evs : chan)                           (* line 223 *)
  | FwdSend (cb evs : chan) (ev : Event)              (* line 233 *)
  | FwdClose (evs : chan)                             (* line 235 *)
  (* readResponses *)
  | RdRead                                            (* line 281 *)
  | RdSetErr (e : os_Error)                           (* lines 283-287 *)
  | RdLookup (r : R)                                  (* lines 296-308 *)
  | RdDeliver (ch : chan) (r : R)                     (* line 327 *)
  | RdClose (ch : chan) (r : R)                       (* line 331 *)
  | RdTeardown                                        (* lines 265-272 *)
  | RdNotify                                          (* line 273 *)
  (* readResponses panicking: the deferred close (line 278) *)
  | RdPanicTeardown                                   (* lines 265-272 *)
  | RdPanicNotify                                     (* line 273 *)
  | Finished (res : result).

(** What is observed of a run, newest first. *)
Inductive closer : Type := ByReader | ByCancel | ByTeardown.

Inductive event : Type :=
  | EvRegister (tag : Z) (ch : chan)
  | EvUnregister (tag : Z)
  | EvWrite (t : T)
  | EvRead (i : read_input)
  | EvRemove (tag : Z)
  | EvLog (r : R)
  | EvDrop (r : R)
  | EvDeliver (ch : chan) (r : R)
  | EvClose (by_ : closer) (ch : chan)
  | EvReserve (tag : Z)
  | EvRelease (tag : Z)
  | EvTeardown
  | EvEmit (evs : chan) (ev : Event)
  | EvEmitClose (evs : chan).

#[global] Instance closer_eq_dec : EqDecision closer.
Proof. solve_decision. Defined.

#[global] Instance ioerr_eq_dec : EqDecision ioerr.
Proof. solve_decision. Defined.

#[global] Instance read_input_eq_dec : EqDecision read_input.
Proof. solve_decision. Defined.

#[global] Instance event_eq_dec : EqDecision event.
Proof. solve_decision. Defined.

(** The connection, the channels made so far and which of them are
    closed, the goroutines, and the log. *)
Record world : Type := mkWorld {
  w_conn : conn;
  w_next : chan;
  w_closed : gset chan;
  w_threads : list thread;
  w_trace : list event;
  w_panic : bool
}.

(** What the outside contributes to a step. *)
Inductive input : Type :=
  | InNone
  | InWrite (i : write_input)
  | InRead (i : read_input)
  | InPartner (tid : nat).

(** [send] returned an error (lines 167, 192): what its caller returns. *)
Definition send_failed (k : purpose) (e : os_Error) : thread :=
  match k with
  | ForCall Direct => Finished (RCall None (Some e))
  | ForCall (FromCancel _ _) => Finished (RCancel (Some e))
  | ForEvents => Finished (RWatch None (Some e))
  end.

(** Lines 205-210, then line 351 for [cancel]: the caller has [r] from
    its channel, nil when the channel was closed. *)
Definition call_return (who : caller) (r : option R) : thread :=
  match R_err r, who with
  | Some e, Direct => Finished (RCall None (Some e))
  | Some e, FromCancel _ _ => Finished (RCancel (Some e))
  | None, Direct => Finished (RCall r None)
  | None, FromCancel tag ch => CancelRelease tag ch
  end.

(** Lines 224-232: the event made of one response; [var ev Event] is
    the zero value, of which either [Err] or the other fields are set. *)
Definition event_of (r : R) : Event :=
  match R_err (Some r) with
  | Some e => mkEvent 0 EmptyString [] 0 (Some e)
  | None =>
      mkEvent (GetInt (R_Rev r)) (GetString (R_Path r)) (R_Value r)
              (GetInt (R_Flags r)) None
  end.

(** The goroutine that takes a value off a channel moves on with it. *)
Definition receive (th : thread) (ch : chan) (r : R) : option thread :=
  match th with
  | CallRecv who ch' =>
      if bool_decide (ch' = ch) then Some (call_return who (Some r)) else None
  | FwdRecv cb evs =>
      if bool_decide (cb = ch) then Some (FwdSend cb evs (event_of r)) else None
  | _ => None
  end.

Definition upd (w : world) (c : conn) (tid : nat) (th : thread)
    (evs : list event) : world :=
  mkWorld c (w_next w) (w_closed w) (<[tid := th]> (w_threads w))
          (evs ++ w_trace w) false.

Definition upd_closed (w : world) (closed : gset chan) (c : conn) (tid : nat)
    (th : thread) (evs : list event) : world :=
  mkWorld c (w_next w) closed (<[tid := th]> (w_threads w))
          (evs ++ w_trace w) false.

Definition crash (w : world) : world :=
  mkWorld (w_conn w) (w_next w) (w_closed w) (w_threads w) (w_trace w) true.

(** One step of goroutine [tid], which stands at [th]. *)
Definition step_thread (w : world) (tid : nat) (th : thread) (inp : input)
  : option world :=
  let c := w_conn w in
  match th with
  | SendCheck k t =>
      match conn_err c with
      | Some e => Some (upd w c tid (send_failed k e) [])
      | None => Some (upd w c tid (SendAlloc k t) [])
      end
  | SendAlloc k t =>
      (* line 170: the channel is made; making it concerns no other
         goroutine, so it is part of this step *)
      let ch := w_next w in
      match send_register ch c with
      | Returns (tag, c') =>
          Some (mkWorld c' (S ch) (w_closed w)
                  (<[tid := SendWrite k (T_set_Tag t tag) tag ch]> (w_threads w))
                  (EvRegister tag ch :: w_trace w) false)
      | Panics => Some (crash w)
      | Hangs => None
      end
  | SendWrite k t tag ch =>
      match inp with
      | InWrite i =>
          match writeT i c with
          | Returns (c', err, wrote) =>
              let evs := if wrote then [EvWrite t] else [] in
              match err, k with
              | Some e, _ => Some (upd w c' tid (SendCleanup k tag e) evs)
              | None, ForCall who => Some (upd w c' tid (CallRecv who ch) evs)
              | None, ForEvents =>
                  (* lines 220-238: make the output channel, start the
                     forwarding goroutine, return the Watch *)
                  let out := w_next w in
                  Some (mkWorld c' (S out) (w_closed w)
                          (<[tid := Finished (RWatch (Some (mkWatch out ch tag)) None)]>
                             (w_threads w) ++ [FwdRecv ch out])
                          (evs ++ w_trace w) false)
              end
          | Panics => Some (crash w)
          | Hangs => None
          end
      | _ => None
      end
  | SendCleanup k tag e =>
      match send_unregister tag c with
      | Returns c' => Some (upd w c' tid (send_failed k e) [EvUnregister tag])
      | Panics => Some (crash w)
      | Hangs => None
      end
  | CallRecv who ch =>
      (* the channels of the table are unbuffered: a value passes in the
         step of the sender, which takes both goroutines on; alone, the
         receiver gets on only when the channel is closed *)
      if bool_decide (ch ∈ w_closed w)
      then Some (upd w c tid (call_return who None) [])
      else None
  | CancelCheck tag cb =>
      match cancel_reserve tag (Some cb) c with
      | Returns (c', Some e) => Some (upd w c' tid (Finished (RCancel (Some e))) [])
      | Returns (c', None) =>
          Some (upd w c' tid
                  (SendCheck (ForCall (FromCancel tag cb)) (cancel_request tag))
                  [EvReserve tag])
      | Panics => Some (crash w)
      | Hangs => None
      end
  | CancelRelease tag ch =>
      match cancel_release tag c with
      | Returns c' => Some (upd w c' tid (CancelClose ch) [EvRelease tag])
      | Panics => Some (crash w)
      | Hangs => None
      end
  | CancelClose ch =>
      match close_chan ch (w_closed w) with
      | Returns closed' =>
          Some (upd_closed w closed' c tid (Finished (RCancel None))
                  [EvClose ByCancel ch])
      | Panics => Some (crash w)
      | Hangs => None
      end
  | FwdRecv cb evs =>
      if bool_decide (cb ∈ w_closed w)
      then Some (upd w c tid (FwdClose evs) [])
      else None
  | FwdSend cb evs ev =>
      (* line 233: the goroutine that reads [evs] is the user of the
         Watch, outside the connection; the send is taken when it is
         there to receive *)
      Some (upd w c tid (FwdRecv cb evs) [EvEmit evs ev])
  | FwdClose evs => Some (upd w c tid (Finished RExit) [EvEmitClose evs])
  | RdRead =>
      match inp with
      | InRead i =>
          match readR i with
          | Returns (inl e) => Some (upd w c tid (RdSetErr e) [EvRead i])
          | Returns (inr r) =>
              Some (upd w (note_redirect r c) tid (RdLookup r) [EvRead i])
          | Panics =>
              (* a panic in the read loop unwinds [readResponses], whose
                 deferred call of [close] runs before the program goes
                 down *)
              Some (upd w c tid RdPanicTeardown [EvRead i])
          | Hangs => None
          end
      | _ => None
      end
  | RdSetErr e =>
      let c' := match conn_err c with
                | None => set_err (Some e) c
                | Some _ => c
                end in
      Some (upd w c' tid RdTeardown [])
  | RdLookup r =>
      let flags := GetInt (R_Flags r) in
      match read_lookup r c with
      | Returns (c', to, removed) =>
          let evs := if removed then [EvRemove (GetInt (R_Tag r))] else [] in
          match to with
          | Dropped => Some (upd w c' tid RdRead (EvDrop r :: evs))
          | Unexpected => Some (upd w c' tid RdRead (EvLog r :: evs))
          | ToSink ch =>
              if has_flag flags Valid then Some (upd w c' tid (RdDeliver ch r) evs)
              else if has_flag flags Done then Some (upd w c' tid (RdClose ch r) evs)
              else Some (upd w c' tid RdRead evs)
          end
      | Panics => Some (upd w c tid RdPanicTeardown [])
      | Hangs => None
      end
  | RdDeliver ch r =>
      if bool_decide (ch ∈ w_closed w)
      then Some (upd w c tid RdPanicTeardown [])
      else
        match inp with
        | InPartner p =>
            match w_threads w !! p with
            | Some pth =>
                match receive pth ch r with
                | Some pth' =>
                    let next := if has_flag (GetInt (R_Flags r)) Done
                                then RdClose ch r else RdRead in
                    Some (mkWorld c (w_next w) (w_closed w)
                            (<[tid := next]> (<[p := pth']> (w_threads w)))
                            (EvDeliver ch r :: w_trace w) false)
                | None => None
                end
            | None => None
            end
        | _ => None
        end
  | RdClose ch r =>
      match close_chan ch (w_closed w) with
      | Returns closed' =>
          Some (upd_closed w closed' c tid RdRead [EvClose ByReader ch])
      | Panics => Some (upd w c tid RdPanicTeardown [])
      | Hangs => None
      end
  | RdTeardown =>
      match close_table c (w_closed w) with
      | Returns (c', closed') =>
          Some (upd_closed w closed' c' tid RdNotify [EvTeardown])
      | Panics => Some (crash w)
      | Hangs => None
      end
  | RdNotify =>
      match conn_closed c with
      | [] => Some (upd w (push_closed c) tid (Finished RExit) [])
      | _ :: _ => None
      end
  | RdPanicTeardown =>
      match close_table c (w_closed w) with
      | Returns (c', closed') =>
          Some (upd_closed w closed' c' tid RdPanicNotify [EvTeardown])
      | Panics => Some (crash w)
      | Hangs => None
      end
  | RdPanicNotify =>
      (* [close] has returned and no deferred call is left: the panic
         ends the program *)
      match conn_closed c with
      | [] => Some (crash (upd w (push_closed c) tid RdPanicNotify []))
      | _ :: _ => None
      end
  | Finished _ => None
  end.

(** What happens next: a goroutine outside calls into the connection, or
    one of the goroutines takes a step. *)
Inductive action : Type :=
  | ActCall (t : T)
  | ActEvents (t : T)
  | ActCancel (tid : nat)
  | ActStep (tid : nat) (inp : input).

Definition spawn (w : world) (th : thread) : world :=
  mkWorld (w_conn w) (w_next w) (w_closed w) (w_threads w ++ [th])
          (w_trace w) (w_panic w).

(** [Cancel] is a method of a [Watch], so it runs on the tag and the
    channel of a [Watch] that [events] has returned. *)
Definition step (w : world) (a : action) : option world :=
  if w_panic w then None
  else
    match a with
    | ActCall t => Some (spawn w (SendCheck (ForCall Direct) t))
    | ActEvents t => Some (spawn w (SendCheck ForEvents t))
    | ActCancel tid =>
        match w_threads w !! tid with
        | Some (Finished (RWatch (Some wt) None)) =>
            Some (spawn w (CancelCheck (W_tag wt) (W_cb wt)))
        | _ => None
        end
    | ActStep tid inp =>
        match w_threads w !! tid with
        | Some th => step_thread w tid th inp
        | None => None
        end
    end.

(** A schedule; [None] when one of its actions cannot take place. *)
Fixpoint run (w : world) (sched : list action) : option world :=
  match sched with
  | [] => Some w
  | a :: sched' =>
      match step w a with
      | Some w' => run w' sched'
      | None => None
      end
  end.

(** [dial]: a fresh table, and the read loop started. *)
Definition dial_conn (addr : string) : conn :=
  mkConn addr None 0 (Some ∅) EmptyString false [].

Definition dial_world (addr : string) : world :=
  mkWorld (dial_conn addr) 0 ∅ [RdRead] [] false.

(** ** What is stated of runs *)

(** *** The invariants *)

Definition in_table (cb : option (gmap Z (option chan))) (ch : chan) : Prop :=
  ∃ m tag, cb = Some m ∧ m !! tag = Some (Some ch).

Definition tagof (r : R) : Z := GetInt (R_Tag r).
Definition is_done (r : R) : bool := has_flag (GetInt (R_Flags r)) Done.
Definition is_valid (r : R) : bool := has_flag (GetInt (R_Flags r)) Valid.

(** The events of the read loop, which is one goroutine: in the log they
    appear in the order of its program. *)
Definition rd_ev (e : event) : bool :=
  match e with
  | EvRead _ | EvRemove _ | EvLog _ | EvDrop _ | EvDeliver _ _
  | EvClose ByReader _ | EvTeardown => true
  | _ => false
  end.

Definition rd_log (tr : list event) : list event := filter (λ e, rd_ev e) tr.

(** Every occurrence of [e] in the log (newest first) has a past of
    which [Q] holds. *)
Definition before (e : event) (tr : list event) (Q : list event → Prop) : Prop :=
  ∀ post pre, tr = post ++ e :: pre → Q pre.

Definition is_reader (th : thread) : bool :=
  match th with
  | RdRead | RdSetErr _ | RdLookup _ | RdDeliver _ _ | RdClose _ _
  | RdTeardown | RdNotify | RdPanicTeardown | RdPanicNotify => true
  | _ => false
  end.

(** The read loop has read [r] and taken its tag out, and has done
    nothing else since. *)
Definition removed_last (r : R) (tr : list event) : Prop :=
  ∃ rest, rd_log tr = EvRemove (tagof r) :: EvRead (ReadFrame r) :: rest.

Definition delivered_last (ch : chan) (r : R) (tr : list event) : Prop :=
  ∃ rest, rd_log tr =
          EvDeliver ch r :: EvRemove (tagof r) :: EvRead (ReadFrame r) :: rest.

(** What holds of a goroutine at each place of its program. *)
Definition thread_ok (cb : option (gmap Z (option chan))) (tr : list event)
    (tid : nat) (th : thread) : Prop :=
  (is_reader th → tid = 0) ∧
  match th with
  | RdLookup r => ∃ rest, rd_log tr = EvRead (ReadFrame r) :: rest
  | RdDeliver ch r =>
      EvRegister (tagof r) ch ∈ tr ∧
      (is_done r → ¬ in_table cb ch ∧ removed_last r tr)
  | RdClose ch r =>
      EvRegister (tagof r) ch ∈ tr ∧ is_done r ∧ ¬ in_table cb ch ∧
      (removed_last r tr ∨ delivered_last ch r tr)
  | FwdSend cb' _ ev => ∃ r, EvDeliver cb' r ∈ tr ∧ ev = event_of r
  | _ => True
  end.

Record wf (w : world) : Prop := mkWf {
  wf_n : is_int32 (conn_n (w_conn w));
  wf_reg_lt : ∀ tag ch, EvRegister tag ch ∈ w_trace w → ch < w_next w;
  wf_reg_fun : ∀ t1 t2 ch,
    EvRegister t1 ch ∈ w_trace w → EvRegister t2 ch ∈ w_trace w → t1 = t2;
  wf_tab_reg : ∀ m tag ch,
    conn_cb (w_conn w) = Some m → m !! tag = Some (Some ch) →
    EvRegister tag ch ∈ w_trace w;
  wf_threads : ∀ tid th,
    w_threads w !! tid = Some th →
    thread_ok (conn_cb (w_conn w)) (w_trace w) tid th;
  wf_deliver : ∀ ch r,
    before (EvDeliver ch r) (w_trace w) (λ pre,
      EvRegister (tagof r) ch ∈ pre ∧ (is_done r → removed_last r pre));
  wf_close : ∀ ch,
    before (EvClose ByReader ch) (w_trace w) (λ pre,
      ∃ r, is_done r ∧ (removed_last r pre ∨ delivered_last ch r pre));
  wf_emit : ∀ evs ev,
    EvEmit evs ev ∈ w_trace w →
    ∃ ch r, EvDeliver ch r ∈ w_trace w ∧ ev = event_of r
}.

(** While the read loop is in its loop the table is there: [close] makes
    it nil, and the read loop calls [close] when it has left the loop. *)
Definition table_alive (w : world) : Prop :=
  conn_cb (w_conn w) = None →
  ∀ tid th, w_threads w !! tid = Some th → is_reader th →
            th = RdNotify ∨ th = RdPanicNotify.

(** *** The read loop *)


(** *** The sticky error *)

(** The read loop has left its loop: no goroutine stands at a place of
    [readResponses] from which a frame is still read. *)
Definition reading_over (w : world) : Prop :=
  ∀ tid th, w_threads w !! tid = Some th →
            match th with
            | RdRead | RdLookup _ | RdDeliver _ _ | RdClose _ _ => False
            | _ => True
            end.

(** *** The forwarding goroutine *)

(** The events published so far on the output channel [evs], oldest
    first, and whether the channel has been closed. *)
Definition emitted (evs : chan) (tr : list event) : list Event :=
  reverse (omap (λ e, match e with
                      | EvEmit evs' ev => if bool_decide (evs' = evs) then Some ev else None
                      | _ => None
                      end) tr).

Definition emit_closed (evs : chan) (tr : list event) : bool :=
  bool_decide (EvEmitClose evs ∈ tr).

(** *** cancel *)








(** *** The errors a connection hands to its callers *)

(** [ErrNoAddrs] belongs to the cluster session: nothing on a connection
    produces it. *)
Definition res_ok (res : result) : Prop :=
  match res with
  | RCall _ (Some e) | RWatch _ (Some e) => e ≠ ErrNoAddrs
  | _ => True
  end.

Definition no_ErrNoAddrs (w : world) : Prop :=
  conn_err (w_conn w) ≠ Some ErrNoAddrs ∧
  ∀ tid th, w_threads w !! tid = Some th →
            match th with
            | SendCleanup _ _ e | RdSetErr e => e ≠ ErrNoAddrs
            | Finished res => res_ok res
            | _ => True
            end.

(** What [conn.call] can return to its caller: the result with which a
    goroutine that called it on some connection has finished. *)
Definition call_outcome (res : option R * option os_Error) : Prop :=
  ∃ addr sched w tid,
    run (dial_world addr) sched = Some w ∧
    w_threads w !! tid = Some (Finished (RCall res.1 res.2)).

(** *** Channels are closed once *)

(** The channel that a [cancel] which has reserved its tag is to close
    at the end. *)
Definition cancel_holds (th : thread) : option chan :=
  match th with
  | SendCheck (ForCall (FromCancel _ ch)) _
  | SendAlloc (ForCall (FromCancel _ ch)) _
  | SendWrite (ForCall (FromCancel _ ch)) _ _ _
  | CallRecv (FromCancel _ ch) _
  | CancelRelease _ ch
  | CancelClose ch => Some ch
  | _ => None
  end.

(** [cancel] has its answer and is past line 351. *)
Definition cancel_past_call (th : thread) : bool :=
  match th with
  | CancelRelease _ _ | CancelClose _ => true
  | _ => false
  end.

(** The channel the read loop has in hand after its lookup, and whether
    it is to close it. *)
Definition reader_holds (th : thread) : option (chan * bool) :=
  match th with
  | RdDeliver ch r => Some (ch, is_done r)
  | RdClose ch _ => Some (ch, true)
  | _ => None
  end.

(** What keeps [close] and the send of the read loop from a closed
    channel: a channel of the table is open; so is the one the read loop
    has in hand, and the one a [cancel] is to close, which is no entry
    of the table any more and belongs to that [cancel] alone; and the
    read loop has such a channel in hand only for a delivery without
    [Done], which it began before the [cancel] got its answer. *)
Record safe (w : world) : Prop := mkSafe {
  safe_closed_lt : ∀ ch, ch ∈ w_closed w → ch < w_next w;
  safe_tab_open : ∀ ch, in_table (conn_cb (w_conn w)) ch → ch ∉ w_closed w;
  safe_reader : ∀ tid th ch d,
    w_threads w !! tid = Some th → reader_holds th = Some (ch, d) →
    ch ∉ w_closed w;
  safe_cancel : ∀ tid th ch,
    w_threads w !! tid = Some th → cancel_holds th = Some ch →
    ch < w_next w ∧ ¬ in_table (conn_cb (w_conn w)) ch ∧ ch ∉ w_closed w;
  safe_cancel_one : ∀ i j thi thj ch,
    w_threads w !! i = Some thi → w_threads w !! j = Some thj →
    cancel_holds thi = Some ch → cancel_holds thj = Some ch → i = j;
  safe_cancel_reader : ∀ i j thi thj ch d,
    w_threads w !! i = Some thi → w_threads w !! j = Some thj →
    cancel_holds thi = Some ch → reader_holds thj = Some (ch, d) →
    d = false ∧ cancel_past_call thi = false
}.

(** The steps that write to the table: the registration of [send],
    its cleanup, and the release of [cancel]. *)
Definition writes_table (th : thread) : bool :=
  match th with
  | SendAlloc _ _ | SendCleanup _ _ _ | CancelRelease _ _ => true
  | _ => false
  end.

(** *** The end of the read loop *)

(** The read loop is in the call of [close] that a panic of [readR] has
    set off. *)
Definition unwinding (th : thread) : bool :=
  match th with
  | RdPanicTeardown | RdPanicNotify => true
  | _ => false
  end.

(** [close] sends on [c.closed] once, as its last step; by the time the
    read loop returns and calls [close] the error of the connection is
    set; and the table is nil without that error only when [close] runs
    for a panic of [readR], which a negative length prefix has caused. *)
Record ending (w : world) : Prop := mkEnding {
  end_closed :
    conn_closed (w_conn w) = [] ∨
    (conn_closed (w_conn w) = [true] ∧
     (w_threads w !! 0 = Some (Finished RExit) ∨
      (w_threads w !! 0 = Some RdPanicNotify ∧ w_panic w = true)));
  end_teardown : ∀ tid,
    w_threads w !! tid = Some RdTeardown → conn_err (w_conn w) ≠ None;
  end_nil :
    conn_cb (w_conn w) = None →
    conn_err (w_conn w) ≠ None ∨ w_threads w !! 0 = Some RdPanicNotify;
  end_panic : ∀ tid th,
    w_threads w !! tid = Some th → unwinding th →
    EvRead ReadSizeNegative ∈ w_trace w
}.

(** *** Requests and their channels *)

(** A request has been written with the tag under which [ch] is
    registered. *)
Definition sent_under (tr : list event) (ch : chan) : Prop :=
  ∃ t tag, EvWrite t ∈ tr ∧ T_Tag t = Some tag ∧ EvRegister tag ch ∈ tr.

(** What a goroutine knows of its tag and its channel. *)
Definition thread_linked (tr : list event) (th : thread) : Prop :=
  match th with
  | SendWrite _ t tag ch => T_Tag t = Some tag ∧ EvRegister tag ch ∈ tr
  | CallRecv _ ch | FwdRecv ch _ | FwdSend ch _ _ => sent_under tr ch
  | Finished (RWatch (Some wt) _) =>
      EvRegister (W_tag wt) (W_cb wt) ∈ tr ∧ sent_under tr (W_cb wt)
  | CancelCheck tag cb => EvRegister tag cb ∈ tr
  | _ => True
  end.

Definition linked (w : world) : Prop :=
  ∀ tid th, w_threads w !! tid = Some th → thread_linked (w_trace w) th.

(** *** Redirects *)

Definition is_redirect (r : R) : bool :=
  bool_decide (R_ErrCode r = Some Response_REDIRECT).

(** The detail of the latest REDIRECT response in the log. *)
Fixpoint last_redirect (tr : list event) : option string :=
  match tr with
  | [] => None
  | EvRead (ReadFrame r) :: tr' =>
      if is_redirect r then Some (GetString (R_ErrDetail r))
      else last_redirect tr'
  | _ :: tr' => last_redirect tr'
  end.

(** What the connection remembers of redirects: whether a REDIRECT
    response has been read, and the address of the latest one. *)
Definition redirect_state (c : conn) : bool * string :=
  (conn_redirected c, conn_redirectAddr c).

Definition redirect_ok (w : world) : Prop :=
  redirect_state (w_conn w)
  = match last_redirect (w_trace w) with
    | Some addr => (true, addr)
    | None => (false, EmptyString)
    end.

(** *** What a call hands back *)

(** A response or an error, never both and never neither; and a
    response that is handed back has no error code. *)
Definition res_exclusive (res : result) : Prop :=
  match res with
  | RCall r err =>
      match r, err with
      | Some r, None => R_ErrCode r = None
      | None, Some _ => True
      | _, _ => False
      end
  | RWatch wt err =>
      match wt, err with
      | Some _, None | None, Some _ => True
      | _, _ => False
      end
  | _ => True
  end.

(** *** Sinks that are left open *)

(** Goroutine [th] waits for a value on [ch]. *)
Definition waits_on (th : thread) (ch : chan) : Prop :=
  match th with
  | CallRecv _ ch' | FwdRecv ch' _ => ch' = ch
  | _ => False
  end.

(** Nobody is left to send on [ch] or to close it: it is open, it is no
    entry of the table, and neither the read loop nor a [cancel] has it
    in hand. *)
Definition abandoned (w : world) (ch : chan) : Prop :=
  ch < w_next w ∧ ¬ (ch ∈ w_closed w) ∧
  ¬ in_table (conn_cb (w_conn w)) ch ∧
  ∀ tid th, w_threads w !! tid = Some th →
            (∀ d, reader_holds th ≠ Some (ch, d)) ∧ cancel_holds th ≠ Some ch.

(** *** The entry of a send in flight *)


End Conn.

(** * The cluster session *)

Section Client.
Context `{codes : !RespCodes}.

(** What the outside decides during one [connect]: which key the
    [range] over the pool yields first, and whether the dial of an
    address succeeds. *)
Record dial_env : Type := mkDialEnv {
  de_first : gset string → nat;
  de_dial : string → bool
}.

(** [for addr = range a { break }]: some key of the map. *)
Definition range_first (env : dial_env) (a : gset string) : option string :=
  elements a !! (de_first env a `mod` size a).

(** [func (cl *Client) connect(a map[string]bool) *conn].  The result is
    the address of the connection made and the pool as it is left, or no
    connection: then [cl.c] has been closed. *)
Fixpoint connect (fuel : nat) (env : dial_env) (a : gset string)
  : option (option string * gset string) :=
  match fuel with
  | O => None
  | S fuel' =>
      match range_first env a with
      | None => Some (None, a)
      | Some addr =>
          if de_dial env addr then Some (Some addr, a)
          else connect fuel' env (a ∖ {[addr]})
      end
  end.

(** The goroutine of [run]: at its [select] with a pool and a
    connection (known by its address), or returned, with [cl.c]
    closed. *)
Inductive session : Type :=
  | Running (a : gset string) (c : string)
  | Stopped.

(** Lines 512-515 and 529-532: connect, and return if there is no
    connection. *)
Definition reconnect (env : dial_env) (a : gset string) : option session :=
  match connect (S (size a)) env a with
  | Some (Some addr, a') => Some (Running a' addr)
  | Some (None, _) => Some Stopped
  | None => None
  end.

(** [New]: [go c.run(map[string]bool{addr: true})] *)
Definition New (env : dial_env) (addr : string) : option session :=
  reconnect env {[addr]}.

(** The cases of the [select]. *)
Inductive sess_event : Type :=
  | SLen
  | SGive
  | SAdd (addr : string)
  | SRm (addr : string)
  | SClosed (env : dial_env).

(** One turn of the loop of [run]; [None] when the case cannot be
    served, as is every case once [run] has returned. *)
Definition session_step (s : session) (ev : sess_event) : option session :=
  match s with
  | Stopped => None
  | Running a c =>
      match ev with
      | SLen | SGive => Some (Running a c)
      | SAdd x => Some (Running ({[x]} ∪ a) c)
      | SRm x => Some (Running (a ∖ {[x]}) c)
      | SClosed env => reconnect env (a ∖ {[c]})
      end
  end.

Fixpoint session_run (s : session) (evs : list sess_event) : option session :=
  match evs with
  | [] => Some s
  | ev :: evs' =>
      match session_step s ev with
      | Some s' => session_run s' evs'
      | None => None
      end
  end.

(** The session loses its connection, and the dial of every address
    left in the pool fails. *)
Definition pool_exhausted (s : session) (ev : sess_event) : Prop :=
  ∃ a c env,
    s = Running a c ∧ ev = SClosed env ∧
    ∀ x, x ∈ a → x ≠ c → de_dial env x = false.

(** [c := <-cl.c]: the connection the loop hands out, or nil from the
    closed channel. *)
Definition recv_c (s : session) : option string :=
  match s with
  | Running _ c => Some c
  | Stopped => None
  end.

(** What the connection layer answers: [c.call(t)] and [c.events(t)] on
    the connection to an address. *)
Record conn_env : Type := mkConnEnv {
  ce_call : string → T → option R * option os_Error;
  ce_events : string → T → option Watch * option os_Error
}.

(** [func (cl *Client) call(t *T) (r *R, err os.Error)] *)
Definition Client_call (env : conn_env) (s : session) (t : T)
  : option R * option os_Error :=
  match recv_c s with
  | None => (None, Some ErrNoAddrs)
  | Some c => ce_call env c t
  end.

(** One turn of the loop of [retry]: what the session serves before it
    hands out a connection, what the connection layer answers, and
    [c.err] as [retry] then finds it. *)
Record round : Type := mkRound {
  rd_events : list sess_event;
  rd_conn : conn_env;
  rd_err : option os_Error
}.

(** [func (cl *Client) retry(t *T) (r *R, err os.Error)]; [None] while
    it is still looping. *)
Fixpoint retry (s : session) (t : T) (rounds : list round)
  : option (option R * option os_Error) :=
  match rounds with
  | [] => None
  | rd :: rounds' =>
      match session_run s (rd_events rd) with
      | None => None
      | Some s' =>
          match recv_c s' with
          | None => Some (None, Some ErrNoAddrs)
          | Some c =>
              let res := ce_call (rd_conn rd) c t in
              match rd_err rd with
              | Some _ => retry s' t rounds'
              | None => Some res
              end
          end
      end
  end.

(** [Watch], [Getdir], [Walk]: fetch the connection, open the stream. *)
Definition Client_Watch (env : conn_env) (s : session) (glob : string) (from : Z)
  : option Watch * option os_Error :=
  match recv_c s with
  | None => (None, Some ErrNoAddrs)
  | Some c =>
      ce_events env c
        (mkT None (Some Request_WATCH) (Some glob) [] None (Some from) None None)
  end.

Definition Client_Getdir (env : conn_env) (s : session) (path : string)
    (offset limit : Z) (rev : option Z) : option Watch * option os_Error :=
  match recv_c s with
  | None => (None, Some ErrNoAddrs)
  | Some c =>
      ce_events env c
        (mkT None (Some Request_GETDIR) (Some path) [] None rev
             (Some offset) (Some limit))
  end.

Definition Client_Walk (env : conn_env) (s : session) (glob : string)
    (rev offset limit : option Z) : option Watch * option os_Error :=
  match recv_c s with
  | None => (None, Some ErrNoAddrs)
  | Some c =>
      ce_events env c
        (mkT None (Some Request_WALK) (Some glob) [] None rev offset limit)
  end.

(** The events the session has served by the end of some turns of
    [retry]. *)
Definition served (rounds : list round) : list sess_event :=
  concat (rd_events <$> rounds).

(** ** The operations of the client *)

(** [func (cl *Client) Set(path string, oldRev int64, body []byte)
    (newRev int64, err os.Error)].  Reading a field of a nil response
    panics. *)
Definition Client_Set (env : conn_env) (s : session) (path : string)
    (oldRev : Z) (body : list Z) : outcome (Z * option os_Error) :=
  match Client_call env s
          (mkT None (Some Request_SET) (Some path) body None (Some oldRev)
               None None) with
  | (_, Some err) => Returns (0%Z, Some err)
  | (Some r, None) => Returns (GetInt (R_Rev r), None)
  | (None, None) => Panics
  end.

(** [func (cl *Client) Get(path string, rev *int64) ([]byte, int64,
    os.Error)]; [None] while [retry] is still looping. *)
Definition Client_Get (s : session) (path : string) (rev : option Z)
    (rounds : list round) : option (outcome (list Z * Z * option os_Error)) :=
  match retry s (mkT None (Some Request_GET) (Some path) [] None rev None None)
          rounds with
  | None => None
  | Some (_, Some err) => Some (Returns ([], 0%Z, Some err))
  | Some (Some r, None) => Some (Returns (R_Value r, GetInt (R_Rev r), None))
  | Some (None, None) => Some Panics
  end.

(** [func (cl *Client) Rev() (int64, os.Error)]: [*r.Rev], which panics
    when the response has no rev. *)
Definition Client_Rev (s : session) (rounds : list round)
  : option (outcome (Z * option os_Error)) :=
  match retry s (mkT None (Some Request_REV) None [] None None None None)
          rounds with
  | None => None
  | Some (_, Some err) => Some (Returns (0%Z, Some err))
  | Some (Some r, None) =>
      match R_Rev r with
      | Some v => Some (Returns (v, None))
      | None => Some Panics
      end
  | Some (None, None) => Some Panics
  end.

(** [func (cl *Client) Del(path string, rev int64) os.Error] *)
Definition Client_Del (env : conn_env) (s : session) (path : string) (rev : Z)
  : option os_Error :=
  (Client_call env s
     (mkT None (Some Request_DEL) (Some path) [] None (Some rev) None None)).2.

(** [func (cl *Client) Stat(path string, rev *int64) (int32, int64,
    os.Error)] *)
Definition Client_Stat (s : session) (path : string) (rev : option Z)
    (rounds : list round) : option (outcome (Z * Z * option os_Error)) :=
  match retry s (mkT None (Some Request_STAT) (Some path) [] None rev None None)
          rounds with
  | None => None
  | Some (_, Some err) => Some (Returns (0%Z, 0%Z, Some err))
  | Some (Some r, None) =>
      Some (Returns (GetInt (R_Len r), GetInt (R_Rev r), None))
  | Some (None, None) => Some Panics
  end.

(** [func (cl *Client) Nop() os.Error] *)
Definition Client_Nop (env : conn_env) (s : session) : option os_Error :=
  (Client_call env s
     (mkT None (Some Request_NOP) None [] None None None None)).2.

(** What the connection layer hands back: a response without an error
    code, or an error. *)
Definition answer_ok (res : option R * option os_Error) : Prop :=
  match res with
  | (Some r, None) => R_ErrCode r = None
  | (None, Some _) => True
  | _ => False
  end.

(** ** monitorAddrs *)

(** [string(ev.Body)] *)
Definition string_of_bytes (bs : list Z) : string :=
  string_of_list_ascii ((λ b, Ascii.ascii_of_N (Z.to_N b)) <$> bs).

(** [addAddr := func(p, a string) { if len(a) > 0 { addrs[p] = a } }] *)
Definition addAddr (addrs : gmap string string) (p a : string)
  : gmap string string :=
  if (0 <? String.length a)%nat then <[p := a]> addrs else addrs.

(** The body of the cases of [walk.C] and [watch.C] (lines 436-446 and
    453-463): an event with a body puts the holder of a calendar slot
    into the pool, one without takes the last holder out. *)
Definition cal_case (addrs cal : gmap string string) (ev : Event)
  : gmap string string * sess_event :=
  if (0 <? length (Ev_Body ev))%nat then
    let sid := string_of_bytes (Ev_Body ev) in
    let path := ("/ctl/node/" ++ sid ++ "/addr")%string in
    let addr := default EmptyString (addrs !! path) in
    (<[Ev_Path ev := addr]> cal, SAdd addr)
  else
    let addr := default EmptyString (cal !! Ev_Path ev) in
    (delete (Ev_Path ev) cal, SRm addr).

(** The second loop (lines 418-465): the two maps, and which of the
    three streams it still listens to. *)
Record mon : Type := mkMon {
  mon_addrs : gmap string string;
  mon_cal : gmap string string;
  mon_watchAddr : bool;
  mon_walk : bool;
  mon_watch : bool
}.

Inductive mon_src : Type := SrcWatchAddr | SrcWalk | SrcWatch.

Definition mon_open (m : mon) (src : mon_src) : bool :=
  match src with
  | SrcWatchAddr => mon_watchAddr m
  | SrcWalk => mon_walk m
  | SrcWatch => mon_watch m
  end.

(** Line 419: the loop is left when the three channels are nil. *)
Definition mon_done (m : mon) : bool :=
  negb (mon_watchAddr m) && negb (mon_walk m) && negb (mon_watch m).

(** One turn of the [select]: the stream [src] yields an event, or nil
    when it is closed; the result is the state and what is sent to the
    session.  A case whose channel is nil is not taken. *)
Definition mon_step (m : mon) (src : mon_src) (ev : option Event)
  : option (mon * list sess_event) :=
  if mon_done m then None
  else if negb (mon_open m src) then None
  else
    match src, ev with
    | SrcWatchAddr, None =>
        Some (mkMon (mon_addrs m) (mon_cal m) false (mon_walk m) (mon_watch m), [])
    | SrcWalk, None =>
        Some (mkMon (mon_addrs m) (mon_cal m) (mon_watchAddr m) false (mon_watch m), [])
    | SrcWatch, None =>
        Some (mkMon (mon_addrs m) (mon_cal m) (mon_watchAddr m) (mon_walk m) false, [])
    | SrcWatchAddr, Some ev =>
        Some (mkMon (addAddr (mon_addrs m) (Ev_Path ev)
                       (string_of_bytes (Ev_Body ev)))
                (mon_cal m) (mon_watchAddr m) (mon_walk m) (mon_watch m), [])
    | _, Some ev =>
        let '(cal', out) := cal_case (mon_addrs m) (mon_cal m) ev in
        Some (mkMon (mon_addrs m) cal' (mon_watchAddr m) (mon_walk m)
                (mon_watch m), [out])
    end.

(** The first loop (lines 389-400), which gathers the addresses of the
    nodes: each turn of its [select] takes a value from [walkAddr.C] or
    from [watchAddr.C], nil when the channel is closed.  The case of
    [walkAddr.C] tests [closed] and leaves the loop; the case of
    [watchAddr.C] does not, and reads [ev.Path] of the nil event. *)
Inductive init_src : Type := InitWalk | InitWatch.

Fixpoint mon_init (addrs : gmap string string)
    (turns : list (init_src * option Event)) : outcome (gmap string string) :=
  match turns with
  | [] => Hangs
  | (InitWalk, None) :: _ => Returns addrs
  | (InitWatch, None) :: _ => Panics
  | (_, Some ev) :: turns' =>
      mon_init (addAddr addrs (Ev_Path ev) (string_of_bytes (Ev_Body ev))) turns'
  end.

(** The addresses learnt from some events, in their order. *)
Definition learn (addrs : gmap string string) (evs : list Event)
  : gmap string string :=
  foldl (λ a ev, addAddr a (Ev_Path ev) (string_of_bytes (Ev_Body ev))) addrs evs.

End Client.

(** * Sample runs *)

(** The examples below use the numbering [wire_codes]. *)

Definition write_ok : write_input :=
  mkWriteInput (inr [8; 1]%Z) None [(2%Z, None)].

Definition write_broken : write_input :=
  mkWriteInput (inr [8; 1]%Z) (Some (io_fail "broken pipe")) [].

Definition response (tag flags : Z) : R :=
  mkR (Some tag) (Some flags) (Some 7%Z) None [] None None None.

(** One unary call, answered by a frame with [Valid] and [Done]. *)
Definition sched_call : list action :=
  [ ActCall T_zero;
    ActStep 1 InNone; ActStep 1 InNone; ActStep 1 (InWrite write_ok);
    ActStep 0 (InRead (ReadFrame (response 0 3)));
    ActStep 0 InNone; ActStep 0 (InPartner 1); ActStep 0 InNone ].

(** The read loop has read the answer to the call and stands at its
    lookup. *)
Definition sched_lookup : list action :=
  [ ActCall T_zero;
    ActStep 1 InNone; ActStep 1 InNone; ActStep 1 (InWrite write_ok);
    ActStep 0 (InRead (ReadFrame (response 0 3))) ].



(** A response with a known error code and a detail. *)
Definition response_notdir : R :=
  mkR (Some 0%Z) (Some 3%Z) None None [] None
      (Some Response_NOTDIR) (Some "not a directory: /a").

Definition response_noent : R :=
  mkR (Some 0%Z) (Some 3%Z) None None [] None (Some Response_NOENT) None.

(** Two calls: the first is written and waits for its answer; the write
    of the second fails, which sets the error of the connection. *)
Definition sched_broken_write : list action :=
  [ ActCall T_zero;
    ActStep 1 InNone; ActStep 1 InNone; ActStep 1 (InWrite write_ok);
    ActCall T_zero;
    ActStep 2 InNone; ActStep 2 InNone; ActStep 2 (InWrite write_broken) ].

Definition w_broken : world :=
  default (dial_world "a") (run (dial_world "a") sched_broken_write).

Definition watch_request : T :=
  mkT None (Some Request_WATCH) (Some "/ctl/**") [] None (Some 0%Z) None None.

(** A streaming call receives one event; then the read of the next
    frame fails and the connection is torn down. *)
Definition sched_stream_torn_down : list action :=
  [ ActEvents watch_request;
    ActStep 1 InNone; ActStep 1 InNone; ActStep 1 (InWrite write_ok);
    ActStep 0 (InRead (ReadFrame (response 0 1)));
    ActStep 0 InNone; ActStep 0 (InPartner 2); ActStep 2 InNone;
    ActStep 0 (InRead (ReadSizeFails io_eof));
    ActStep 0 InNone; ActStep 0 InNone; ActStep 0 InNone;
    ActStep 2 InNone; ActStep 2 InNone ].

(** A streaming call is cancelled; while [cancel] waits for the answer
    to its CANCEL call, the read of the next frame fails and the
    connection is torn down. *)
Definition sched_cancel_torn_down : list action :=
  [ ActEvents watch_request;
    ActStep 1 InNone; ActStep 1 InNone; ActStep 1 (InWrite write_ok);
    ActCancel 1;
    ActStep 3 InNone;
    ActStep 3 InNone; ActStep 3 InNone; ActStep 3 (InWrite write_ok);
    ActStep 0 (InRead (ReadSizeFails io_eof));
    ActStep 0 InNone; ActStep 0 InNone;
    ActStep 3 InNone ].




(** No address can be dialled. *)
Definition env_down : dial_env := mkDialEnv (λ _, 0) (λ _, false).

(** Only ["b"] can be dialled. *)
Definition env_b : dial_env := mkDialEnv (λ _, 0) (λ x, bool_decide (x = "b")).

(** A unary call whose connection is torn down while it waits. *)
Definition sched_call_torn_down : list action :=
  [ ActCall T_zero;
    ActStep 1 InNone; ActStep 1 InNone; ActStep 1 (InWrite write_ok);
    ActStep 0 (InRead (ReadSizeFails io_eof));
    ActStep 0 InNone; ActStep 0 InNone;
    ActStep 1 InNone ].

Definition answers (res : option R * option os_Error) : conn_env :=
  mkConnEnv (λ _ _, res) (λ _ _, (None, Some EOF)).

(** The connection is lost during the call. *)
Definition round_lost : round :=
  mkRound [SGive] (answers (None, Some EOF)) (Some EOF).

(** The session notices, connects to ["b"], and the call succeeds. *)
Definition round_good : round :=
  mkRound [SClosed env_b; SGive] (answers (Some (response 0 3), None)) None.

(** The session notices, and no address can be dialled. *)
Definition round_down : round :=
  mkRound [SClosed env_down] (answers (None, Some EOF)) None.

(** A call has passed its check of the error field; then the read of a
    frame fails and the connection is torn down. *)
Definition sched_send_overtaken : list action :=
  [ ActCall T_zero; ActStep 1 InNone;
    ActStep 0 (InRead (ReadSizeFails io_eof));
    ActStep 0 InNone; ActStep 0 InNone ].

Definition w_overtaken : world :=
  default (dial_world "a") (run (dial_world "a") sched_send_overtaken).

(** A call waits for its answer; the read of a frame fails and the read
    loop is about to close the table. *)
Definition sched_before_teardown : list action :=
  [ ActCall T_zero;
    ActStep 1 InNone; ActStep 1 InNone; ActStep 1 (InWrite write_ok);
    ActStep 0 (InRead (ReadSizeFails io_eof)); ActStep 0 InNone ].

Definition w_before_teardown : world :=
  default (dial_world "a") (run (dial_world "a") sched_before_teardown).

(** The connection is torn down, the call has returned, and the read
    loop is about to send on [c.closed]. *)
Definition w_torn_down : world :=
  default (dial_world "a") (run (dial_world "a") sched_call_torn_down).

(** The read loop has looked up the answer to the call and is about to
    deliver it. *)
Definition sched_deliver : list action :=
  sched_lookup ++ [ActStep 0 InNone].

Definition w_deliver : world :=
  default (dial_world "a") (run (dial_world "a") sched_deliver).

(** A stream ends with a frame that has [Done] alone; then its Watch is
    cancelled. *)
Definition sched_cancel_late : list action :=
  [ ActEvents watch_request;
    ActStep 1 InNone; ActStep 1 InNone; ActStep 1 (InWrite write_ok);
    ActStep 0 (InRead (ReadFrame (response 0 2)));
    ActStep 0 InNone; ActStep 0 InNone;
    ActCancel 1 ].

Definition w_cancel_late : world :=
  default (dial_world "a") (run (dial_world "a") sched_cancel_late).

(** A REDIRECT response. *)
Definition response_redirect : R :=
  mkR (Some 0%Z) (Some 3%Z) None None [] None
      (Some Response_REDIRECT) (Some "10.0.0.2:8046").

Definition sched_redirect : list action :=
  [ ActStep 0 (InRead (ReadFrame response_redirect)); ActStep 0 InNone ].

Definition w_redirect : world :=
  default (dial_world "a") (run (dial_world "a") sched_redirect).

(** A connection whose next tag is the last of [int32], which is
    taken. *)
Definition conn_last_tag : conn :=
  mkConn "a" None 2147483647 (Some {[2147483647%Z := Some 0]})
         EmptyString false [].

(** A request that [pb.Marshal] refuses. *)
Definition write_unmarshalled : write_input :=
  mkWriteInput (inl "required field not set") None [].

(** What [monitorAddrs] knows after its first loop, and a calendar slot
    that is taken and given back. *)
Definition mon_start : mon :=
  mkMon {["/ctl/node/n1/addr" := "10.0.0.1:8046"]} ∅ true true true.

Definition slot_taken : Event :=
  mkEvent 5 "/ctl/cal/0" [110; 49]%Z 5 None.

Definition slot_vacated : Event :=
  mkEvent 6 "/ctl/cal/0" [] 9 None.

(** A slot taken by a node of which no address is known. *)
Definition slot_taken_unknown : Event :=
  mkEvent 5 "/ctl/cal/1" [110; 50]%Z 5 None.






(** The cancel of [sched_cancel_torn_down] has returned the error of its
    call. *)
Definition w_cancel_torn_down : world :=
  default (dial_world "a") (run (dial_world "a") sched_cancel_torn_down).

(** The length prefix of a frame is negative: [readR] panics, and the
    deferred [close] has made the table nil. *)
Definition sched_negative_size : list action :=
  [ ActStep 0 (InRead ReadSizeNegative); ActStep 0 InNone ].

Definition w_negative_size : world :=
  default (dial_world "a") (run (dial_world "a") sched_negative_size).

(** A [Write] that reports more bytes than it was given. *)
Definition write_overcount : write_input :=
  mkWriteInput (inr [8; 1]%Z) None [(3%Z, None)].

(** * The connection: properties *)

Section ConnFacts.
Context `{codes : !RespCodes}.

(** ** Facts about the atomic sections *)

Lemma wrap32_int32 z : is_int32 (wrap32 z).
Proof. unfold is_int32, wrap32. pose proof (Z.mod_pos_bound (z + 2^31) (2^32)). lia. Qed.

Lemma wrap32_id z : is_int32 z → wrap32 z = z.
Proof. unfold is_int32, wrap32. intros. rewrite Z.mod_small; lia. Qed.

Lemma wrap32_succ z k : wrap32 (wrap32 z + k) = wrap32 (z + k).
Proof.
  unfold wrap32.
  replace (((z + 2 ^ 31) `mod` 2 ^ 32 - 2 ^ 31 + k + 2 ^ 31))%Z
    with ((z + 2 ^ 31) `mod` 2 ^ 32 + k)%Z by lia.
  replace (z + k + 2^31)%Z with ((z + 2^31) + k)%Z by lia.
  by rewrite Zplus_mod_idemp_l.
Qed.

Lemma wrap32_ne n j : is_int32 n → (0 < j < 2 ^ 32)%Z → wrap32 (n + j) ≠ n.
Proof.
  unfold is_int32, wrap32. intros Hn Hj Heq.
  assert (((n + j + 2 ^ 31) `mod` 2 ^ 32) = n + 2^31)%Z as E by lia.
  pose proof (Z.div_mod (n + j + 2^31) (2^32)) as D.
  rewrite E in D.
  assert ((n + j + 2 ^ 31) `div` 2 ^ 32 = 0 ∨ (n + j + 2 ^ 31) `div` 2 ^ 32 ≠ 0)%Z as [Z0|Z0] by lia.
  - rewrite Z0 in D. lia.
  - nia.
Qed.

Lemma find_tag_free fuel m n tag :
  find_tag fuel m n = Some tag → m !! tag = None.
Proof.
  revert n. induction fuel as [|f IH]; intros n; simpl; [done|].
  destruct (m !! n) eqn:E; [apply IH|]. intros [= <-]. done.
Qed.

Lemma find_tag_int32 fuel m n tag :
  is_int32 n → find_tag fuel m n = Some tag → is_int32 tag.
Proof.
  revert n. induction fuel as [|f IH]; intros n Hn; simpl; [done|].
  destruct (m !! n) eqn:E.
  - apply IH, wrap32_int32.
  - by intros [= <-].
Qed.

Lemma find_tag_agree fuel (m1 m2 : gmap Z (option chan)) n :
  (∀ i : nat, i < fuel → m1 !! wrap32 (n + Z.of_nat i) = m2 !! wrap32 (n + Z.of_nat i)) →
  is_int32 n →
  find_tag fuel m1 n = find_tag fuel m2 n.
Proof.
  revert n. induction fuel as [|f IH]; intros n Hag Hn; simpl; [done|].
  pose proof (Hag 0%nat ltac:(lia)) as H0.
  rewrite Z.add_0_r, wrap32_id in H0 by done. rewrite <- H0.
  destruct (m1 !! n); [|done].
  apply IH; [|apply wrap32_int32].
  intros i Hi. rewrite !wrap32_succ.
  specialize (Hag (S i) ltac:(lia)).
  by replace (n + 1 + Z.of_nat i)%Z with (n + Z.of_nat (S i))%Z by lia.
Qed.

Lemma find_tag_total fuel m n :
  is_int32 n → size m < fuel → (Z.of_nat fuel ≤ 2 ^ 32)%Z →
  is_Some (find_tag fuel m n).
Proof.
  revert m n. induction fuel as [|f IH]; intros m n Hn Hsz Hf; [lia|].
  simpl. destruct (m !! n) as [v|] eqn:E; [|by eexists].
  rewrite (find_tag_agree f m (delete n m)).
  - apply IH; [apply wrap32_int32| |lia].
    rewrite map_size_delete, E. simpl.
    assert (size m ≠ 0) by (apply (map_size_ne_0_lookup_2 m n); by eexists). lia.
  - intros i Hi. rewrite wrap32_succ. rewrite lookup_delete_ne; [done|].
    intros Heq. symmetry in Heq. revert Heq.
    replace (n + 1 + Z.of_nat i)%Z with (n + (1 + Z.of_nat i))%Z by lia.
    apply wrap32_ne; [done|lia].
  - apply wrap32_int32.
Qed.

Lemma send_register_inv ch c tag c' :
  send_register ch c = Returns (tag, c') →
  ∃ m, conn_cb c = Some m ∧ m !! tag = None ∧
       c' = set_n_cb tag (Some (<[tag := Some ch]> m)) c.
Proof.
  unfold send_register. destruct (conn_cb c) as [m|]; [|done].
  destruct (find_tag _ _ _) as [tg|] eqn:E; [|done].
  intros [= <- <-]. exists m. split_and!; [done| |done].
  by eapply find_tag_free.
Qed.

Lemma cb_delete_inv cb tag cb' :
  cb_delete cb tag = Returns cb' → ∃ m, cb = Some m ∧ cb' = Some (delete tag m).
Proof. destruct cb; simpl; [|done]. intros [= <-]. eauto. Qed.

Lemma send_unregister_inv tag c c' :
  send_unregister tag c = Returns c' →
  ∃ m, conn_cb c = Some m ∧ c' = set_cb (Some (delete tag m)) c.
Proof.
  unfold send_unregister. destruct (cb_delete _ _) eqn:E; [|done..].
  intros [= <-]. apply cb_delete_inv in E as (m & -> & ->). eauto.
Qed.

Lemma cancel_release_inv tag c c' :
  cancel_release tag c = Returns c' →
  ∃ m, conn_cb c = Some m ∧ c' = set_cb (Some (delete tag m)) c.
Proof. apply send_unregister_inv. Qed.

Lemma cancel_reserve_inv tag cb c c' err :
  cancel_reserve tag cb c = Returns (c', err) →
  (err = Some ErrBadTag ∧ c' = c ∧ cb_lookup (conn_cb c) tag ≠ Some cb) ∨
  (err = None ∧ ∃ m, conn_cb c = Some m ∧ m !! tag = Some cb ∧
                  c' = set_cb (Some (<[tag := None]> m)) c).
Proof.
  unfold cancel_reserve. destruct (cb_lookup _ _) as [ch|] eqn:E.
  - case_bool_decide as Hd.
    + subst ch. destruct (conn_cb c) as [m|] eqn:Ec; simpl in *; [|done].
      intros [= <- <-]. right. split; [done|]. eauto.
    + intros [= <- <-]. left. split_and!; [done..|]. congruence.
  - intros [= <- <-]. left. done.
Qed.

Lemma read_lookup_inv r c c' to removed :
  read_lookup r c = Returns (c', to, removed) →
  let tag := GetInt (R_Tag r) in
  let found := cb_lookup (conn_cb c) tag in
  (found = Some None ∧ to = Dropped ∧ removed = false ∧ c' = c) ∨
  ((found = None ∧ to = Unexpected ∨ ∃ ch, found = Some (Some ch) ∧ to = ToSink ch) ∧
   ((has_flag (GetInt (R_Flags r)) Done = false ∧ removed = false ∧ c' = c) ∨
    (has_flag (GetInt (R_Flags r)) Done = true ∧ removed = true ∧
     ∃ m, conn_cb c = Some m ∧ c' = set_cb (Some (delete tag m)) c))).
Proof.
  unfold read_lookup. simpl.
  destruct (cb_lookup _ _) as [[ch|]|] eqn:E.
  - destruct (has_flag _ _).
    + destruct (cb_delete _ _) eqn:Ed; [|done..]. intros [= <- <- <-].
      apply cb_delete_inv in Ed as (m & ? & ->). right. split; eauto 10.
    + intros [= <- <- <-]. right. eauto 10.
  - intros [= <- <- <-]. by left.
  - destruct (has_flag _ _).
    + destruct (cb_delete _ _) eqn:Ed; [|done..]. intros [= <- <- <-].
      apply cb_delete_inv in Ed as (m & ? & ->). right. split; eauto 10.
    + intros [= <- <- <-]. right. eauto 10.
Qed.

Lemma note_redirect_cb r c : conn_cb (note_redirect r c) = conn_cb c.
Proof. unfold note_redirect. repeat case_match; done. Qed.

Lemma note_redirect_n r c : conn_n (note_redirect r c) = conn_n c.
Proof. unfold note_redirect. repeat case_match; done. Qed.

Lemma note_redirect_err r c : conn_err (note_redirect r c) = conn_err c.
Proof. unfold note_redirect. repeat case_match; done. Qed.

Lemma writeT_inv i c c' err wrote :
  writeT i c = Returns (c', err, wrote) →
  conn_cb c' = conn_cb c ∧ conn_n c' = conn_n c ∧
  (c' = c ∨ (conn_err c = None ∧ ∃ e, err = Some e ∧ c' = set_err (Some e) c ∧ wrote = true)) ∧
  (conn_err c ≠ None → wrote = false ∧ err = conn_err c ∧ c' = c).
Proof.
  unfold writeT. destruct (conn_err c) eqn:Ee.
  { intros [= <- <- <-]. naive_solver. }
  destruct (wr_marshal i); [intros [= <- <- <-]; naive_solver|].
  destruct (wr_len i); [intros [= <- <- <-]; naive_solver|].
  destruct (write_loop _ _) as [[e|]| |]; [| |done..]; intros [= <- <- <-];
    naive_solver.
Qed.

Lemma close_table_inv c closed c' closed' :
  close_table c closed = Returns (c', closed') → c' = set_cb None c.
Proof. unfold close_table. destruct (close_all _ _); [|done..]. by intros [= <- <-]. Qed.

(** ** Invariants of every run *)

Lemma before_nil e Q : before e [] Q.
Proof. intros [|??] ? ?; simplify_eq. Qed.

Lemma before_cons e e' tr Q :
  (e = e' → Q tr) → before e tr Q → before e (e' :: tr) Q.
Proof.
  intros Hq Hb [|x post] pre Heq; simplify_eq/=; [by apply Hq|].
  by eapply Hb.
Qed.

Lemma before_elem e tr Q : before e tr Q → e ∈ tr → ∃ pre, Q pre.
Proof.
  intros Hb (post & pre & ->)%list_elem_of_split. exists pre. by eapply Hb.
Qed.

Lemma wf_dial addr : wf (dial_world addr).
Proof.
  split; simpl.
  - unfold is_int32. lia.
  - set_solver.
  - set_solver.
  - intros ??? [= <-]. set_solver.
  - intros [|[|?]] th; simpl; intros; simplify_eq. done.
  - intros. apply before_nil.
  - intros. apply before_nil.
  - set_solver.
Qed.

Lemma thread_ok_mono cb tr cb' evs tid th :
  thread_ok cb tr tid th →
  (∀ ch tag, in_table cb' ch → EvRegister tag ch ∈ tr → in_table cb ch) →
  (is_reader th → rd_log (evs ++ tr) = rd_log tr) →
  thread_ok cb' (evs ++ tr) tid th.
Proof.
  intros [Hr Hth] Htab Hlog. split; [done|].
  destruct th; simpl in *; try done.
  - destruct Hth as (r & Hin & ->). exists r. split; [|done].
    apply elem_of_app. by right.
  - rewrite Hlog by done. done.
  - unfold removed_last. rewrite Hlog by done.
    destruct Hth as (Hreg & Hd). split; [apply elem_of_app; by right|].
    intros Hdone. destruct (Hd Hdone) as [Hn Hrm]. split; [|done].
    intros Hin. eapply Hn, Htab; eauto.
  - unfold removed_last, delivered_last. rewrite Hlog by done.
    destruct Hth as (Hreg & Hdone & Hn & Hlast).
    split_and!; [apply elem_of_app; by right|done| |done].
    intros Hin. eapply Hn, Htab; eauto.
Qed.

(** Case analysis on a step: one goal for each branch of [step] that
    yields a world, with the atomic sections inverted. *)
Ltac inv_sections :=
  repeat match goal with
  | H : send_register _ _ = Returns _ |- _ =>
      apply send_register_inv in H as (? & ? & ? & ->)
  | H : send_unregister _ _ = Returns _ |- _ =>
      apply send_unregister_inv in H as (? & ? & ->)
  | H : cancel_release _ _ = Returns _ |- _ =>
      apply cancel_release_inv in H as (? & ? & ->)
  | H : close_table _ _ = Returns _ |- _ =>
      apply close_table_inv in H as ->
  | H : writeT _ _ = Returns _ |- _ =>
      let Hcb := fresh "Hcb" in
      let Hn := fresh "Hn" in
      apply writeT_inv in H as (Hcb & Hn & ? & ?);
      rewrite ?Hcb, ?Hn in *
  | H : cancel_reserve _ _ _ = Returns _ |- _ =>
      apply cancel_reserve_inv in H as [(? & ? & ?)|(? & ? & ? & ? & ?)];
      simplify_eq
  | H : read_lookup _ _ = Returns _ |- _ =>
      apply read_lookup_inv in H as
        [(? & ? & ? & ?)
        |([(? & ?)|(? & ? & ?)] & [(? & ? & ?)|(? & ? & ? & ? & ?)])];
      simplify_eq
  end;
  rewrite ?note_redirect_cb, ?note_redirect_n, ?note_redirect_err in *.

Ltac inv_step H :=
  unfold step, step_thread, spawn, upd, upd_closed, crash in H;
  repeat (case_match; simplify_eq/=; try done);
  inv_sections.

Lemma send_register_int32 ch c tag c' :
  is_int32 (conn_n c) → send_register ch c = Returns (tag, c') → is_int32 tag.
Proof.
  unfold send_register. intros Hn. destruct (conn_cb c) as [m|]; [|done].
  destruct (find_tag _ _ _) as [tg|] eqn:E; [|done].
  intros [= <- <-]. by eapply find_tag_int32.
Qed.

Lemma step_wf_n w a w' :
  is_int32 (conn_n (w_conn w)) → step w a = Some w' →
  is_int32 (conn_n (w_conn w')).
Proof.
  intros Hn Hs.
  unfold step, step_thread, spawn, upd, upd_closed, crash in Hs;
  repeat (case_match; simplify_eq/=; try done).
  all: try match goal with
       | H : send_register _ _ = Returns _ |- _ =>
           pose proof (send_register_int32 _ _ _ _ Hn H) as Hi;
           apply send_register_inv in H as (? & ? & ? & ->); exact Hi
       end.
  all: inv_sections; simpl; congruence.
Qed.

Lemma step_reg_lt w a w' : wf w → step w a = Some w' →
  ∀ tag ch, EvRegister tag ch ∈ w_trace w' → ch < w_next w'.
Proof.
  intros Hwf Hs tag ch. pose proof (wf_reg_lt w Hwf tag ch) as Hold.
  inv_step Hs; rewrite ?elem_of_cons; intros; destruct_or?; simplify_eq;
    try (apply Hold; done); try lia.
  all: try (etrans; [apply Hold; done|lia]).
Qed.

Lemma step_reg_fun w a w' : wf w → step w a = Some w' →
  ∀ t1 t2 ch, EvRegister t1 ch ∈ w_trace w' → EvRegister t2 ch ∈ w_trace w' → t1 = t2.
Proof.
  intros Hwf Hs t1 t2 ch. pose proof (wf_reg_fun w Hwf t1 t2 ch) as Hold.
  inv_step Hs; rewrite ?elem_of_cons; intros; destruct_or?; simplify_eq;
    try (apply Hold; done).
  all: try done.
  all: match goal with
       | Hw : wf ?w0, Hm : EvRegister _ _ ∈ w_trace ?w0 |- _ =>
           apply (wf_reg_lt w0 Hw) in Hm; lia
       end.
Qed.

Lemma step_tab_reg w a w' : wf w → step w a = Some w' →
  ∀ m tag ch, conn_cb (w_conn w') = Some m → m !! tag = Some (Some ch) →
              EvRegister tag ch ∈ w_trace w'.
Proof.
  intros Hwf Hs m tag ch. pose proof (wf_tab_reg w Hwf) as Hold.
  inv_step Hs; simpl; intros; simplify_eq; rewrite ?elem_of_cons;
    try (by eauto 6).
  all: try match goal with
       | H : <[_:=_]> _ !! _ = Some _ |- _ =>
           apply lookup_insert_Some in H as [[??]|[??]]; simplify_eq
       | H : delete _ _ !! _ = Some _ |- _ =>
           apply lookup_delete_Some in H as [??]
       end; try (by eauto 8).
Qed.

Lemma rd_log_app evs tr : rd_log (evs ++ tr) = rd_log evs ++ rd_log tr.
Proof. apply filter_app. Qed.

Lemma in_table_insert_fresh m tag ch ch' (tr : list event) next :
  (∀ tg c, EvRegister tg c ∈ tr → c < next) →
  in_table (Some (<[tag := Some next]> m)) ch →
  EvRegister ch' ch ∈ tr → in_table (Some m) ch.
Proof.
  intros Hlt (m' & tg & [= <-] & Hl) Hreg.
  apply lookup_insert_Some in Hl as [[? ?]|[? Hl]]; simplify_eq.
  - apply Hlt in Hreg. lia.
  - by exists m, tg.
Qed.

Lemma in_table_insert_nil m tag ch :
  in_table (Some (<[tag := None]> m)) ch → in_table (Some m) ch.
Proof.
  intros (m' & tg & [= <-] & Hl).
  apply lookup_insert_Some in Hl as [[? ?]|[? Hl]]; simplify_eq.
  by exists m, tg.
Qed.

Lemma in_table_delete m tag ch :
  in_table (Some (delete tag m)) ch → in_table (Some m) ch.
Proof.
  intros (m' & tg & [= <-] & Hl).
  apply lookup_delete_Some in Hl as [? Hl]. by exists m, tg.
Qed.

Lemma in_table_nil ch : ¬ in_table None ch.
Proof. by intros (? & ? & ? & ?). Qed.

(** The goroutines after a step of goroutine [tid]: the others keep what
    held of them. *)
Lemma threads_step cb tr cb' evs tr' (l : list thread) tid th0 th' :
  tr' = evs ++ tr →
  (∀ i t, l !! i = Some t → thread_ok cb tr i t) →
  l !! tid = Some th0 →
  (∀ ch tag, in_table cb' ch → EvRegister tag ch ∈ tr → in_table cb ch) →
  (is_reader th0 = false → rd_log evs = []) →
  thread_ok cb' tr' tid th' →
  ∀ i t, <[tid := th']> l !! i = Some t → thread_ok cb' tr' i t.
Proof.
  intros -> Hall Htid Htab Hev Hnew i t Hl.
  apply list_lookup_insert_Some in Hl as [(-> & <- & _)|(Hne & Hl)]; [done|].
  eapply thread_ok_mono; [by apply Hall|done|].
  intros Hrd. rewrite rd_log_app.
  destruct (is_reader th0) eqn:E; [|by rewrite Hev].
  destruct (Hall _ _ Htid) as [H0 _]. destruct (Hall _ _ Hl) as [H1 _].
  rewrite H0 in Hne by by rewrite E. rewrite H1 in Hne by done. done.
Qed.

Lemma threads_spawn cb tr (l : list thread) th :
  (∀ i t, l !! i = Some t → thread_ok cb tr i t) →
  thread_ok cb tr (length l) th →
  ∀ i t, (l ++ [th]) !! i = Some t → thread_ok cb tr i t.
Proof.
  intros Hall Hnew i t Hl.
  apply lookup_app_Some in Hl as [Hl|[Hge Hl]]; [by apply Hall|].
  apply list_lookup_singleton_Some in Hl as [Hi <-].
  by replace i with (length l) by lia.
Qed.

Lemma thread_ok_send_failed cb tr tid k e : thread_ok cb tr tid (send_failed k e).
Proof. by destruct k as [[|??]|]. Qed.

Lemma thread_ok_call_return cb tr tid who r : thread_ok cb tr tid (call_return who r).
Proof. unfold call_return. by repeat case_match. Qed.

Lemma readR_inr i r : readR i = Returns (inr r) → i = ReadFrame r.
Proof. destruct i; simpl; congruence. Qed.

Ltac thr_step :=
  first [ eapply (threads_step _ (w_trace _) _ []); [reflexivity|..]
        | eapply (threads_step _ (w_trace _) _ [_]); [reflexivity|..]
        | eapply (threads_step _ (w_trace _) _ [_; _]); [reflexivity|..] ];
  [ eassumption | eassumption | | by (intros ?; first [done | reflexivity]) | ].

Ltac tab_side :=
  try match goal with
      | Hc : conn_cb (w_conn ?w) = Some _ |- _ => rewrite Hc
      end;
  first [ by (intros; assumption)
        | by (intros ? ? ?%in_table_delete ?)
        | by (intros ? ? ?%in_table_insert_nil ?)
        | by (intros ? ? []%in_table_nil ?)
        | by (intros; eapply in_table_insert_fresh; eauto using wf_reg_lt) ].

Lemma threads_step2 cb tr evs tr' (l : list thread) tid th0 th' p pth' :
  tr' = evs ++ tr →
  (∀ i t, l !! i = Some t → thread_ok cb tr i t) →
  l !! tid = Some th0 → is_reader th0 = true →
  thread_ok cb tr' tid th' →
  thread_ok cb tr' p pth' →
  ∀ i t, <[tid := th']> (<[p := pth']> l) !! i = Some t → thread_ok cb tr' i t.
Proof.
  intros -> Hall Htid Hrd Hnew Hp i t Hl.
  apply list_lookup_insert_Some in Hl as [(-> & <- & _)|(Hne & Hl)]; [done|].
  apply list_lookup_insert_Some in Hl as [(-> & <- & _)|(Hne' & Hl)]; [done|].
  eapply thread_ok_mono; [by apply Hall|done|].
  intros Hrd'. destruct (Hall _ _ Htid) as [H0 _]. destruct (Hall _ _ Hl) as [H1 _].
  rewrite H0 in Hne by by rewrite Hrd. rewrite H1 in Hne by done. done.
Qed.

Lemma rd_log_cons e tr :
  rd_log (e :: tr) = if rd_ev e then e :: rd_log tr else rd_log tr.
Proof. unfold rd_log. rewrite filter_cons. by destruct (rd_ev e). Qed.

Lemma thread_ok_receive cb tr p th ch r th' :
  receive th ch r = Some th' → thread_ok cb (EvDeliver ch r :: tr) p th'.
Proof.
  destruct th; simpl; try done; case_bool_decide; intros; simplify_eq.
  - apply thread_ok_call_return.
  - split; [done|]. simpl. exists r. split; [left|done].
Qed.

(** No two tags of the table lead to one channel. *)
Lemma wf_table_inj w m t1 t2 ch :
  wf w → conn_cb (w_conn w) = Some m →
  m !! t1 = Some (Some ch) → m !! t2 = Some (Some ch) → t1 = t2.
Proof.
  intros Hwf Hm H1 H2. eapply (wf_reg_fun w Hwf); eapply wf_tab_reg; eauto.
Qed.

Lemma removed_not_in_table w m tag ch :
  wf w → conn_cb (w_conn w) = Some m → m !! tag = Some (Some ch) →
  ¬ in_table (Some (delete tag m)) ch.
Proof.
  intros Hwf Hm Hl (m' & tg & [= <-] & Hd).
  apply lookup_delete_Some in Hd as [Hne Hd].
  apply Hne. by eapply wf_table_inj.
Qed.

Lemma step_threads w a w' : wf w → step w a = Some w' →
  ∀ tid th, w_threads w' !! tid = Some th →
            thread_ok (conn_cb (w_conn w')) (w_trace w') tid th.
Proof.
  intros Hwf Hs. pose proof (wf_threads w Hwf) as Hold.
  inv_step Hs; simpl.
  all: try exact Hold.
  all: try (apply threads_spawn; [exact Hold|done]).
  all: try (apply threads_spawn; [|done]).
  all: try (thr_step; [tab_side|]).
  all: try apply thread_ok_send_failed.
  all: try apply thread_ok_call_return.
  all: try done.
  all: try match goal with
       | Ht : w_threads ?w !! ?tid = Some ?th0 |- thread_ok _ _ ?tid _ =>
           let Hz := fresh "Hz" in let Hth := fresh "Hth" in
           destruct (Hold _ _ Ht) as [Hz Hth]; simpl in Hz, Hth;
           split; [intros _; by apply Hz|]; simpl
       end.
  all: try done.
  all: try congruence.
  all: try match goal with
       | Hr : readR _ = Returns (inr _) |- _ =>
           apply readR_inr in Hr as ->; rewrite rd_log_cons; simpl; by eauto
       end.
  all: unfold is_done, removed_last, delivered_last, tagof in *.
  all: try match goal with
       | Hl : cb_lookup (conn_cb (w_conn ?w)) _ = Some (Some _),
         Hc : conn_cb (w_conn ?w) = Some _,
         Hlog : ∃ rest, rd_log _ = _ |- _ =>
           unfold cb_lookup in Hl; rewrite Hc in Hl;
           destruct Hlog as [rest Hrest];
           rewrite rd_log_cons, Hrest; simpl;
           split_and?; [apply elem_of_cons; right; by eapply wf_tab_reg| ..];
           try (intros _; split);
           first [ by eapply removed_not_in_table | by eauto | by rewrite Is_true_true ]
       end.
  all: try match goal with
       | Hl : cb_lookup (conn_cb (w_conn ?w)) _ = Some (Some _),
         Hd : has_flag _ Done = false |- _ =>
           rewrite Hd; split; [|done];
           unfold cb_lookup in Hl; destruct (conn_cb (w_conn w)) eqn:Hc; [|done];
           by eapply wf_tab_reg
       end.
  all: eapply (threads_step2 _ (w_trace _) [_]);
    [reflexivity|eassumption|eassumption|done| |by eapply thread_ok_receive].
  all: destruct (Hold _ _ H0) as [Hz (Hreg & Hd)]; simpl in Hz.
  all: split; [intros _; by apply Hz|]; simpl.
  - assert (Hdone : Is_true (has_flag (GetInt (R_Flags r)) Done)) by by rewrite H4.
    destruct (Hd Hdone) as [Hn [rest Hrest]].
    split_and!; [by apply elem_of_cons; right|done|done|].
    right. exists rest. by rewrite rd_log_cons, Hrest.
  - done.
Qed.

Lemma step_deliver w a w' : wf w → step w a = Some w' →
  ∀ ch r, before (EvDeliver ch r) (w_trace w') (λ pre,
    EvRegister (tagof r) ch ∈ pre ∧ (is_done r → removed_last r pre)).
Proof.
  intros Hwf Hs ch r. pose proof (wf_deliver w Hwf ch r) as Hold.
  pose proof (wf_threads w Hwf) as Hthr.
  inv_step Hs; simpl; try done.
  all: repeat (apply before_cons; [intros ?; simplify_eq|]); try done.
  all: match goal with
       | Ht : w_threads _ !! _ = Some (RdDeliver _ _) |- _ =>
           destruct (Hthr _ _ Ht) as [_ [Hreg Hd]]
       end; split; [done|]; intros Hdone; by destruct (Hd Hdone).
Qed.

Lemma step_close w a w' : wf w → step w a = Some w' →
  ∀ ch, before (EvClose ByReader ch) (w_trace w') (λ pre,
    ∃ r, is_done r ∧ (removed_last r pre ∨ delivered_last ch r pre)).
Proof.
  intros Hwf Hs ch. pose proof (wf_close w Hwf ch) as Hold.
  pose proof (wf_threads w Hwf) as Hthr.
  inv_step Hs; simpl; try done.
  all: repeat (apply before_cons; [intros ?; simplify_eq|]); try done.
  all: match goal with
       | Ht : w_threads _ !! _ = Some (RdClose _ _) |- _ =>
           destruct (Hthr _ _ Ht) as [_ (Hreg & Hdone & _ & Hlast)]
       end; by eauto.
Qed.

Lemma step_emit w a w' : wf w → step w a = Some w' →
  ∀ evs ev, EvEmit evs ev ∈ w_trace w' →
            ∃ ch r, EvDeliver ch r ∈ w_trace w' ∧ ev = event_of r.
Proof.
  intros Hwf Hs evs ev. pose proof (wf_emit w Hwf evs ev) as Hold.
  pose proof (wf_threads w Hwf) as Hthr.
  inv_step Hs; simpl; try done.
  all: rewrite ?elem_of_cons; intros; destruct_or?; simplify_eq.
  all: try (destruct Hold as (ch' & r' & Hin & ->); [done|];
            exists ch', r'; split; [|done]; rewrite ?elem_of_cons; by eauto).
  all: match goal with
       | Ht : w_threads _ !! _ = Some (FwdSend _ _ _) |- _ =>
           destruct (Hthr _ _ Ht) as [_ (r' & Hin & ->)]
       end; eexists _, r'; split; [|done]; rewrite ?elem_of_cons; by eauto.
Qed.

Lemma step_wf w a w' : wf w → step w a = Some w' → wf w'.
Proof.
  intros Hwf Hs. split.
  - eapply step_wf_n; [apply Hwf|done].
  - by eapply step_reg_lt.
  - by eapply step_reg_fun.
  - by eapply step_tab_reg.
  - by eapply step_threads.
  - by eapply step_deliver.
  - by eapply step_close.
  - by eapply step_emit.
Qed.

Lemma run_wf sched w w' : wf w → run w sched = Some w' → wf w'.
Proof.
  revert w. induction sched as [|a sched IH]; intros w Hwf; simpl.
  - by intros [= <-].
  - destruct (step w a) as [w1|] eqn:Hs; [|done].
    apply IH. by eapply step_wf.
Qed.

(** Every world reached from a fresh connection is well formed. *)
Lemma reachable_wf addr sched w :
  run (dial_world addr) sched = Some w → wf w.
Proof. apply run_wf, wf_dial. Qed.

Lemma threads_insert_prop (P : nat → thread → Prop) (l : list thread) tid th' :
  (∀ i t, l !! i = Some t → P i t) →
  P tid th' →
  ∀ i t, <[tid := th']> l !! i = Some t → P i t.
Proof.
  intros Hall Hnew i t Hl.
  apply list_lookup_insert_Some in Hl as [(-> & <- & _)|(Hne & Hl)]; eauto.
Qed.

Lemma threads_app_prop (P : nat → thread → Prop) (l : list thread) th' :
  (∀ i t, l !! i = Some t → P i t) →
  (∀ i, P i th') →
  ∀ i t, (l ++ [th']) !! i = Some t → P i t.
Proof.
  intros Hall Hnew i t Hl.
  apply lookup_app_Some in Hl as [Hl|[_ Hl]]; [eauto|].
  apply list_lookup_singleton_Some in Hl as [_ <-]. done.
Qed.

Lemma threads_insert_others (P : nat → thread → Prop) (l : list thread) tid th' :
  (∀ i t, l !! i = Some t → i ≠ tid → P i t) →
  P tid th' →
  ∀ i t, <[tid := th']> l !! i = Some t → P i t.
Proof.
  intros Hall Hnew i t Hl.
  apply list_lookup_insert_Some in Hl as [(-> & <- & _)|(Hne & Hl)]; eauto.
Qed.

Lemma step_table_alive w a w' :
  wf w → table_alive w → step w a = Some w' → table_alive w'.
Proof.
  intros Hwf Halive Hs. pose proof (wf_threads w Hwf) as Hthr.
  unfold table_alive in *.
  inv_step Hs; simpl; try done.
  all: intros Hnone; try specialize (Halive Hnone).
  all: try match goal with
       | Ht : w_threads _ !! _ = Some ?th0 |- _ =>
           lazymatch th0 with
           | RdTeardown => fail
           | RdPanicTeardown => fail
           | _ => by destruct (Halive _ _ Ht ltac:(done))
           end
       end.
  all: repeat first
         [ apply (threads_app_prop
                    (λ _ th, is_reader th → th = RdNotify ∨ th = RdPanicNotify));
           [|done]
         | apply (threads_insert_prop
                    (λ _ th, is_reader th → th = RdNotify ∨ th = RdPanicNotify));
           [by eauto|] ].
  all: try (exact Halive).
  all: try done.
  all: try (by destruct k as [[|??]|]).
  all: try (unfold call_return; by repeat case_match).
  all: try match goal with
       | Hr : receive ?t _ _ = Some _ |- _ =>
           destruct t; simpl in Hr; try done; case_bool_decide; simplify_eq;
           try done; unfold call_return; by repeat case_match
       end.
  all: try (intros _; by eauto).
  all: apply (threads_insert_others
                (λ _ th, is_reader th → th = RdNotify ∨ th = RdPanicNotify));
    [|by eauto].
  all: intros i t Hl Hne Hrd.
  all: match goal with
       | Ht : w_threads _ !! ?tid = Some _ |- _ =>
           destruct (Hthr _ _ Ht) as [Hz _]; destruct (Hthr _ _ Hl) as [Hz' _];
           rewrite Hz in Hne by done; rewrite Hz' in Hne by done; done
       end.
Qed.

Lemma reachable_table_alive addr sched w :
  run (dial_world addr) sched = Some w → table_alive w.
Proof.
  assert (∀ sched w0 w, wf w0 → table_alive w0 → run w0 sched = Some w →
                        table_alive w) as Hgen.
  { clear. intros sched0. induction sched0 as [|a sched0 IH];
      intros w0 w1 Hwf Ha; simpl.
    - by intros [= <-].
    - destruct (step w0 a) as [w2|] eqn:Hs; [|done].
      apply IH; [by eapply step_wf|by eapply step_table_alive]. }
  apply Hgen; [apply wf_dial|]. by intros ?.
Qed.

(** ** Allocation of tags *)

Lemma send_register_total ch c m :
  conn_cb c = Some m → is_int32 (conn_n c) → (Z.of_nat (size m) < 2 ^ 32)%Z →
  ∃ tag, send_register ch c
         = Returns (tag, set_n_cb tag (Some (<[tag := Some ch]> m)) c).
Proof.
  intros Hm Hn Hsz. unfold send_register. rewrite Hm.
  destruct (find_tag_total (S (size m)) m (conn_n c)) as [tag ->]; [done|lia|lia|].
  by exists tag.
Qed.

(** A step never puts another channel in the place of an open entry. *)
Lemma step_keeps_owner w a w' m m' tag ch ch' :
  step w a = Some w' →
  conn_cb (w_conn w) = Some m → conn_cb (w_conn w') = Some m' →
  m !! tag = Some (Some ch) → m' !! tag = Some (Some ch') → ch' = ch.
Proof.
  intros Hs Hm Hm' Hl Hl'.
  inv_step Hs; simpl in *; simplify_eq; try congruence.
  all: try match goal with
       | H : <[_:=_]> _ !! _ = Some _ |- _ =>
           apply lookup_insert_Some in H as [[??]|[??]]; simplify_eq
       | H : delete _ _ !! _ = Some _ |- _ =>
           apply lookup_delete_Some in H as [??]
       end; congruence.
Qed.

(** C1.  In every run of a connection: the step of [send] that registers
    its channel puts it under a tag the table does not map at that
    moment, neither to a channel nor to nil, and that step can be taken
    unless the table holds every tag; no step replaces the channel of an
    open tag by another one and no two tags lead to one channel, so a
    tag is open for one call at a time; and whenever a response has been
    delivered to a channel, that channel was registered under the tag of
    the response and under no other tag. *)
Theorem send_registers_unmapped_tag addr sched w :
  run (dial_world addr) sched = Some w →
  (∀ tid k t inp w',
     w_threads w !! tid = Some (SendAlloc k t) →
     step w (ActStep tid inp) = Some w' → w_panic w' = false →
     ∃ m tag ch,
       conn_cb (w_conn w) = Some m ∧ m !! tag = None ∧ ¬ in_table (Some m) ch ∧
       conn_cb (w_conn w') = Some (<[tag := Some ch]> m) ∧
       w_threads w' !! tid = Some (SendWrite k (T_set_Tag t tag) tag ch) ∧
       w_trace w' = EvRegister tag ch :: w_trace w) ∧
  (∀ tid k t m,
     w_threads w !! tid = Some (SendAlloc k t) → w_panic w = false →
     conn_cb (w_conn w) = Some m → (Z.of_nat (size m) < 2 ^ 32)%Z →
     ∃ w', step w (ActStep tid InNone) = Some w' ∧ w_panic w' = false) ∧
  (∀ a w' m m' tag ch ch',
     step w a = Some w' →
     conn_cb (w_conn w) = Some m → conn_cb (w_conn w') = Some m' →
     m !! tag = Some (Some ch) → m' !! tag = Some (Some ch') → ch' = ch) ∧
  (∀ m t1 t2 ch,
     conn_cb (w_conn w) = Some m →
     m !! t1 = Some (Some ch) → m !! t2 = Some (Some ch) → t1 = t2) ∧
  (∀ ch r,
     EvDeliver ch r ∈ w_trace w →
     EvRegister (tagof r) ch ∈ w_trace w ∧
     ∀ tag, EvRegister tag ch ∈ w_trace w → tag = tagof r).
Proof.
  intros Hrun. pose proof (reachable_wf _ _ _ Hrun) as Hwf.
  split_and!.
  - intros tid k t inp w' Hth Hs Hp.
    unfold step in Hs. destruct (w_panic w); [done|]. rewrite Hth in Hs. simpl in Hs.
    destruct (send_register _ _) as [[tag c']| |] eqn:Hreg; simplify_eq/=.
    apply send_register_inv in Hreg as (m & Hm & Hfree & ->).
    exists m, tag, (w_next w). split_and!; try done.
    + intros (m' & tg & [= <-] & Hl).
      pose proof (wf_tab_reg w Hwf _ _ _ Hm Hl) as Hreg.
      apply (wf_reg_lt w Hwf) in Hreg. lia.
    + apply list_lookup_insert_eq. by eapply lookup_lt_Some.
  - intros tid k t m Hth Hp Hm Hsz.
    destruct (send_register_total (w_next w) (w_conn w) m) as [tag Hreg];
      [done|apply Hwf|done|].
    unfold step. rewrite Hp, Hth. simpl. rewrite Hreg. by eexists.
  - intros. by eapply step_keeps_owner.
  - intros. by eapply wf_table_inj.
  - intros ch r Hin.
    destruct (before_elem _ _ _ (wf_deliver w Hwf ch r) Hin) as (pre & Hreg & _).
    apply list_elem_of_split in Hin as (post & pre' & Htr).
    destruct (wf_deliver w Hwf ch r post pre' Htr) as [Hreg' _].
    assert (EvRegister (tagof r) ch ∈ w_trace w) as Hr.
    { rewrite Htr. apply elem_of_app. right. by apply elem_of_cons; right. }
    split; [done|]. intros tag Htag. by eapply (wf_reg_fun w Hwf).
Qed.

(** ** The read loop *)

(** C3.  In every run of a connection: when the read loop looks up a
    frame that has the [Done] flag and whose tag leads to a channel, the
    section under [cblk] takes the tag out of the table while nothing
    has been sent on or done to the channel yet; whenever the read loop
    is about to deliver such a frame, or to close the channel, the
    channel is no entry of the table any more; and in the log every
    delivery of a [Done] frame, and every close by the read loop, comes
    after the removal of the tag of that same frame. *)
Theorem done_tag_removed_before_delivery addr sched w :
  run (dial_world addr) sched = Some w →
  (∀ tid r m ch inp w',
     w_threads w !! tid = Some (RdLookup r) →
     conn_cb (w_conn w) = Some m → m !! tagof r = Some (Some ch) →
     is_done r →
     step w (ActStep tid inp) = Some w' →
     conn_cb (w_conn w') = Some (delete (tagof r) m) ∧
     w_trace w' = EvRemove (tagof r) :: w_trace w ∧
     w_closed w' = w_closed w ∧
     w_threads w' !! tid
       = Some (if is_valid r then RdDeliver ch r else RdClose ch r)) ∧
  (∀ tid ch r,
     w_threads w !! tid = Some (RdDeliver ch r) → is_done r →
     ¬ in_table (conn_cb (w_conn w)) ch ∧ removed_last r (w_trace w)) ∧
  (∀ tid ch r,
     w_threads w !! tid = Some (RdClose ch r) →
     is_done r ∧ ¬ in_table (conn_cb (w_conn w)) ch ∧
     (removed_last r (w_trace w) ∨ delivered_last ch r (w_trace w))) ∧
  (∀ ch r,
     is_done r →
     before (EvDeliver ch r) (w_trace w) (removed_last r)) ∧
  (∀ ch,
     before (EvClose ByReader ch) (w_trace w) (λ pre,
       ∃ r, is_done r ∧ (removed_last r pre ∨ delivered_last ch r pre))).
Proof.
  intros Hrun. pose proof (reachable_wf _ _ _ Hrun) as Hwf.
  split_and!.
  - intros tid r m ch inp w' Hth Hm Hl Hdone Hs.
    unfold step in Hs. destruct (w_panic w); [done|]. rewrite Hth in Hs.
    unfold step_thread, read_lookup, cb_lookup, tagof, is_done, is_valid in *.
    rewrite Hm in Hs. simpl in Hs. rewrite Hl in Hs.
    apply Is_true_true in Hdone. rewrite Hdone in Hs.
    assert (tid < length (w_threads w)) by by eapply lookup_lt_Some.
    destruct (has_flag _ Valid); simplify_eq/=;
      by rewrite list_lookup_insert_eq.
  - intros tid ch r Hth Hdone.
    destruct (wf_threads w Hwf _ _ Hth) as [_ [_ Hd]]. by apply Hd.
  - intros tid ch r Hth.
    destruct (wf_threads w Hwf _ _ Hth) as [_ (_ & ? & ? & ?)]. done.
  - intros ch r Hdone post pre Htr.
    destruct (wf_deliver w Hwf ch r post pre Htr) as [_ Hd]. by apply Hd.
  - apply Hwf.
Qed.


(** ** send *)

(** ** The error of a response *)

Lemma errs_known c e :
  (c, e) ∈ [ (Response_NOTDIR, ENOTDIR); (Response_ISDIR, EISDIR);
             (Response_NOENT, ENOENT); (Response_REV_MISMATCH, ErrOldRev);
             (Response_TOO_LATE, ErrTooLate) ] →
  errs !! c = Some e.
Proof.
  intros Hin. unfold errs. apply elem_of_list_to_map_1; [|done].
  apply errs_keys_NoDup.
Qed.

Lemma errs_unknown c :
  c ∉ [Response_NOTDIR; Response_ISDIR; Response_NOENT;
       Response_REV_MISMATCH; Response_TOO_LATE] →
  errs !! c = None.
Proof. intros Hin. unfold errs. by apply not_elem_of_list_to_map_1. Qed.

(** C5, as the code has it.  What a unary call returns once its channel
    has yielded [r]: the end-of-stream error when the channel was closed
    without a delivery; for a response with an error code and a detail,
    whatever the code, the generic error that carries both; for one with
    an error code and no detail, the typed error when the code is one of
    the five known ones and the generic error with an empty detail
    otherwise; and the response itself when it has no error code. *)
Theorem call_error_of_response (r : R) :
  call_return Direct None = Finished (RCall None (Some EOF)) ∧
  (∀ c d,
     R_ErrCode r = Some c → R_ErrDetail r = Some d →
     call_return Direct (Some r) = Finished (RCall None (Some (Error c d)))) ∧
  (∀ c e,
     R_ErrCode r = Some c → R_ErrDetail r = None →
     (c, e) ∈ [ (Response_NOTDIR, ENOTDIR); (Response_ISDIR, EISDIR);
                (Response_NOENT, ENOENT); (Response_REV_MISMATCH, ErrOldRev);
                (Response_TOO_LATE, ErrTooLate) ] →
     call_return Direct (Some r) = Finished (RCall None (Some e))) ∧
  (∀ c,
     R_ErrCode r = Some c → R_ErrDetail r = None →
     c ∉ [Response_NOTDIR; Response_ISDIR; Response_NOENT;
          Response_REV_MISMATCH; Response_TOO_LATE] →
     call_return Direct (Some r)
       = Finished (RCall None (Some (Error c EmptyString)))) ∧
  (R_ErrCode r = None →
   call_return Direct (Some r) = Finished (RCall (Some r) None)).
Proof.
  unfold call_return, R_err. split_and!.
  - done.
  - by intros c d -> ->.
  - intros c e -> -> Hin. by rewrite (errs_known c e Hin).
  - intros c -> -> Hin. by rewrite (errs_unknown c Hin).
  - by intros ->.
Qed.

(** ** The sticky error *)

(** Lines 137-139: with the error set, [writeT] returns it and writes
    nothing. *)
Lemma writeT_sticky i c e c' err wrote :
  conn_err c = Some e → writeT i c = Returns (c', err, wrote) →
  c' = c ∧ err = Some e ∧ wrote = false.
Proof. unfold writeT. intros ->. by intros [= <- <- <-]. Qed.

Ltac not_in_small :=
  let Hin := fresh "Hin" in
  intros ? Hin;
  repeat (apply elem_of_cons in Hin as [Hin|Hin]; [done|]);
  by apply elem_of_nil in Hin.

Lemma step_sticky w a w' e :
  conn_err (w_conn w) = Some e → step w a = Some w' →
  conn_err (w_conn w') = Some e ∧
  ∃ evs, w_trace w' = evs ++ w_trace w ∧ (∀ t, EvWrite t ∉ evs) ∧
         (reading_over w → reading_over w' ∧ ∀ i, EvRead i ∉ evs).
Proof.
  intros He Hs.
  unfold step, step_thread, spawn, upd, upd_closed, crash in Hs.
  repeat (case_match; simplify_eq/=; try done).
  all: repeat match goal with
       | H : writeT _ _ = Returns _ |- _ =>
           apply (writeT_sticky _ _ _ _ _ _ He) in H as (-> & ? & ?);
           simplify_eq
       end.
  all: inv_sections; simpl; rewrite ?note_redirect_err.
  all: split; [done|].
  all: try (exists []; split; [done|]; split; [not_in_small|]).
  all: try (eexists [_]; split; [done|]; split; [not_in_small|]).
  all: try (eexists [_; _]; split; [done|]; split; [not_in_small|]).
  all: intros Hover.
  all: try match goal with
       | Ht : w_threads _ !! _ = Some ?th |- _ =>
           lazymatch th with
           | RdRead => by destruct (Hover _ _ Ht)
           | RdLookup _ => by destruct (Hover _ _ Ht)
           | RdDeliver _ _ => by destruct (Hover _ _ Ht)
           | RdClose _ _ => by destruct (Hover _ _ Ht)
           end
       end.
  all: (split; [|not_in_small]).
  all: unfold reading_over; simpl; intros ? ? Hl.
  all: repeat match goal with
       | Hl : (_ ++ [_]) !! _ = Some _ |- _ =>
           apply lookup_app_Some in Hl as [Hl|[_ Hl]];
           [|apply list_lookup_singleton_Some in Hl as [_ <-]; done]
       | Hl : <[_:=_]> _ !! _ = Some _ |- _ =>
           apply list_lookup_insert_Some in Hl as [(-> & <- & _)|(_ & Hl)]
       end.
  all: try (by eapply Hover).
  all: try done.
  all: try (by destruct k as [[|??]|]).
  all: try (unfold call_return; by repeat case_match).
Qed.

(** C6, as the code has it.  Once the error field of a connection is
    set, it keeps its value for ever, no frame is written to the byte
    stream any more, and every [send] that starts afterwards (for
    [call], for [events], for the call made by [cancel]) returns that
    error at once, touching neither the table nor the byte stream.
    Frames are read until a read fails: the read loop does not look at
    the field before it reads, so an error left by a failed write does
    not stop it; once the read loop has left its loop, no frame is read
    any more. *)
Theorem sticky_error_stops_writes w e sched w' :
  conn_err (w_conn w) = Some e →
  run w sched = Some w' →
  conn_err (w_conn w') = Some e ∧
  (∃ evs, w_trace w' = evs ++ w_trace w ∧ (∀ t, EvWrite t ∉ evs) ∧
          (reading_over w → reading_over w' ∧ ∀ i, EvRead i ∉ evs)) ∧
  (∀ tid k t inp,
     w_panic w' = false → w_threads w' !! tid = Some (SendCheck k t) →
     step w' (ActStep tid inp)
     = Some (mkWorld (w_conn w') (w_next w') (w_closed w')
               (<[tid := send_failed k e]> (w_threads w')) (w_trace w') false)).
Proof.
  intros He Hrun.
  assert (conn_err (w_conn w') = Some e ∧
          ∃ evs, w_trace w' = evs ++ w_trace w ∧ (∀ t, EvWrite t ∉ evs) ∧
                 (reading_over w → reading_over w' ∧ ∀ i, EvRead i ∉ evs))
    as [He' Hev].
  { revert w He Hrun. induction sched as [|a sched IH]; intros w He Hrun.
    - simpl in Hrun. injection Hrun as <-. split; [done|].
      exists []. split_and!; [done|not_in_small|].
      intros; split; [done|not_in_small].
    - simpl in Hrun. destruct (step w a) as [w1|] eqn:Hs; [|done].
      destruct (step_sticky _ _ _ _ He Hs) as (He1 & evs1 & Htr1 & Hw1 & Hr1).
      destruct (IH _ He1 Hrun) as (He2 & evs2 & Htr2 & Hw2 & Hr2).
      split; [done|]. exists (evs2 ++ evs1). split_and!.
      + by rewrite Htr2, Htr1, app_assoc.
      + intros t [?|?]%elem_of_app; [by eapply Hw2|by eapply Hw1].
      + intros Hover. destruct (Hr1 Hover) as [Hover1 Hn1].
        destruct (Hr2 Hover1) as [Hover2 Hn2]. split; [done|].
        intros i [?|?]%elem_of_app; [by eapply Hn2|by eapply Hn1]. }
  split_and!; [done..|].
  intros tid k t inp Hp Hth. unfold step. rewrite Hp, Hth. simpl.
  by rewrite He'.
Qed.

(** ** The forwarding goroutine of a streaming call *)

Lemma event_of_Err r : Ev_Err (event_of r) = R_err (Some r).
Proof. unfold event_of. by destruct (R_err (Some r)). Qed.

(** ** cancel *)










(** ** The errors a connection hands to its callers *)

Lemma readR_not_ErrNoAddrs i e : readR i = Returns (inl e) → e ≠ ErrNoAddrs.
Proof. destruct i as [[|?]| |[|?]| |]; simpl; intros [= <-]; done. Qed.

Lemma R_err_not_ErrNoAddrs r : R_err r ≠ Some ErrNoAddrs.
Proof.
  unfold R_err. destruct r as [r|]; [|done].
  destruct (R_ErrCode r) as [c|]; [|done].
  destruct (R_ErrDetail r); [done|].
  destruct (errs !! c) as [e|] eqn:He; [|done].
  unfold errs in He. apply elem_of_list_to_map_2 in He.
  repeat (apply elem_of_cons in He as [He|He]; [by simplify_eq|]).
  by apply elem_of_nil in He.
Qed.

Lemma os_of_io_not_ErrNoAddrs e : os_of_io e ≠ ErrNoAddrs.
Proof. by destruct e. Qed.

Lemma writeT_not_ErrNoAddrs i c c' err wrote :
  conn_err c ≠ Some ErrNoAddrs → writeT i c = Returns (c', err, wrote) →
  conn_err c' ≠ Some ErrNoAddrs ∧ err ≠ Some ErrNoAddrs.
Proof.
  unfold writeT. intros Hc. destruct (conn_err c) eqn:He.
  { intros [= <- <- <-]. by rewrite He. }
  destruct (wr_marshal i); [intros [= <- <- <-]; by rewrite He|].
  destruct (wr_len i) as [e|].
  { intros [= <- <- <-]. simpl. pose proof (os_of_io_not_ErrNoAddrs e).
    split; congruence. }
  destruct (write_loop _ _) as [[e|]| |]; [| |done..]; intros [= <- <- <-].
  - simpl. pose proof (os_of_io_not_ErrNoAddrs e). split; congruence.
  - by rewrite He.
Qed.

Lemma call_return_res_ok who r res :
  call_return who r = Finished res → res_ok res.
Proof.
  unfold call_return. pose proof (R_err_not_ErrNoAddrs r) as Hr.
  destruct (R_err r), who; intros [= <-]; simpl; try done; congruence.
Qed.

Lemma receive_res_ok th ch r th' :
  receive th ch r = Some th' →
  match th' with
  | SendCleanup _ _ e | RdSetErr e => e ≠ ErrNoAddrs
  | Finished res => res_ok res
  | _ => True
  end.
Proof.
  destruct th; simpl; try done; case_bool_decide; try done; intros [= <-]; [|done].
  destruct (call_return who (Some r)) eqn:Hc; try done.
  - unfold call_return in Hc. by repeat case_match.
  - unfold call_return in Hc. by repeat case_match.
  - by eapply call_return_res_ok.
Qed.

Lemma step_no_ErrNoAddrs w a w' :
  no_ErrNoAddrs w → step w a = Some w' → no_ErrNoAddrs w'.
Proof.
  intros [Herr Hthr] Hs.
  unfold step, step_thread, spawn, upd, upd_closed, crash in Hs.
  repeat (case_match; simplify_eq/=; try done).
  all: repeat match goal with
       | H : writeT _ _ = Returns _ |- _ =>
           apply (writeT_not_ErrNoAddrs _ _ _ _ _ Herr) in H as [? ?]
       end.
  all: inv_sections.
  all: split; simpl; rewrite ?note_redirect_err; try done.
  all: try congruence.
  all: try (destruct (os_of_io_not_ErrNoAddrs i); simpl in *; congruence).
  all: repeat first
         [ apply (threads_app_prop (λ _ th, match th with
                                            | SendCleanup _ _ e | RdSetErr e => e ≠ ErrNoAddrs
                                            | Finished res => res_ok res
                                            | _ => True
                                            end)); [|done]
         | apply (threads_insert_prop (λ _ th, match th with
                                               | SendCleanup _ _ e | RdSetErr e => e ≠ ErrNoAddrs
                                               | Finished res => res_ok res
                                               | _ => True
                                               end)) ].
  all: try exact Hthr.
  all: try done.
  all: try congruence.
  all: try match goal with
       | Ht : w_threads _ !! _ = Some (SendCleanup _ _ _) |- _ =>
           apply Hthr in Ht
       | Ht : w_threads _ !! _ = Some (RdSetErr _) |- _ =>
           apply Hthr in Ht
       | Hr : readR _ = Returns (inl _) |- _ => apply readR_not_ErrNoAddrs in Hr
       end.
  all: try done.
  all: try congruence.
  all: try (unfold call_return; simpl; by destruct who).
  all: try (destruct k as [[|??]|]; simpl; try done; congruence).
  all: try (unfold call_return;
            pose proof (R_err_not_ErrNoAddrs None);
            pose proof (R_err_not_ErrNoAddrs (Some r));
            repeat case_match; simpl; try done; congruence).
  all: try match goal with
       | Hr : receive _ _ _ = Some _ |- _ => by eapply receive_res_ok
       end.
Qed.

Lemma run_no_ErrNoAddrs sched w w' :
  no_ErrNoAddrs w → run w sched = Some w' → no_ErrNoAddrs w'.
Proof.
  revert w. induction sched as [|a sched IH]; intros w Hw Hrun; simpl in Hrun.
  - by injection Hrun as <-.
  - destruct (step w a) as [w1|] eqn:Hs; [|done].
    eapply IH; [|done]. by eapply step_no_ErrNoAddrs.
Qed.

Lemma call_outcome_not_ErrNoAddrs res :
  call_outcome res → res.2 ≠ Some ErrNoAddrs.
Proof.
  intros (addr & sched & w & tid & Hrun & Hth).
  assert (no_ErrNoAddrs (dial_world addr)) as H0.
  { split; [done|]. intros [|[|?]] th; simpl; intros; by simplify_eq. }
  destruct (run_no_ErrNoAddrs _ _ _ H0 Hrun) as [_ Hthr].
  apply Hthr in Hth. simpl in Hth. destruct res as [r [e|]]; simpl in *; congruence.
Qed.

(** ** The tag of a send, the frame of a write, the flags of an event *)

Lemma find_tag_first fuel m n tag :
  is_int32 n → find_tag fuel m n = Some tag →
  ∃ k : nat,
    k < fuel ∧ tag = wrap32 (n + Z.of_nat k) ∧
    (∀ j : nat, j < k → is_Some (m !! wrap32 (n + Z.of_nat j))) ∧
    m !! tag = None.
Proof.
  revert n. induction fuel as [|f IH]; intros n Hn; simpl; [done|].
  destruct (m !! n) as [v|] eqn:E.
  - intros Hf. destruct (IH _ (wrap32_int32 _) Hf) as (k & Hk & -> & Hocc & Hfree).
    exists (S k). split_and!; [lia| | |done].
    + rewrite wrap32_succ. f_equal. lia.
    + intros [|j] Hj.
      * rewrite Z.add_0_r, wrap32_id by done. by eexists.
      * specialize (Hocc j ltac:(lia)). rewrite wrap32_succ in Hocc.
        by replace (n + Z.of_nat (S j))%Z with (n + 1 + Z.of_nat j)%Z by lia.
  - intros [= <-]. exists 0. split_and!; [lia| |intros; lia|done].
    by rewrite Z.add_0_r, wrap32_id.
Qed.

(** X4.  [send] registers its channel under the first tag, counting up
    from [c.n] and wrapping around at the end of [int32], that the table
    does not map, after at most as many increments as the table has
    entries; [c.n] is left at that tag, so that a tag given back is the
    first one tried by the next [send]. *)
Theorem send_takes_first_free_tag ch c tag c' :
  is_int32 (conn_n c) →
  send_register ch c = Returns (tag, c') →
  ∃ m (k : nat),
    conn_cb c = Some m ∧ k ≤ size m ∧
    tag = wrap32 (conn_n c + Z.of_nat k) ∧
    (∀ j : nat, j < k → is_Some (m !! wrap32 (conn_n c + Z.of_nat j))) ∧
    m !! tag = None ∧
    conn_n c' = tag ∧ conn_cb c' = Some (<[tag := Some ch]> m) ∧
    conn_err c' = conn_err c.
Proof.
  intros Hn. unfold send_register.
  destruct (conn_cb c) as [m|] eqn:Hm; [|done].
  destruct (find_tag (S (size m)) m (conn_n c)) as [tg|] eqn:Hf; [|done].
  intros [= <- <-].
  destruct (find_tag_first _ _ _ _ Hn Hf) as (k & Hk & Htag & Hocc & Hfree).
  exists m, k. split_and!; try done. lia.
Qed.

Lemma accepted_written rs : accepted rs → (0 ≤ written rs)%Z.
Proof.
  induction 1 as [|[n o] rs [_ Hn] _ IH]; simpl in *; [done|lia].
Qed.

Lemma slice_from_Returns buf n buf' :
  slice_from buf n = Returns buf' →
  (0 ≤ n ≤ Z.of_nat (length buf))%Z ∧ buf' = drop (Z.to_nat n) buf.
Proof.
  unfold slice_from. destruct (_ || _) eqn:E; [done|]. intros [= <-].
  apply orb_false_iff in E as [?%Z.ltb_ge ?%Z.ltb_ge]. split; [lia|done].
Qed.

Lemma slice_from_Panics buf n :
  slice_from buf n = Panics ↔ (n < 0 ∨ Z.of_nat (length buf) < n)%Z.
Proof.
  unfold slice_from. destruct (_ || _) eqn:E.
  - apply orb_true_iff in E as [?%Z.ltb_lt|?%Z.ltb_lt]; split; auto.
  - apply orb_false_iff in E as [?%Z.ltb_ge ?%Z.ltb_ge]. split; [done|lia].
Qed.

(** The loop after some calls of [Write] that went well: it goes on with
    what is left of the buffer. *)
Lemma write_loop_app buf used rest :
  accepted used → (written used ≤ Z.of_nat (length buf))%Z →
  write_loop buf (used ++ rest)
  = write_loop (drop (Z.to_nat (written used)) buf) rest.
Proof.
  intros Hacc. revert buf.
  induction Hacc as [|[n o] used [Ho Hn] Hacc IH]; intros buf Hlen; simpl in *.
  { by rewrite drop_0. }
  subst o. pose proof (accepted_written _ Hacc) as Hpos.
  destruct buf as [|b buf].
  { rewrite drop_nil. by destruct rest as [|[? [?|]] ?]. }
  destruct (slice_from (b :: buf) n) as [buf'| |] eqn:Hs.
  - apply slice_from_Returns in Hs as [Hb ->].
    rewrite IH by (rewrite length_drop; lia).
    rewrite drop_drop. f_equal. f_equal. lia.
  - apply slice_from_Panics in Hs. simpl in *. lia.
  - unfold slice_from in Hs. by destruct (_ || _).
Qed.

Lemma written_cons n o rs : written ((n, o) :: rs) = (n + written rs)%Z.
Proof. done. Qed.

Lemma write_loop_cases buf rs :
  match write_loop buf rs with
  | Returns None =>
      ∃ used rest,
        rs = used ++ rest ∧ accepted used ∧
        written used = Z.of_nat (length buf)
  | Returns (Some e) =>
      ∃ used n rest,
        rs = used ++ (n, Some e) :: rest ∧ accepted used ∧
        (written used < Z.of_nat (length buf))%Z
  | Panics =>
      ∃ used n rest,
        rs = used ++ (n, None) :: rest ∧ accepted used ∧
        (written used < Z.of_nat (length buf))%Z ∧
        (n < 0 ∨ Z.of_nat (length buf) - written used < n)%Z
  | Hangs => accepted rs ∧ (written rs < Z.of_nat (length buf))%Z
  end.
Proof.
  revert buf. induction rs as [|[n [e|]] rs IH]; intros [|b buf].
  - exists [], []. split_and!; [done|apply Forall_nil_2|done].
  - split; [apply Forall_nil_2|simpl; lia].
  - exists [], ((n, Some e) :: rs). split_and!; [done|apply Forall_nil_2|done].
  - exists [], n, rs. split_and!; [done|apply Forall_nil_2|simpl; lia].
  - exists [], ((n, None) :: rs). split_and!; [done|apply Forall_nil_2|done].
  - change (write_loop (b :: buf) ((n, None) :: rs))
      with (match slice_from (b :: buf) n with
            | Returns buf' => write_loop buf' rs
            | Panics => Panics
            | Hangs => Hangs
            end).
    destruct (slice_from (b :: buf) n) as [buf'| |] eqn:Hs.
    + apply slice_from_Returns in Hs as [Hb ->].
      specialize (IH (drop (Z.to_nat n) (b :: buf))).
      rewrite length_drop in IH.
      destruct (write_loop _ rs) as [[e|]| |].
      * destruct IH as (used & n' & rest & -> & Hacc & Hlt).
        exists ((n, None) :: used), n', rest.
        split_and!; [done|apply Forall_cons; split; [split; simpl; [done|lia]|done]|rewrite ?written_cons; simpl written; lia].
      * destruct IH as (used & rest & -> & Hacc & Hlt).
        exists ((n, None) :: used), rest.
        split_and!; [done|apply Forall_cons; split; [split; simpl; [done|lia]|done]|rewrite ?written_cons; simpl written; lia].
      * destruct IH as (used & n' & rest & -> & Hacc & Hlt & Hbad).
        exists ((n, None) :: used), n', rest.
        split_and!; [done|apply Forall_cons; split; [split; simpl; [done|lia]|done]|rewrite written_cons; lia|rewrite ?written_cons; simpl written; lia].
      * destruct IH as [Hacc Hlt]. split; [apply Forall_cons; split; [split; simpl; [done|lia]|done]|rewrite ?written_cons; simpl written; lia].
    + apply slice_from_Panics in Hs. exists [], n, rs.
      split_and!; [done|apply Forall_nil_2|simpl; lia|simpl written; lia].
    + unfold slice_from in Hs. by destruct (_ || _).
Qed.

Lemma drop_short (buf : list Z) (k : Z) :
  (0 ≤ k < Z.of_nat (length buf))%Z →
  ∃ b buf', drop (Z.to_nat k) buf = b :: buf' ∧
            Z.of_nat (length (b :: buf')) = (Z.of_nat (length buf) - k)%Z.
Proof.
  intros Hk. destruct (drop (Z.to_nat k) buf) as [|b buf'] eqn:Hd.
  - apply (f_equal length) in Hd. rewrite length_drop in Hd. simpl in Hd. lia.
  - exists b, buf'. split; [done|]. rewrite <- Hd, length_drop. lia.
Qed.

(** X3.  The loop of [writeT] ends without an error exactly when calls
    of [Write] that report no error take, between them, the bytes of the
    frame, no more and no less; it returns the first error of [Write],
    and only while bytes of the frame are left; it panics exactly when a
    [Write] without error reports a count that is negative or larger
    than what was left to write; and it keeps calling [Write], a short
    write being continued from where it stopped, as long as none of this
    has happened. *)
Theorem write_loop_result buf rs :
  (write_loop buf rs = Returns None ↔
   ∃ used rest,
     rs = used ++ rest ∧ accepted used ∧
     written used = Z.of_nat (length buf)) ∧
  (∀ e,
     write_loop buf rs = Returns (Some e) ↔
     ∃ used n rest,
       rs = used ++ (n, Some e) :: rest ∧ accepted used ∧
       (written used < Z.of_nat (length buf))%Z) ∧
  (write_loop buf rs = Panics ↔
   ∃ used n rest,
     rs = used ++ (n, None) :: rest ∧ accepted used ∧
     (written used < Z.of_nat (length buf))%Z ∧
     (n < 0 ∨ Z.of_nat (length buf) - written used < n)%Z) ∧
  (write_loop buf rs = Hangs ↔
   accepted rs ∧ (written rs < Z.of_nat (length buf))%Z).
Proof.
  pose proof (write_loop_cases buf rs) as Hfw.
  split_and!; [|intros e|..]; (split; [intros Hw; by rewrite Hw in Hfw|]).
  - intros (used & rest & -> & Hacc & Hlen).
    rewrite write_loop_app by (done || lia).
    rewrite Hlen, Nat2Z.id, drop_all. by destruct rest as [|[? [?|]] ?].
  - intros (used & n & rest & -> & Hacc & Hlen).
    pose proof (accepted_written _ Hacc).
    rewrite write_loop_app by (done || lia).
    by destruct (drop_short buf (written used)) as (b & buf' & -> & _).
  - intros (used & n & rest & -> & Hacc & Hlen & Hbad).
    pose proof (accepted_written _ Hacc).
    rewrite write_loop_app by (done || lia).
    destruct (drop_short buf (written used)) as (b & buf' & -> & Hl); [lia|].
    change (write_loop (b :: buf') ((n, None) :: rest))
      with (match slice_from (b :: buf') n with
            | Returns buf'' => write_loop buf'' rest
            | Panics => Panics
            | Hangs => Hangs
            end).
    assert (slice_from (b :: buf') n = Panics) as ->; [|done].
    apply slice_from_Panics. lia.
  - intros [Hacc Hlen]. pose proof (accepted_written _ Hacc).
    rewrite <- (app_nil_r rs), write_loop_app by (done || lia).
    by destruct (drop_short buf (written rs)) as (b & buf' & -> & _).
Qed.

Lemma writeT_Panics i c :
  writeT i c = Panics →
  conn_err c = None ∧
  ∃ buf used n rest,
    wr_marshal i = inr buf ∧ wr_len i = None ∧
    wr_body i = used ++ (n, None) :: rest ∧ accepted used ∧
    (written used < Z.of_nat (length buf))%Z ∧
    (n < 0 ∨ Z.of_nat (length buf) - written used < n)%Z.
Proof.
  unfold writeT. destruct (conn_err c); [done|].
  destruct (wr_marshal i) as [|buf]; [done|].
  destruct (wr_len i); [done|].
  pose proof (write_loop_cases buf (wr_body i)) as Hc.
  destruct (write_loop buf (wr_body i)) as [[e|]| |]; try done.
  intros _. split; [done|].
  destruct Hc as (used & n & rest & ? & ? & ? & ?). by exists buf, used, n, rest.
Qed.

(** X2.  On a connection without an error: [writeT] that fails in
    [pb.Marshal] returns that error, writes nothing and leaves the
    connection as it was, its error field still nil; when the byte
    stream fails, at the length prefix or at a [Write] that came while
    bytes of the frame were left, the error is stored in the error field
    and returned; and [writeT] returns no error only when the calls of
    [Write] have taken, between them, exactly the bytes of the frame,
    and then the connection is as it was. *)
Theorem writeT_error_sticks i c c' err wrote :
  conn_err c = None →
  writeT i c = Returns (c', err, wrote) →
  match err with
  | None =>
      c' = c ∧ wrote = true ∧
      ∃ buf used rest,
        wr_marshal i = inr buf ∧ wr_len i = None ∧
        wr_body i = used ++ rest ∧ accepted used ∧
        written used = Z.of_nat (length buf)
  | Some e =>
      (∃ msg, wr_marshal i = inl msg ∧ e = PbError msg ∧ c' = c ∧ wrote = false) ∨
      (∃ buf io,
         wr_marshal i = inr buf ∧ e = os_of_io io ∧
         c' = set_err (Some e) c ∧ wrote = true ∧
         (wr_len i = Some io ∨
          wr_len i = None ∧
          ∃ used n rest,
            wr_body i = used ++ (n, Some io) :: rest ∧ accepted used ∧
            (written used < Z.of_nat (length buf))%Z))
  end.
Proof.
  intros He. unfold writeT. rewrite He.
  destruct (wr_marshal i) as [msg|buf] eqn:Hm.
  { intros [= <- <- <-]. left. eauto. }
  destruct (wr_len i) as [io|] eqn:Hl.
  { intros [= <- <- <-]. right. exists buf, io. eauto 10. }
  pose proof (write_loop_cases buf (wr_body i)) as Hc.
  destruct (write_loop buf (wr_body i)) as [[io|]| |] eqn:Hw; [| |done..].
  - intros [= <- <- <-]. right. exists buf, io. split_and!; try done.
    right. split; [done|]. exact Hc.
  - intros [= <- <- <-]. split_and!; try done.
    destruct Hc as (used & rest & ? & ? & ?).
    exists buf, used, rest. done.
Qed.

Lemma land_bit z (n : Z) :
  (0 ≤ n)%Z → (0 <? Z.land z (2 ^ n))%Z = Z.testbit z n.
Proof.
  intros Hn.
  assert (Z.land z (2 ^ n) = if Z.testbit z n then 2 ^ n else 0)%Z as ->.
  { apply Z.bits_inj'. intros k Hk. rewrite Z.land_spec, Z.pow2_bits_eqb by done.
    destruct (Z.eqb_spec n k) as [->|Hne].
    - rewrite andb_true_r. destruct (Z.testbit z k); [|by rewrite Z.bits_0].
      by rewrite Z.pow2_bits_eqb, Z.eqb_refl.
    - rewrite andb_false_r. destruct (Z.testbit z n); [|by rewrite Z.bits_0].
      rewrite Z.pow2_bits_eqb by done. symmetry. by apply Z.eqb_neq. }
  destruct (Z.testbit z n); [|done].
  apply Z.ltb_lt. by apply Z.pow_pos_nonneg.
Qed.

(** X1.  The event made of a response that carries an error has the
    error and nothing else: it is neither a set nor a del, whatever the
    flags of the response were; the event made of any other response has
    its fields, and it is a set or a del exactly when the response has
    the bit of [Set] or of [Del] among its flags. *)
Theorem event_of_flags r :
  (∀ e, R_err (Some r) = Some e →
        event_of r = mkEvent 0 EmptyString [] 0 (Some e) ∧
        IsSet (event_of r) = false ∧ IsDel (event_of r) = false) ∧
  (R_err (Some r) = None →
   event_of r = mkEvent (GetInt (R_Rev r)) (GetString (R_Path r)) (R_Value r)
                        (GetInt (R_Flags r)) None ∧
   IsSet (event_of r) = Z.testbit (GetInt (R_Flags r)) 2 ∧
   IsDel (event_of r) = Z.testbit (GetInt (R_Flags r)) 3).
Proof.
  unfold event_of. split.
  - intros e ->. done.
  - intros ->. split; [done|]. unfold IsSet, IsDel, Set', Del. simpl.
    split; [apply (land_bit _ 2)|apply (land_bit _ 3)]; lia.
Qed.

(** ** Channels are closed once *)

Lemma elem_of_sinks (m : gmap Z (option chan)) ch :
  ch ∈ sinks m ↔ ∃ tag, m !! tag = Some (Some ch).
Proof.
  unfold sinks. rewrite list_elem_of_omap. split.
  - intros ([tag [c|]] & Hin & Hs); simplify_eq/=.
    exists tag. by apply elem_of_map_to_list.
  - intros [tag Hl]. exists (tag, Some ch). split; [|done].
    by apply elem_of_map_to_list.
Qed.

Lemma NoDup_sinks (m : gmap Z (option chan)) :
  (∀ t1 t2 ch, m !! t1 = Some (Some ch) → m !! t2 = Some (Some ch) → t1 = t2) →
  NoDup (sinks m).
Proof.
  intros Hinj. unfold sinks.
  pose proof (NoDup_map_to_list m) as Hnd.
  assert (∀ p, p ∈ map_to_list m → m !! p.1 = Some p.2) as Hall.
  { intros [??] ?. by apply elem_of_map_to_list. }
  induction (map_to_list m) as [|[tag c] l IH]; simpl; [constructor|].
  apply NoDup_cons in Hnd as [Hnotin Hnd].
  assert (NoDup (omap snd l)) as Hrec.
  { apply IH; [done|]. intros p Hp. apply Hall. by right. }
  destruct c as [ch|]; simpl; [|done].
  constructor; [|done].
  intros ([tag' c'] & Hin & Hs)%list_elem_of_omap. simpl in Hs. subst c'.
  assert (tag = tag') as <-.
  { eapply Hinj.
    - apply (Hall (tag, Some ch)). by left.
    - apply (Hall (tag', Some ch)). by right. }
  done.
Qed.

Lemma close_all_inv chs closed closed' :
  close_all chs closed = Returns closed' →
  closed' = list_to_set chs ∪ closed.
Proof.
  revert closed. induction chs as [|ch chs IH]; intros closed; simpl.
  - intros [= <-]. by rewrite union_empty_l_L.
  - unfold close_chan. case_bool_decide; [done|]. intros Hc.
    apply IH in Hc as ->. simpl.
    rewrite (assoc_L (∪)). f_equal. apply (comm_L (∪)).
Qed.

Lemma close_all_Returns chs (closed : gset chan) :
  NoDup chs → (∀ ch, ch ∈ chs → ch ∉ closed) →
  ∃ closed', close_all chs closed = Returns closed'.
Proof.
  revert closed. induction chs as [|ch chs IH]; intros closed Hnd Hop; simpl.
  - by eexists.
  - apply NoDup_cons in Hnd as [Hnotin Hnd].
    unfold close_chan. rewrite bool_decide_eq_false_2 by (apply Hop; by left).
    apply IH; [done|]. intros c Hc [->%elem_of_singleton|Hin]%elem_of_union.
    + done.
    + apply (Hop c); [by right|done].
Qed.

Lemma close_table_closed c closed c' closed' :
  close_table c closed = Returns (c', closed') →
  c' = set_cb None c ∧
  closed' = list_to_set (sinks (default ∅ (conn_cb c))) ∪ closed.
Proof.
  unfold close_table. destruct (close_all _ _) eqn:E; [|done..].
  intros [= <- <-]. split; [done|]. by apply close_all_inv.
Qed.

Ltac inv_step_closed H :=
  unfold step, step_thread, spawn, upd, upd_closed, crash in H;
  repeat (case_match; simplify_eq/=; try done);
  repeat match goal with
         | Hc : close_table _ _ = Returns _ |- _ =>
             apply close_table_closed in Hc as [-> ->]
         | Hc : close_chan _ _ = Returns _ |- _ =>
             unfold close_chan in Hc; case_bool_decide; simplify_eq
         end;
  inv_sections.

Lemma sinks_registered w ch :
  wf w → ch ∈ sinks (default ∅ (conn_cb (w_conn w))) →
  in_table (conn_cb (w_conn w)) ch ∧ ch < w_next w.
Proof.
  intros Hwf [tag Hl]%elem_of_sinks.
  destruct (conn_cb (w_conn w)) as [m|] eqn:Hm; simpl in Hl; [|done].
  split; [by exists m, tag|].
  eapply (wf_reg_lt w Hwf), (wf_tab_reg w Hwf); eauto.
Qed.

Lemma reader_holds_lt w tid th ch d :
  wf w → w_threads w !! tid = Some th → reader_holds th = Some (ch, d) →
  ch < w_next w.
Proof.
  intros Hwf Hth Hh. destruct (wf_threads w Hwf _ _ Hth) as [_ Hok].
  destruct th; simplify_eq/=.
  - destruct Hok as [Hreg _]. by eapply (wf_reg_lt w Hwf).
  - destruct Hok as [Hreg _]. by eapply (wf_reg_lt w Hwf).
Qed.

Lemma step_closed_lt w a w' :
  wf w → safe w → step w a = Some w' →
  ∀ ch, ch ∈ w_closed w' → ch < w_next w'.
Proof.
  intros Hwf Hsafe Hs ch. pose proof (safe_closed_lt w Hsafe ch) as Hold.
  inv_step_closed Hs; simpl; try done.
  all: try (intros Hin; apply Hold in Hin; lia).
  all: intros [Hin|Hin]%elem_of_union; [|by apply Hold].
  all: try (apply elem_of_list_to_set in Hin;
            by apply sinks_registered in Hin as [_ ?]).
  - apply elem_of_singleton in Hin as ->.
    by destruct (safe_cancel w Hsafe _ _ ch0 H0) as [? _].
  - apply elem_of_singleton in Hin as ->.
    by eapply (reader_holds_lt w tid (RdClose ch0 r)).
Qed.

Lemma step_tab_open w a w' :
  wf w → safe w → step w a = Some w' →
  ∀ ch, in_table (conn_cb (w_conn w')) ch → ch ∉ w_closed w'.
Proof.
  intros Hwf Hsafe Hs ch. pose proof (safe_tab_open w Hsafe ch) as Hold.
  inv_step_closed Hs; simpl; try done.
  all: repeat match goal with
              | Hc : conn_cb (w_conn ?w) = Some _ |- _ => rewrite Hc in *
              end.
  all: try (by intros ?%in_table_delete%Hold).
  all: try (by intros ?%in_table_insert_nil%Hold).
  all: try (by intros []%in_table_nil).
  - intros (m' & tg & [= <-] & Hl).
    apply lookup_insert_Some in Hl as [[? ?]|[? Hl]]; simplify_eq.
    + intros Hin%(safe_closed_lt w Hsafe). lia.
    + apply Hold. by exists x, tg.
  - intros Hin [->%elem_of_singleton|Hc]%elem_of_union; [|by apply Hold].
    by destruct (safe_cancel w Hsafe _ _ ch0 H0) as (_ & ? & _).
  - intros Hin [->%elem_of_singleton|Hc]%elem_of_union; [|by apply Hold].
    by destruct (wf_threads w Hwf _ _ H0) as (_ & _ & _ & ? & _).
Qed.

Ltac split_lookups :=
  repeat match goal with
         | H : <[_ := _]> _ !! _ = Some _ |- _ =>
             apply list_lookup_insert_Some in H as [(-> & H & _)|(? & H)]
         | H : (_ ++ [_]) !! _ = Some _ |- _ =>
             apply lookup_app_Some in H as [H|[_ H]];
             [|apply list_lookup_singleton_Some in H as [_ H]]
         end.

Ltac new_thread :=
  repeat match goal with
         | H : receive ?t _ _ = Some _ |- _ =>
             destruct t; simpl in H; try done; case_bool_decide; simplify_eq
         end;
  unfold send_failed, call_return in *;
  repeat (case_match; simplify_eq/=; try done).

Lemma reader_holds_reader th p : reader_holds th = Some p → is_reader th.
Proof. by destruct th. Qed.

Lemma one_reader w i j thi thj :
  wf w → w_threads w !! i = Some thi → w_threads w !! j = Some thj →
  is_reader thi → is_reader thj → i = j.
Proof.
  intros Hwf Hi Hj Hri Hrj.
  destruct (wf_threads w Hwf _ _ Hi) as [Hi0 _].
  destruct (wf_threads w Hwf _ _ Hj) as [Hj0 _].
  by rewrite Hi0, Hj0.
Qed.

Lemma step_safe_reader w a w' :
  wf w → safe w → step w a = Some w' →
  ∀ tid th ch d,
    w_threads w' !! tid = Some th → reader_holds th = Some (ch, d) →
    ch ∉ w_closed w'.
Proof.
  intros Hwf Hsafe Hs. pose proof (safe_reader w Hsafe) as Hold.
  inv_step_closed Hs; simpl; try done.
  all: intros qi qth qc qd Hqi Hqh; split_lookups; simplify_eq/=.
  all: try (by eapply Hold).
  all: try (new_thread; fail).
  all: try match goal with
       | Ht : w_threads _ !! _ = Some (RdDeliver _ _) |- _ =>
           by eapply (Hold _ _ _ _ Ht)
       end.
  all: try match goal with
       | Hl : cb_lookup (conn_cb (w_conn ?w0)) ?tag = Some (Some ?c) |- _ =>
           apply (safe_tab_open w0 Hsafe);
           unfold cb_lookup in Hl;
           destruct (conn_cb (w_conn w0)) as [m0|]; [|done]; by exists m0, tag
       end.
  all: try match goal with
       | Ht : w_threads ?w0 !! ?t = Some ?th0, Hne : ?t ≠ _ |- _ =>
           exfalso; apply Hne;
           eapply (one_reader w0); [done|exact Ht|eassumption|done|];
           by eapply reader_holds_reader
       end.
  intros [->%elem_of_singleton|Hc]%elem_of_union; [|by eapply Hold].
  by destruct (safe_cancel_reader w Hsafe _ _ _ _ _ _ H0 Hqi eq_refl Hqh).
Qed.

Lemma cancel_holds_not_reader th ch : cancel_holds th = Some ch → is_reader th = false.
Proof. by destruct th. Qed.

Lemma not_in_table_insert_new (m : gmap Z (option chan)) tag next ch :
  ch < next → ¬ in_table (Some m) ch →
  ¬ in_table (Some (<[tag := Some next]> m)) ch.
Proof.
  intros Hlt Hn (m' & tg & [= <-] & Hl).
  apply lookup_insert_Some in Hl as [[? ?]|[? Hl]]; simplify_eq; [lia|].
  apply Hn. by exists m, tg.
Qed.

Lemma step_safe_cancel w a w' :
  wf w → safe w → step w a = Some w' →
  ∀ tid th ch,
    w_threads w' !! tid = Some th → cancel_holds th = Some ch →
    ch < w_next w' ∧ ¬ in_table (conn_cb (w_conn w')) ch ∧ ch ∉ w_closed w'.
Proof.
  intros Hwf Hsafe Hs. pose proof (safe_cancel w Hsafe) as Hold.
  inv_step_closed Hs; simpl; try done.
  all: intros qi qth qc Hqi Hqh; split_lookups; simplify_eq/=.
  all: try (by eapply Hold).
  all: try (new_thread; fail).
  all: try (destruct (Hold _ _ _ Hqi Hqh) as (Hlt & Hnt & Hnc)).
  all: try match goal with
       | Ht : w_threads _ !! _ = Some _ |- _ =>
           destruct (Hold _ _ qc Ht) as (Hlt & Hnt & Hnc);
           [first [exact Hqh|done]|]
       end.
  all: try match goal with
       | Hr : receive ?t _ _ = Some _, Ht : w_threads _ !! _ = Some ?t |- _ =>
           destruct t; simpl in Hr; try done; case_bool_decide; simplify_eq;
           unfold call_return in Hqh; repeat case_match; simplify_eq/=;
           destruct (Hold _ _ qc Ht) as (Hlt & Hnt & Hnc); [done|]
       end.
  all: repeat match goal with
              | Hc : conn_cb (w_conn ?w) = Some _ |- _ => rewrite Hc in *
              end.
  all: try (split_and!; [lia|by intros ?%in_table_delete|done]).
  all: try (split_and!; [lia|by intros ?%in_table_insert_nil|done]).
  all: try (split_and!; [lia|done|done]).
  all: try (split_and!; [lia|by apply not_in_table_insert_new|done]).
  all: try (split_and!; [done|apply in_table_nil|];
            intros [Hin%elem_of_list_to_set|Hc]%elem_of_union; [|done];
            by apply sinks_registered in Hin as [? _]).
  - assert (in_table (conn_cb (w_conn w)) qc) as Hin.
    { rewrite H2. by exists x, tag. }
    split_and!.
    + eapply (wf_reg_lt w Hwf), (wf_tab_reg w Hwf); eauto.
    + intros (m' & tg & [= <-] & Hl).
      apply lookup_insert_Some in Hl as [[? ?]|[Hne Hl]]; simplify_eq.
      apply Hne. by eapply (wf_table_inj w).
    + by apply (safe_tab_open w Hsafe).
  - split_and!; [done..|].
    intros [->%elem_of_singleton|Hc]%elem_of_union; [|done].
    apply H1. by eapply (safe_cancel_one w Hsafe).
  - split_and!; [done..|].
    intros [->%elem_of_singleton|Hc]%elem_of_union; [|done].
    by destruct (safe_cancel_reader w Hsafe _ _ _ _ _ _ Hqi H0 Hqh eq_refl).
Qed.

Lemma step_safe_cancel_one w a w' :
  wf w → safe w → step w a = Some w' →
  ∀ i j thi thj ch,
    w_threads w' !! i = Some thi → w_threads w' !! j = Some thj →
    cancel_holds thi = Some ch → cancel_holds thj = Some ch → i = j.
Proof.
  intros Hwf Hsafe Hs. pose proof (safe_cancel_one w Hsafe) as Hold.
  inv_step_closed Hs; simpl; try done.
  all: intros qi qj thi thj qc Hqi Hqj Hhi Hhj; split_lookups; simplify_eq/=.
  all: try done.
  all: try (by eapply Hold).
  all: try (new_thread; fail).
  all: try match goal with
       | Ht : w_threads _ !! ?t = Some _, Hne : ?t ≠ ?q,
         Hq : w_threads _ !! ?q = Some _ |- _ =>
           exfalso; apply Hne; by eapply (Hold _ _ _ _ _ Ht Hq)
       end.
  all: try match goal with
       | Hc : conn_cb (w_conn ?w0) = Some ?x, Hl : ?x !! ?tag = Some (Some ?c),
         Hq : w_threads ?w0 !! _ = Some ?th, Hh : cancel_holds ?th = Some ?c |- _ =>
           exfalso; destruct (safe_cancel w0 Hsafe _ _ _ Hq Hh) as (_ & Hnt & _);
           apply Hnt; rewrite Hc; by exists x, tag
       end.
  all: match goal with
       | Hr : receive ?t _ _ = Some _, Ht : w_threads _ !! ?p = Some ?t,
         Hq : w_threads _ !! ?q = Some _, Hne : ?p ≠ ?q |- _ =>
           destruct t; simpl in Hr; try done; case_bool_decide; simplify_eq;
           unfold call_return in *; repeat case_match; simplify_eq/=;
           exfalso; apply Hne; by eapply (Hold _ _ _ _ _ Ht Hq)
       end.
Qed.

Lemma step_safe_cancel_reader w a w' :
  wf w → safe w → step w a = Some w' →
  ∀ i j thi thj ch d,
    w_threads w' !! i = Some thi → w_threads w' !! j = Some thj →
    cancel_holds thi = Some ch → reader_holds thj = Some (ch, d) →
    d = false ∧ cancel_past_call thi = false.
Proof.
  intros Hwf Hsafe Hs. pose proof (safe_cancel_reader w Hsafe) as Hold.
  inv_step_closed Hs; simpl; try done.
  all: intros qi qj thi thj qc qd Hqi Hqj Hhi Hhj; split_lookups; simplify_eq/=.
  all: try done.
  all: try (by eapply Hold).
  all: try (new_thread; fail).
  (* another goroutine holds a channel as the read loop would *)
  all: try match goal with
       | Ht : w_threads ?w0 !! ?t = Some ?th0, Hq : w_threads ?w0 !! ?q = Some ?thq,
         Hh : reader_holds ?thq = Some _, Hne : ?t ≠ ?q |- _ =>
           assert (is_reader th0) by done;
           exfalso; apply Hne;
           eapply (one_reader w0); [done|exact Ht|exact Hq|done|];
           by eapply reader_holds_reader
       end.
  (* the read loop has found the channel in the table *)
  all: try match goal with
       | Hl : cb_lookup (conn_cb (w_conn ?w0)) ?tag = Some (Some ?c),
         Hq : w_threads ?w0 !! _ = Some ?th, Hh : cancel_holds ?th = Some ?c |- _ =>
           exfalso; destruct (safe_cancel w0 Hsafe _ _ _ Hq Hh) as (_ & Hnt & _);
           apply Hnt; unfold cb_lookup in Hl;
           destruct (conn_cb (w_conn w0)) as [m0|]; [|done]; by exists m0, tag
       end.
  (* the goroutine of [cancel] moves on with the channel it held *)
  all: try match goal with
       | Ht : w_threads _ !! _ = Some _, Hq : w_threads _ !! _ = Some ?thq,
         Hh : reader_holds ?thq = Some _ |- _ =>
           by destruct (Hold _ _ _ _ _ _ Ht Hq ltac:(first [exact Hhi|done]) Hh)
       end.
  - split; [|done].
    assert (in_table (conn_cb (w_conn w)) qc) as Hin.
    { rewrite H2. by exists x, tag. }
    destruct (wf_threads w Hwf _ _ Hqj) as [_ Hok].
    destruct thj; simplify_eq/=.
    + destruct Hok as [_ Hd]. destruct (is_done r) eqn:Hdone; [|done].
      by destruct (Hd I).
    + by destruct Hok as (_ & _ & ? & _).
  - destruct t; simpl in H3; try done; case_bool_decide; simplify_eq.
    unfold call_return in Hhi. repeat case_match; simplify_eq/=.
    destruct (Hold _ _ _ _ _ _ H2 H0 eq_refl eq_refl) as [Hd _].
    unfold is_done in Hd. congruence.
  - destruct (Hold _ _ _ _ _ _ Hqi H0 Hhi eq_refl) as [Hd _].
    unfold is_done in Hd. congruence.
Qed.

Lemma step_safe w a w' : wf w → safe w → step w a = Some w' → safe w'.
Proof.
  intros Hwf Hsafe Hs. split.
  - by eapply step_closed_lt.
  - by eapply step_tab_open.
  - by eapply step_safe_reader.
  - by eapply step_safe_cancel.
  - by eapply step_safe_cancel_one.
  - by eapply step_safe_cancel_reader.
Qed.

Lemma safe_dial addr : safe (dial_world addr).
Proof.
  split; simpl.
  - intros ch Hin. by apply elem_of_empty in Hin.
  - intros ch _ Hin. by apply elem_of_empty in Hin.
  - intros [|[|?]] th ch d; simpl; intros; simplify_eq.
  - intros [|[|?]] th ch; simpl; intros; simplify_eq.
  - intros [|[|?]] j thi thj ch; simpl; intros; simplify_eq.
  - intros [|[|?]] j thi thj ch d; simpl; intros; simplify_eq.
Qed.

Lemma run_safe sched w w' : wf w → safe w → run w sched = Some w' → safe w'.
Proof.
  revert w. induction sched as [|a sched IH]; intros w Hwf Hsafe; simpl.
  - by intros [= <-].
  - destruct (step w a) as [w1|] eqn:Hs; [|done].
    apply IH; [by eapply step_wf|by eapply step_safe].
Qed.

Lemma reachable_safe addr sched w :
  run (dial_world addr) sched = Some w → safe w.
Proof. apply run_safe; [apply wf_dial|apply safe_dial]. Qed.

Lemma cancel_reserve_not_Panics tag cb c : cancel_reserve tag cb c ≠ Panics.
Proof.
  unfold cancel_reserve, cb_lookup, cb_assign.
  destruct (conn_cb c); repeat case_match; done.
Qed.

Lemma close_table_Returns w :
  wf w → safe w → ∃ p, close_table (w_conn w) (w_closed w) = Returns p.
Proof.
  intros Hwf Hsafe. unfold close_table.
  destruct (close_all_Returns (sinks (default ∅ (conn_cb (w_conn w)))) (w_closed w))
    as [closed' ->]; [| |by eexists].
  - apply NoDup_sinks. intros t1 t2 ch H1 H2.
    destruct (conn_cb (w_conn w)) as [m|] eqn:Hm; simpl in *; [|done].
    by eapply (wf_table_inj w).
  - intros ch Hin. apply (safe_tab_open w Hsafe).
    by apply sinks_registered in Hin as [? _].
Qed.

Lemma send_register_Panics ch c : send_register ch c = Panics → conn_cb c = None.
Proof. unfold send_register. repeat case_match; done. Qed.

Lemma send_unregister_Panics tag c :
  send_unregister tag c = Panics → conn_cb c = None.
Proof. unfold send_unregister, cb_delete. repeat case_match; done. Qed.

Lemma read_lookup_Panics r c : read_lookup r c = Panics → conn_cb c = None.
Proof. unfold read_lookup, cb_lookup, cb_delete. repeat case_match; done. Qed.

(** The sections of the read loop after [readR] do not panic: the table
    is there at the lookup, and the channel in hand is open. *)
Ltac reader_sound Hsafe Halive :=
  exfalso;
  match goal with
  | Hc : close_chan _ _ = Panics, Ht : w_threads ?w0 !! _ = Some (RdClose ?ch _)
    |- _ =>
      unfold close_chan in Hc; case_bool_decide; [|done];
      by destruct (safe_reader w0 Hsafe _ _ ch true Ht)
  | Hc : bool_decide (_ ∈ _) = true,
    Ht : w_threads ?w0 !! _ = Some (RdDeliver ?ch ?r) |- _ =>
      apply bool_decide_eq_true_1 in Hc;
      by destruct (safe_reader w0 Hsafe _ _ ch (is_done r) Ht)
  | Hc : read_lookup _ _ = Panics, Ht : w_threads _ !! _ = Some (RdLookup _)
    |- _ =>
      apply read_lookup_Panics in Hc;
      by destruct (Halive Hc _ _ Ht ltac:(done))
  end.

(** X8.  The teardown of a connection closes every channel that the
    table holds and no other, and makes the table nil; a call that
    waits on one of these channels then returns the end-of-stream
    error, and the forwarding goroutine of a stream goes on to close its
    output. *)
Theorem teardown_closes_every_sink addr sched w tid :
  run (dial_world addr) sched = Some w → w_panic w = false →
  w_threads w !! tid = Some RdTeardown →
  ∃ m w',
    conn_cb (w_conn w) = Some m ∧
    (∀ inp, step w (ActStep tid inp) = Some w') ∧
    w_panic w' = false ∧ conn_cb (w_conn w') = None ∧
    w_threads w' = <[tid := RdNotify]> (w_threads w) ∧
    (∀ ch, ch ∈ w_closed w' ↔
           ch ∈ w_closed w ∨ ∃ tag, m !! tag = Some (Some ch)) ∧
    (∀ p tag ch inp,
       m !! tag = Some (Some ch) →
       (w_threads w !! p = Some (CallRecv Direct ch) →
        ∃ w'', step w' (ActStep p inp) = Some w'' ∧
               w_threads w'' !! p = Some (Finished (RCall None (Some EOF)))) ∧
       (∀ evs, w_threads w !! p = Some (FwdRecv ch evs) →
        ∃ w'', step w' (ActStep p inp) = Some w'' ∧
               w_threads w'' !! p = Some (FwdClose evs))).
Proof.
  intros Hrun Hp Hth.
  pose proof (reachable_wf _ _ _ Hrun) as Hwf.
  pose proof (reachable_safe _ _ _ Hrun) as Hsafe.
  pose proof (reachable_table_alive _ _ _ Hrun) as Halive.
  destruct (conn_cb (w_conn w)) as [m|] eqn:Hm; last first.
  { by destruct (Halive Hm _ _ Hth ltac:(done)). }
  destruct (close_table_Returns w Hwf Hsafe) as [[c' closed'] Hc].
  pose proof Hc as Hc'. apply close_table_closed in Hc' as [-> ->].
  rewrite Hm in *. simpl in *.
  assert (tid < length (w_threads w)) as Hlen by by eapply lookup_lt_Some.
  eexists m, _. split_and!.
  - done.
  - intros inp. unfold step. rewrite Hp, Hth. simpl. rewrite Hc. done.
  - done.
  - done.
  - done.
  - intros ch. simpl. rewrite elem_of_union, elem_of_list_to_set, elem_of_sinks.
    tauto.
  - intros p tag ch inp Hl.
    assert (bool_decide (ch ∈ list_to_set (sinks m) ∪ w_closed w) = true) as Hcl.
    { apply bool_decide_eq_true_2, elem_of_union. left.
      apply elem_of_list_to_set, elem_of_sinks. by exists tag. }
    split.
    + intros Hpth.
      assert (p ≠ tid) by (intros ->; congruence).
      assert (p < length (w_threads w)) by by eapply lookup_lt_Some.
      eexists. unfold step. simpl.
      rewrite list_lookup_insert_ne by done. rewrite Hpth. simpl.
      rewrite Hcl. split; [done|]. simpl.
      by rewrite list_lookup_insert_eq by (by rewrite length_insert).
    + intros evs Hpth.
      assert (p ≠ tid) by (intros ->; congruence).
      assert (p < length (w_threads w)) by by eapply lookup_lt_Some.
      eexists. unfold step. simpl.
      rewrite list_lookup_insert_ne by done. rewrite Hpth. simpl.
      rewrite Hcl. split; [done|]. simpl.
      by rewrite list_lookup_insert_eq by (by rewrite length_insert).
Qed.

(** ** The end of the read loop *)

Lemma note_redirect_closed r c :
  conn_closed (note_redirect r c) = conn_closed c.
Proof. unfold note_redirect. repeat case_match; done. Qed.

Lemma finished_stays (l : list thread) i tid th0 th' res :
  l !! i = Some (Finished res) → l !! tid = Some th0 →
  (∀ res', th0 ≠ Finished res') →
  <[tid := th']> l !! i = Some (Finished res).
Proof.
  intros Hi Ht Hne. rewrite list_lookup_insert_ne; [done|].
  intros ->. rewrite Hi in Ht. injection Ht as <-. by eapply Hne.
Qed.

Ltac decompose_hyps :=
  repeat match goal with
         | H : ∃ _, _ |- _ => destruct H as [? H]
         | H : _ ∧ _ |- _ => destruct H as [? H]
         end.

Lemma step_end_closed w a w' :
  wf w → ending w → step w a = Some w' →
  conn_closed (w_conn w') = [] ∨
  (conn_closed (w_conn w') = [true] ∧
   (w_threads w' !! 0 = Some (Finished RExit) ∨
    (w_threads w' !! 0 = Some RdPanicNotify ∧ w_panic w' = true))).
Proof.
  intros Hwf [Hcl Htd Hnil _] Hs. pose proof (wf_threads w Hwf) as Hthr.
  assert (w_panic w = false) as Hp.
  { unfold step in Hs. by destruct (w_panic w). }
  assert (conn_closed (w_conn w) = [] ∨
          (conn_closed (w_conn w) = [true] ∧
           w_threads w !! 0 = Some (Finished RExit))) as Hcl'.
  { destruct Hcl as [?|[? [?|[_ ?]]]]; [by left|by right|congruence]. }
  clear Hcl.
  inv_step Hs; simpl; try done.
  all: destruct_or?; decompose_hyps; simplify_eq/=; rewrite ?note_redirect_closed.
  all: try (by left).
  all: try match goal with
       | Ht : w_threads _ !! ?t = Some ?th0 |- _ =>
           assert (is_reader th0) as Hrd by done;
           destruct (Hthr _ _ Ht) as [Hz _]; specialize (Hz Hrd); subst t
       end.
  all: try congruence.
  all: right; split; [first [done|congruence|by rewrite H1]|].
  all: try (right; split; [|done];
            by apply list_lookup_insert_eq, lookup_lt_is_Some).
  all: left.
  all: rewrite ?lookup_app_l
         by (rewrite ?length_insert; by eapply lookup_lt_Some).
  all: try done.
  all: try (eapply finished_stays; [|eassumption|done]; done).
  all: by apply list_lookup_insert_eq, lookup_lt_is_Some.
Qed.

Lemma step_err_kept w a w' :
  step w a = Some w' → conn_err (w_conn w) ≠ None → conn_err (w_conn w') ≠ None.
Proof.
  intros Hs Herr. inv_step Hs; simpl; try done.
  all: destruct_or?; decompose_hyps; simplify_eq/=; try done.
  all: congruence.
Qed.

Lemma readR_Panics i : readR i = Panics → i = ReadSizeNegative.
Proof. by destruct i. Qed.

Ltac keep_lookup :=
  rewrite ?lookup_app_l by (rewrite ?length_insert; by eapply lookup_lt_Some);
  repeat (rewrite list_lookup_insert_ne by (intros ->; congruence));
  done.

Ltac reader_first Hthr :=
  try match goal with
      | Ht : w_threads _ !! ?t = Some ?th0 |- _ =>
          assert (is_reader th0) as Hrd by done;
          destruct (Hthr _ _ Ht) as [Hz _]; specialize (Hz Hrd); subst t
      end.

Lemma step_ending w a w' :
  wf w → safe w → table_alive w → ending w → step w a = Some w' → ending w'.
Proof.
  intros Hwf Hsafe Halive Hend Hs. pose proof (wf_threads w Hwf) as Hthr. split.
  - by eapply step_end_closed.
  - destruct Hend as [_ Htd Hnil _]. pose proof (step_err_kept _ _ _ Hs) as Hkept.
    inv_step Hs; simpl; try done.
    all: intros qi Hqi; split_lookups; simplify_eq/=.
    all: try (new_thread; fail).
    all: try (apply Hkept; by eapply Htd).
    all: try (by eapply Htd).
    all: try done.
    congruence.
  - destruct Hend as [_ Htd Hnil _]. pose proof (step_err_kept _ _ _ Hs) as Hkept.
    inv_step Hs; simpl; try done.
    all: try (intros _; left; by eapply Htd).
    all: try (intros _; right; reader_first Hthr;
              by apply list_lookup_insert_eq, lookup_lt_is_Some).
    all: intros Hnone; destruct (Hnil Hnone) as [Herr|Hun];
      [left; by apply Hkept|right].
    all: try keep_lookup.
    all: reader_first Hthr;
      first [congruence|by apply list_lookup_insert_eq, lookup_lt_is_Some].
  - destruct Hend as [_ _ _ Hpan].
    inv_step Hs; simpl; try done.
    all: intros qi qth Hqi Hqu; split_lookups; simplify_eq/=.
    all: try (new_thread; fail).
    all: rewrite ?elem_of_cons.
    all: try (by eauto).
    all: try match goal with
         | Hr : readR _ = Panics |- _ => apply readR_Panics in Hr as ->; by left
         end.
    all: try match goal with
         | Hr : receive ?t _ _ = Some _ |- _ =>
             destruct t; simpl in Hr; try done; case_bool_decide; simplify_eq;
             try done; unfold call_return in *; by repeat case_match
         end.
    all: by reader_sound Hsafe Halive.
Qed.

Lemma ending_dial addr : ending (dial_world addr).
Proof.
  split; simpl; [by left| |done|].
  - intros [|[|?]]; simpl; intros; simplify_eq.
  - intros [|[|?]] th; simpl; intros; by simplify_eq.
Qed.

Lemma reachable_ending addr sched w :
  run (dial_world addr) sched = Some w → ending w.
Proof.
  assert (∀ sched w0 w,
            wf w0 → safe w0 → table_alive w0 → ending w0 →
            run w0 sched = Some w → ending w) as Hgen.
  { clear. intros sched0. induction sched0 as [|a sched0 IH];
      intros w0 w1 Hwf Hsafe Halive He; simpl.
    - by intros [= <-].
    - destruct (step w0 a) as [w2|] eqn:Hs; [|done].
      apply IH; [by eapply step_wf|by eapply step_safe
                |by eapply step_table_alive|by eapply step_ending]. }
  apply Hgen; [apply wf_dial|apply safe_dial|by intros ?|apply ending_dial].
Qed.

(** X9.  In every run of a connection at most one value is ever sent on
    [c.closed], by the read loop as the last step of [close]; the
    channel has room for it, so this send never blocks and [close]
    always returns. *)
Theorem close_notifies_once addr sched w :
  run (dial_world addr) sched = Some w →
  (conn_closed (w_conn w) = [] ∨ conn_closed (w_conn w) = [true]) ∧
  (∀ tid inp,
     w_panic w = false → w_threads w !! tid = Some RdNotify →
     step w (ActStep tid inp)
     = Some (mkWorld (push_closed (w_conn w)) (w_next w) (w_closed w)
               (<[tid := Finished RExit]> (w_threads w)) (w_trace w) false) ∧
     conn_closed (push_closed (w_conn w)) = [true]).
Proof.
  intros Hrun. pose proof (reachable_wf _ _ _ Hrun) as Hwf.
  destruct (reachable_ending _ _ _ Hrun) as [Hcl _ _ _]. split.
  - destruct Hcl as [?|[? _]]; eauto.
  - intros tid inp Hp Hth.
    destruct (wf_threads w Hwf _ _ Hth) as [Hz _]. specialize (Hz I). subst tid.
    destruct Hcl as [Hcl|[_ [Hfin|[Hfin _]]]]; [|congruence..].
    unfold step. rewrite Hp, Hth. simpl. rewrite Hcl. done.
Qed.


(** X7.  In every run of a connection a step of [send], [call],
    [events], [cancel] or [readResponses] ends the program in a panic
    in three cases only: it writes to the table when the table is nil
    (the registration of [send], its cleanup, the release of [cancel],
    after [close] has run); a [Write] without error has reported a
    count that is negative or larger than what it was given to write,
    and [buf[n:]] is out of range; or [readR] has read a negative
    length prefix, and the deferred [close] has returned.  So no channel
    is closed twice, and the read loop never sends on a closed channel.
    And the read loop unwinds in a panic for no other reason than that
    negative length prefix. *)
Theorem panic_has_three_causes addr sched w a w' :
  run (dial_world addr) sched = Some w →
  step w a = Some w' →
  (w_panic w' = true →
   ∃ tid inp th,
     a = ActStep tid inp ∧ w_threads w !! tid = Some th ∧
     ((writes_table th ∧ conn_cb (w_conn w) = None) ∨
      (∃ k t tag ch i buf used n rest,
         th = SendWrite k t tag ch ∧ inp = InWrite i ∧
         conn_err (w_conn w) = None ∧
         wr_marshal i = inr buf ∧ wr_len i = None ∧
         wr_body i = used ++ (n, None) :: rest ∧ accepted used ∧
         (written used < Z.of_nat (length buf))%Z ∧
         (n < 0 ∨ Z.of_nat (length buf) - written used < n)%Z) ∨
      (th = RdPanicNotify ∧ EvRead ReadSizeNegative ∈ w_trace w))) ∧
  (∀ tid,
     w_threads w' !! tid = Some RdPanicTeardown →
     w_threads w !! tid = Some RdPanicTeardown ∨
     (a = ActStep tid (InRead ReadSizeNegative) ∧
      w_threads w !! tid = Some RdRead)).
Proof.
  intros Hrun Hs.
  pose proof (reachable_wf _ _ _ Hrun) as Hwf.
  pose proof (reachable_safe _ _ _ Hrun) as Hsafe.
  pose proof (reachable_table_alive _ _ _ Hrun) as Halive.
  destruct (reachable_ending _ _ _ Hrun) as [_ _ _ Hpan].
  split.
  - intros Hp.
    unfold step, step_thread, spawn, upd, upd_closed, crash in Hs.
    repeat (case_match; simplify_eq/=; try done).
    all: try (by destruct (cancel_reserve_not_Panics _ _ _ ltac:(eassumption))).
    all: try match goal with
         | Hc : close_table _ _ = Panics |- _ =>
             destruct (close_table_Returns w Hwf Hsafe) as [? Hc']; congruence
         | Hc : close_chan _ _ = Panics, Ht : w_threads _ !! _ = Some (CancelClose ?ch)
           |- _ =>
             unfold close_chan in Hc; case_bool_decide; [|done];
             by destruct (safe_cancel w Hsafe _ _ ch Ht) as (_ & _ & ?)
         end.
    all: eexists _, _, _; split; [done|]; split; [eassumption|].
    all: try (left; split; [done|];
              first [by eapply send_register_Panics
                    |by eapply send_unregister_Panics]).
    + right. left.
      match goal with
      | Hw : writeT _ _ = Panics |- _ =>
          apply writeT_Panics in Hw
            as (? & buf & used & n & rest & ? & ? & ? & ? & ? & ?)
      end.
      eexists _, _, _, _, _, buf, used, n, rest. done.
    + right. right. split; [done|]. by eapply Hpan.
  - intros tid Hth.
    inv_step Hs; simpl in *; try (by left).
    all: split_lookups; simplify_eq/=; try (by left).
    all: try (new_thread; fail).
    all: try match goal with
         | Hr : readR _ = Panics |- _ =>
             apply readR_Panics in Hr as ->; by right
         end.
    all: try match goal with
         | Hr : receive ?t _ _ = Some _ |- _ =>
             destruct t; simpl in Hr; try done; case_bool_decide; simplify_eq;
             unfold call_return in *; by repeat case_match
         end.
    all: by reader_sound Hsafe Halive.
Qed.

(** ** Requests and their answers *)

Lemma writeT_ok_wrote i c c' wrote :
  writeT i c = Returns (c', None, wrote) → wrote = true.
Proof. unfold writeT. repeat case_match; intros; simplify_eq; done. Qed.

Lemma sent_under_sub (tr tr' : list event) ch :
  (∀ e, e ∈ tr → e ∈ tr') → sent_under tr ch → sent_under tr' ch.
Proof. intros Hsub (t & tag & ? & ? & ?). exists t, tag. eauto. Qed.

Lemma thread_linked_sub (tr tr' : list event) th :
  (∀ e, e ∈ tr → e ∈ tr') → thread_linked tr th → thread_linked tr' th.
Proof.
  intros Hsub. destruct th; simpl; try done.
  - intros [? ?]. eauto.
  - by apply sent_under_sub.
  - by apply Hsub.
  - by apply sent_under_sub.
  - by apply sent_under_sub.
  - destruct res as [| [wt|] ?| |]; try done.
    intros [? ?]. split; [eauto|by eapply sent_under_sub].
Qed.

Ltac sub_tr :=
  let e := fresh "e" in
  let He := fresh "He" in
  intros e He; rewrite ?elem_of_app, ?elem_of_cons; tauto.

Ltac inv_step_wrote H :=
  unfold step, step_thread, spawn, upd, upd_closed, crash in H;
  repeat (case_match; simplify_eq/=; try done);
  repeat match goal with
         | Hw : writeT _ _ = Returns (_, None, ?b) |- _ =>
             lazymatch b with
             | true => fail
             | _ =>
                 let Hb := fresh "Hb" in
                 pose proof (writeT_ok_wrote _ _ _ _ Hw) as Hb;
                 first [discriminate Hb | subst b]
             end
         end;
  inv_sections.

Lemma step_linked w a w' : linked w → step w a = Some w' → linked w'.
Proof.
  intros Hold Hs. unfold linked in *.
  inv_step_wrote Hs; simpl; try done.
  all: intros qi qth Hqi; split_lookups; simplify_eq/=.
  all: try (eapply thread_linked_sub; [|by eapply Hold]; sub_tr).
  all: try (new_thread; fail).
  all: try done.
  all: try match goal with
       | Hr : receive ?t _ _ = Some _, Ht : w_threads _ !! _ = Some ?t |- _ =>
           destruct t; simpl in Hr; try done; case_bool_decide; simplify_eq;
           [unfold call_return; by repeat case_match|];
           pose proof (Hold _ _ Ht) as Hl; simpl in Hl; simpl;
           eapply sent_under_sub; [|exact Hl]; sub_tr
       end.
  all: try match goal with
       | Ht : w_threads _ !! _ = Some _ |- _ =>
           pose proof (Hold _ _ Ht) as Hl; simpl in Hl
       end.
  all: try (split; [done|by left]).
  all: try (eapply sent_under_sub; [|exact Hl]; sub_tr).
  all: try (destruct Hl as [Htag Hreg]).
  all: try (assert (sent_under (EvWrite t0 :: w_trace w) ch) as Hsent
              by (exists t0, tag; split_and!; [by left|done|by right])).
  all: try done.
  all: split; [by right|done].
Qed.

Lemma linked_dial addr : linked (dial_world addr).
Proof. intros [|[|?]] th; simpl; intros; by simplify_eq. Qed.

Lemma reachable_linked addr sched w :
  run (dial_world addr) sched = Some w → linked w.
Proof.
  assert (∀ sched w0 w, linked w0 → run w0 sched = Some w → linked w) as Hgen.
  { clear. intros sched0. induction sched0 as [|a sched0 IH];
      intros w0 w1 Hl; simpl.
    - by intros [= <-].
    - destruct (step w0 a) as [w2|] eqn:Hs; [|done].
      apply IH. by eapply step_linked. }
  apply Hgen, linked_dial.
Qed.

(** X6.  In every run of a connection, when the read loop hands a
    response to the goroutine that waits on a channel, be it a call or
    the forwarding goroutine of a stream, that channel has been
    registered under the tag of the response and under no other tag, and
    a request that carries this tag has been written before.  The tag is
    all that ties the response to a request. *)
Theorem delivery_follows_request_of_its_tag addr sched w tid p ch r pth pth' :
  run (dial_world addr) sched = Some w →
  w_threads w !! tid = Some (RdDeliver ch r) →
  w_threads w !! p = Some pth → receive pth ch r = Some pth' →
  (∃ t, EvWrite t ∈ w_trace w ∧ T_Tag t = Some (tagof r)) ∧
  EvRegister (tagof r) ch ∈ w_trace w ∧
  ∀ tag, EvRegister tag ch ∈ w_trace w → tag = tagof r.
Proof.
  intros Hrun Hth Hp Hrecv.
  pose proof (reachable_wf _ _ _ Hrun) as Hwf.
  pose proof (reachable_linked _ _ _ Hrun _ _ Hp) as Hl.
  destruct (wf_threads w Hwf _ _ Hth) as [_ [Hreg _]].
  assert (sent_under (w_trace w) ch) as (t & tag & Hw & Htag & Hreg').
  { destruct pth; simpl in Hrecv; try done; case_bool_decide; by simplify_eq. }
  split_and!; [|done|].
  - exists t. split; [done|].
    by rewrite (wf_reg_fun w Hwf _ _ _ Hreg Hreg').
  - intros tag' Hreg''. by eapply (wf_reg_fun w Hwf).
Qed.

(** X12.  In every run of a connection [cancel] gets past its check when
    the channel of its stream is still an entry of the table, which is
    then the entry of its tag; when the channel is no entry any more, and
    so whenever it has been closed (by the read loop for the last frame,
    by an earlier [cancel], by the teardown), [cancel] returns the
    bad-tag error and changes nothing. *)
Theorem cancel_fails_when_sink_gone addr sched w tid tag cb :
  run (dial_world addr) sched = Some w → w_panic w = false →
  w_threads w !! tid = Some (CancelCheck tag cb) →
  (in_table (conn_cb (w_conn w)) cb →
   cb_lookup (conn_cb (w_conn w)) tag = Some (Some cb)) ∧
  (¬ in_table (conn_cb (w_conn w)) cb →
   ∀ inp, step w (ActStep tid inp)
          = Some (mkWorld (w_conn w) (w_next w) (w_closed w)
                    (<[tid := Finished (RCancel (Some ErrBadTag))]> (w_threads w))
                    (w_trace w) false)) ∧
  (cb ∈ w_closed w → ¬ in_table (conn_cb (w_conn w)) cb).
Proof.
  intros Hrun Hp Hth.
  pose proof (reachable_wf _ _ _ Hrun) as Hwf.
  pose proof (reachable_safe _ _ _ Hrun) as Hsafe.
  pose proof (reachable_linked _ _ _ Hrun _ _ Hth) as Hreg. simpl in Hreg.
  split_and!.
  - intros (m & tg & Hm & Hl). rewrite Hm. simpl.
    pose proof (wf_tab_reg w Hwf _ _ _ Hm Hl) as Hreg'.
    by rewrite (wf_reg_fun w Hwf _ _ _ Hreg Hreg').
  - intros Hn inp. unfold step. rewrite Hp, Hth. simpl.
    unfold cancel_reserve.
    destruct (cb_lookup (conn_cb (w_conn w)) tag) as [c|] eqn:Hl; [|done].
    case_bool_decide; [|done]. subst c. exfalso. apply Hn.
    unfold cb_lookup in Hl. destruct (conn_cb (w_conn w)) as [m|]; [|done].
    by exists m, tag.
  - intros Hcl Hin. by apply (safe_tab_open w Hsafe) in Hin.
Qed.

Lemma R_err_None r : R_err r = None → ∃ r', r = Some r' ∧ R_ErrCode r' = None.
Proof.
  destruct r as [r|]; simpl; [|done]. intros Hr. exists r. split; [done|].
  destruct (R_ErrCode r); [|done]. by repeat case_match.
Qed.

Lemma res_exclusive_send_failed k e :
  ∀ res, send_failed k e = Finished res → res_exclusive res.
Proof. destruct k as [[|??]|]; simpl; intros res [= <-]; done. Qed.

Lemma res_exclusive_call_return who r :
  ∀ res, call_return who r = Finished res → res_exclusive res.
Proof.
  unfold call_return. destruct (R_err r) as [e|] eqn:He; destruct who;
    intros res [= <-]; simpl; try done.
  by apply R_err_None in He as (r' & -> & ?).
Qed.

Lemma step_res_exclusive w a w' :
  (∀ tid res, w_threads w !! tid = Some (Finished res) → res_exclusive res) →
  step w a = Some w' →
  ∀ tid res, w_threads w' !! tid = Some (Finished res) → res_exclusive res.
Proof.
  intros Hold Hs.
  inv_step Hs; simpl; try done.
  all: intros qi qres Hqi; split_lookups; simplify_eq/=.
  all: try (by eapply Hold).
  all: try (by eapply res_exclusive_send_failed).
  all: try (by eapply res_exclusive_call_return).
  all: try done.
  all: destruct t; simpl in *; try done; case_bool_decide; simplify_eq.
  all: by eapply res_exclusive_call_return.
Qed.

Lemma reachable_res_exclusive addr sched w :
  run (dial_world addr) sched = Some w →
  ∀ tid res, w_threads w !! tid = Some (Finished res) → res_exclusive res.
Proof.
  assert (∀ sched w0 w,
            (∀ tid res, w_threads w0 !! tid = Some (Finished res) →
                        res_exclusive res) →
            run w0 sched = Some w →
            ∀ tid res, w_threads w !! tid = Some (Finished res) →
                       res_exclusive res) as Hgen.
  { clear. intros sched0. induction sched0 as [|a sched0 IH];
      intros w0 w1 Hl; simpl.
    - by intros [= <-].
    - destruct (step w0 a) as [w2|] eqn:Hs; [|done].
      apply IH. by eapply step_res_exclusive. }
  intros Hrun. eapply Hgen; [|done].
  intros [|[|?]] res; simpl; intros; simplify_eq.
Qed.

(** X5.  In every run of a connection a call hands back either a
    response or an error, never both and never neither, and a response
    that is handed back has no error code; likewise [events] hands back
    either a Watch or an error. *)
Theorem call_returns_response_or_error addr sched w tid :
  run (dial_world addr) sched = Some w →
  (∀ r err,
     w_threads w !! tid = Some (Finished (RCall r err)) →
     (∃ r', r = Some r' ∧ err = None ∧ R_ErrCode r' = None) ∨
     (r = None ∧ ∃ e, err = Some e)) ∧
  (∀ wt err,
     w_threads w !! tid = Some (Finished (RWatch wt err)) →
     (∃ wt', wt = Some wt' ∧ err = None) ∨ (wt = None ∧ ∃ e, err = Some e)).
Proof.
  intros Hrun. pose proof (reachable_res_exclusive _ _ _ Hrun) as Hex.
  split.
  - intros r err Hth. specialize (Hex _ _ Hth). simpl in Hex.
    destruct r as [r|], err as [e|]; try done; eauto 10.
  - intros wt err Hth. specialize (Hex _ _ Hth). simpl in Hex.
    destruct wt as [wt|], err as [e|]; try done; eauto 10.
Qed.

(** ** Redirects *)

Lemma note_redirect_state r c :
  redirect_state (note_redirect r c)
  = if is_redirect r then (true, GetString (R_ErrDetail r)) else redirect_state c.
Proof.
  unfold note_redirect, is_redirect.
  destruct (R_ErrCode r) as [code|]; [|done].
  do 2 case_bool_decide; simplify_eq; done.
Qed.

Lemma step_redirect_ok w a w' : redirect_ok w → step w a = Some w' → redirect_ok w'.
Proof.
  unfold redirect_ok. intros Hold Hs.
  inv_step Hs; simpl; try done.
  all: destruct_or?; decompose_hyps; simplify_eq/=; try done.
  all: repeat match goal with
              | |- context [(if ?b then _ else _) ++ _] => destruct b; simpl
              end; try done.
  all: rewrite note_redirect_state; destruct (is_redirect r); by simplify_eq.
Qed.

(** X11.  In every run of a connection the two fields for redirects say
    whether a REDIRECT response has been read and hold the detail of the
    latest one: nothing else writes them, and nothing resets them. *)
Theorem redirect_remembered addr sched w :
  run (dial_world addr) sched = Some w →
  (conn_redirected (w_conn w), conn_redirectAddr (w_conn w))
  = match last_redirect (w_trace w) with
    | Some a => (true, a)
    | None => (false, EmptyString)
    end.
Proof.
  assert (∀ sched w0 w, redirect_ok w0 → run w0 sched = Some w → redirect_ok w)
    as Hgen.
  { clear. intros sched0. induction sched0 as [|a sched0 IH];
      intros w0 w1 Hl; simpl.
    - by intros [= <-].
    - destruct (step w0 a) as [w2|] eqn:Hs; [|done].
      apply IH. by eapply step_redirect_ok. }
  intros Hrun. by apply (Hgen _ _ _ (eq_refl : redirect_ok (dial_world addr)) Hrun).
Qed.

(** ** Sinks that are left open *)

Lemma step_abandoned w a w' ch :
  abandoned w ch → step w a = Some w' → abandoned w' ch.
Proof.
  intros (Hlt & Hnc & Hnt & Hthr) Hs.
  assert (∀ (m : gmap Z (option chan)) tag,
            conn_cb (w_conn w) = Some m → m !! tag = Some (Some ch) → False)
    as Hnt'.
  { intros m tag Hm Hl. apply Hnt. by exists m, tag. }
  assert (∀ tag c, cb_lookup (conn_cb (w_conn w)) tag = Some (Some c) → c ≠ ch)
    as Hlook.
  { intros tag c Hl ->. unfold cb_lookup in Hl.
    destruct (conn_cb (w_conn w)) as [m|] eqn:Hm; [|done]. by eapply Hnt'. }
  unfold abandoned.
  inv_step_closed Hs; simpl.
  all: repeat match goal with
              | Hc : conn_cb (w_conn ?w) = Some _ |- _ => rewrite Hc in *
              end.
  all: split_and!.
  all: try lia.
  all: try done.
  all: try (by intros ?%in_table_delete).
  all: try (by intros ?%in_table_insert_nil).
  all: try (by intros []%in_table_nil).
  all: try (by apply not_in_table_insert_new).
  all: try match goal with
       | |- _ ∉ _ ∪ _ =>
           intros [Hin|Hin]%elem_of_union; [|done];
           first [ apply elem_of_list_to_set, elem_of_sinks in Hin as [tg Hl];
                   destruct (conn_cb (w_conn w)) eqn:Hm; simpl in Hl;
                   [by eapply Hnt'|by rewrite lookup_empty in Hl]
                 | apply elem_of_singleton in Hin as <-;
                   match goal with
                   | Ht : w_threads _ !! _ = Some _ |- _ =>
                       destruct (Hthr _ _ Ht) as [Hr Hc]; simpl in Hr, Hc;
                       first [congruence|by eapply Hr]
                   end ]
       end.
  all: intros qi qth Hqi; split_lookups; simplify_eq/=.
  all: try (by eapply Hthr).
  all: try (split; [by intros ?|done]).
  all: try match goal with
       | Ht : w_threads _ !! _ = Some _ |- _ =>
           destruct (Hthr _ _ Ht) as [Hr Hc]; simpl in Hr, Hc
       end.
  all: try (split; [first [by intros ?|done]|first [done|congruence]]).
  all: try match goal with
       | Hl : cb_lookup _ _ = Some (Some ?c) |- _ => apply Hlook in Hl
       end.
  all: try (split; [intros ?|]; congruence).
  all: try match goal with
       | Hl : ?x !! ?tag = Some (Some ?c) |- _ =>
           assert (c ≠ ch) by (intros ->; by eapply Hnt')
       end.
  all: try (split; [intros ?|]; congruence).
  all: try (unfold send_failed, call_return;
            repeat case_match; simplify_eq/=;
            (split; [by intros ?|first [done|congruence]])).
  all: try match goal with
       | Hr : receive ?t _ _ = Some _, Ht : w_threads _ !! _ = Some ?t |- _ =>
           destruct (Hthr _ _ Ht) as [Hr' Hc']; simpl in Hr', Hc';
           destruct t; simpl in Hr; try done; case_bool_decide; simplify_eq;
           unfold call_return; repeat case_match; simplify_eq/=;
           (split; [by intros ?|first [done|congruence]])
       end.
  all: match goal with
       | Ht : w_threads _ !! _ = Some (RdDeliver _ _) |- _ =>
           destruct (Hthr _ _ Ht) as [Hr0 _]; simpl in Hr0;
           split; [intros d ?; simplify_eq; by eapply Hr0|done]
       end.
Qed.

(** A goroutine that waits on such a channel waits for ever. *)
Lemma step_waits w a w' ch p th :
  abandoned w ch → w_threads w !! p = Some th → waits_on th ch →
  step w a = Some w' → w_threads w' !! p = Some th.
Proof.
  intros (Hlt & Hnc & Hnt & Hthr) Hp Hwait Hs.
  assert (bool_decide (ch ∈ w_closed w) = false) as Hcl
    by by apply bool_decide_eq_false_2.
  inv_step Hs; simpl.
  all: try (by apply lookup_app_l_Some).
  all: try (apply lookup_app_l_Some).
  all: try match goal with
       | |- <[?t := _]> (w_threads _) !! _ = _ =>
           destruct (decide (t = p)) as [->|Hne];
           [rewrite Hp in *; simplify_eq/=; try done; try congruence
           |by rewrite list_lookup_insert_ne]
       end.
  all: try match goal with
       | |- <[?t := _]> (<[?q := _]> _) !! _ = _ =>
           destruct (decide (t = p)) as [->|Hne];
           [rewrite Hp in *; by simplify_eq/=|];
           rewrite list_lookup_insert_ne by done;
           destruct (decide (q = p)) as [->|Hne'];
           [|by rewrite list_lookup_insert_ne];
           rewrite Hp in *; simplify_eq/=
       end.
  all: match goal with
       | Ht : w_threads _ !! _ = Some (RdDeliver ?c _),
         Hr : receive ?t ?c _ = Some _ |- _ =>
           destruct (Hthr _ _ Ht) as [Hr0 _]; simpl in Hr0;
           destruct t; simpl in Hwait, Hr; try done;
           repeat case_bool_decide; simplify_eq;
           by destruct (Hr0 (is_done r))
       end.
Qed.

Lemma run_abandoned sched w w' ch p th :
  abandoned w ch → w_threads w !! p = Some th → waits_on th ch →
  run w sched = Some w' →
  abandoned w' ch ∧ w_threads w' !! p = Some th.
Proof.
  revert w. induction sched as [|a sched IH]; intros w Hab Hp Hwait; simpl.
  - by intros [= <-].
  - destruct (step w a) as [w1|] eqn:Hs; [|done].
    apply IH; [by eapply step_abandoned|by eapply step_waits|done].
Qed.

Lemma waits_blocked w ch p th inp :
  ch ∉ w_closed w → w_threads w !! p = Some th → waits_on th ch →
  step w (ActStep p inp) = None.
Proof.
  intros Hnc Hp Hwait. unfold step. destruct (w_panic w); [done|].
  rewrite Hp. destruct th; simpl in *; try done; subst.
  all: by rewrite bool_decide_eq_false_2.
Qed.


(** After the teardown a channel that is still open, and that no
    [cancel] holds, is left to nobody. *)
Lemma torn_down_abandoned w ch p th :
  wf w → table_alive w → linked w →
  conn_cb (w_conn w) = None →
  w_threads w !! p = Some th → waits_on th ch → ch ∉ w_closed w →
  (∀ tid th', w_threads w !! tid = Some th' → cancel_holds th' ≠ Some ch) →
  abandoned w ch.
Proof.
  intros Hwf Halive Hlinked Hnone Hp Hwait Hnc Hcan.
  split_and!; [|done|rewrite Hnone; apply in_table_nil|].
  - assert (sent_under (w_trace w) ch) as (t & tag & _ & _ & Hreg).
    { pose proof (Hlinked _ _ Hp) as Hl.
      destruct th; simpl in Hwait, Hl; try done; by subst. }
    by eapply (wf_reg_lt w Hwf).
  - intros tid th' Hth. split; [|by eapply Hcan].
    intros d Hh. pose proof (reader_holds_reader _ _ Hh) as Hrd.
    destruct (Halive Hnone _ _ Hth Hrd) as [->| ->]; done.
Qed.

(** ** The entry of a send in flight *)



(** ** cancel, the streams and the failed send in every run *)


(** C7, as the code has it.  In every run of a connection: the event
    made of a delivered response carries the error of that response, if
    it has one; after publishing an event, with or without an error, the
    forwarding goroutine goes back to its channel, so such an event ends
    the sequence only if the channel is closed next; when the channel is
    closed, by the read loop for a [Done] frame, by [cancel] or by the
    teardown of the connection, the goroutine closes the output and
    publishes nothing; every event ever published is the event made of a
    response that was delivered, so a teardown adds no event.  The
    teardown closes the channels that are entries of the table, and no
    other: the stream whose channel is one of them has its output closed
    next; but a channel whose tag a [cancel] holds reserved is passed
    over, and once the table is nil and no [cancel] holds the channel
    any more, it is never closed: the forwarding goroutine stays at its
    channel for ever, and the output is neither closed nor fed again. *)
Theorem forwarder_republishes addr sched w :
  run (dial_world addr) sched = Some w →
  (∀ r, Ev_Err (event_of r) = R_err (Some r)) ∧
  (∀ tid p cb evs r,
     w_panic w = false → cb ∉ w_closed w → p ≠ tid →
     w_threads w !! tid = Some (RdDeliver cb r) →
     w_threads w !! p = Some (FwdRecv cb evs) →
     ∃ w1 w2,
       step w (ActStep tid (InPartner p)) = Some w1 ∧
       w_threads w1 !! p = Some (FwdSend cb evs (event_of r)) ∧
       step w1 (ActStep p InNone) = Some w2 ∧
       w_threads w2 !! p = Some (FwdRecv cb evs) ∧
       w_trace w2 = EvEmit evs (event_of r) :: EvDeliver cb r :: w_trace w) ∧
  (∀ p cb evs,
     w_panic w = false → cb ∈ w_closed w →
     w_threads w !! p = Some (FwdRecv cb evs) →
     ∃ w2,
       run w [ActStep p InNone; ActStep p InNone] = Some w2 ∧
       w_threads w2 !! p = Some (Finished RExit) ∧
       w_trace w2 = EvEmitClose evs :: w_trace w) ∧
  (∀ evs ev,
     EvEmit evs ev ∈ w_trace w →
     ∃ ch r, EvDeliver ch r ∈ w_trace w ∧ ev = event_of r) ∧
  (∀ tid,
     w_panic w = false → w_threads w !! tid = Some RdTeardown →
     ∃ m w1,
       conn_cb (w_conn w) = Some m ∧
       (∀ inp, step w (ActStep tid inp) = Some w1) ∧
       conn_cb (w_conn w1) = None ∧
       (∀ ch, ch ∈ w_closed w1 ↔
              ch ∈ w_closed w ∨ ∃ tag, m !! tag = Some (Some ch)) ∧
       ∀ p tag cb evs,
         m !! tag = Some (Some cb) →
         w_threads w !! p = Some (FwdRecv cb evs) →
         ∃ w3,
           run w1 [ActStep p InNone; ActStep p InNone] = Some w3 ∧
           w_threads w3 !! p = Some (Finished RExit) ∧
           w_trace w3 = EvEmitClose evs :: EvTeardown :: w_trace w) ∧
  (∀ p cb evs,
     conn_cb (w_conn w) = None →
     w_threads w !! p = Some (FwdRecv cb evs) →
     (∀ tid th, w_threads w !! tid = Some th → cancel_holds th ≠ Some cb) →
     cb ∉ w_closed w →
     ∀ sched' w',
       run w sched' = Some w' →
       w_threads w' !! p = Some (FwdRecv cb evs) ∧
       (∀ inp, step w' (ActStep p inp) = None) ∧
       cb ∉ w_closed w').
Proof.
  intros Hrun. pose proof (reachable_wf _ _ _ Hrun) as Hwf.
  pose proof (reachable_safe _ _ _ Hrun) as Hsafe.
  pose proof (reachable_table_alive _ _ _ Hrun) as Halive.
  split_and!.
  - apply event_of_Err.
  - intros tid p cb evs r Hp Hcl Hne Hth Hpth.
    apply (bool_decide_eq_false_2 (cb ∈ w_closed w)) in Hcl.
    assert (tid < length (w_threads w)) by by eapply lookup_lt_Some.
    assert (p < length (w_threads w)) by by eapply lookup_lt_Some.
    eexists _, _. split_and!.
    + unfold step. rewrite Hp, Hth. simpl. rewrite Hcl, Hpth. simpl.
      by rewrite bool_decide_eq_true_2 by done.
    + simpl. rewrite list_lookup_insert_ne by done.
      by rewrite list_lookup_insert_eq by done.
    + unfold step. simpl. rewrite list_lookup_insert_ne by done.
      by rewrite list_lookup_insert_eq by done.
    + simpl. by rewrite list_lookup_insert_eq by (by rewrite ?length_insert).
    + done.
  - intros p cb evs Hp Hcl Hpth.
    apply (bool_decide_eq_true_2 (cb ∈ w_closed w)) in Hcl.
    assert (p < length (w_threads w)) by by eapply lookup_lt_Some.
    eexists. split_and!.
    + simpl. unfold step at 1. rewrite Hp, Hpth. simpl. rewrite Hcl.
      unfold step. simpl. by rewrite list_lookup_insert_eq by done.
    + simpl. by rewrite list_lookup_insert_eq by (by rewrite ?length_insert).
    + done.
  - apply Hwf.
  - intros tid Hp Hth.
    destruct (conn_cb (w_conn w)) as [m|] eqn:Hm; last first.
    { by destruct (Halive Hm _ _ Hth ltac:(done)). }
    destruct (close_table_Returns w Hwf Hsafe) as [[c' closed'] Hc].
    pose proof Hc as Hc'. apply close_table_closed in Hc' as [-> ->].
    rewrite Hm in *. simpl in *.
    assert (tid < length (w_threads w)) as Hlen by by eapply lookup_lt_Some.
    eexists m, _. split_and!.
    + done.
    + intros inp. unfold step. rewrite Hp, Hth. simpl. rewrite Hc. done.
    + done.
    + intros ch. simpl. rewrite elem_of_union, elem_of_list_to_set, elem_of_sinks.
      tauto.
    + intros p tag cb evs Hl Hpth.
      assert (bool_decide (cb ∈ list_to_set (sinks m) ∪ w_closed w) = true) as Hcl.
      { apply bool_decide_eq_true_2, elem_of_union. left.
        apply elem_of_list_to_set, elem_of_sinks. by exists tag. }
      assert (p ≠ tid) by (intros ->; congruence).
      assert (p < length (w_threads w)) by by eapply lookup_lt_Some.
      eexists. split_and!.
      * simpl. unfold step at 1. simpl.
        rewrite list_lookup_insert_ne by done. rewrite Hpth. simpl.
        rewrite Hcl. unfold step. simpl.
        by rewrite list_lookup_insert_eq by (by rewrite length_insert).
      * simpl. by rewrite list_lookup_insert_eq by (by rewrite ?length_insert).
      * done.
  - intros p cb evs Hnone Hpth Hcan Hcl sched' w' Hrun'.
    assert (abandoned w cb) as Hab.
    { eapply (torn_down_abandoned w cb p (FwdRecv cb evs)); try done.
      by eapply reachable_linked. }
    destruct (run_abandoned _ _ _ _ _ _ Hab Hpth eq_refl Hrun') as [Hab' Hp'].
    split_and!; [done| |by destruct Hab' as (_ & ? & _)].
    intros inp. eapply waits_blocked; [|done|done].
    by destruct Hab' as (_ & ? & _).
Qed.


End ConnFacts.

(** * The cluster session: properties *)

Section ClientFacts.
Context `{codes : !RespCodes}.

(** ** connect *)

Lemma range_first_elem env a addr : range_first env a = Some addr → addr ∈ a.
Proof.
  unfold range_first. intros Hl. apply elem_of_elements.
  by eapply list_elem_of_lookup_2.
Qed.

Lemma range_first_None env a : range_first env a = None → a = ∅.
Proof.
  unfold range_first. intros Hl. apply lookup_ge_None in Hl.
  change (length (elements a)) with (size a) in Hl.
  destruct (decide (size a = 0)) as [Hz|Hnz]; [by apply leibniz_equiv, size_empty_iff|].
  pose proof (Nat.mod_upper_bound (de_first env a) (size a) Hnz). lia.
Qed.

Lemma size_difference_elem (a : gset string) addr :
  addr ∈ a → size (a ∖ {[addr]}) < size a.
Proof.
  intros Hin. apply subset_size. split.
  - by intros x [Hx _]%elem_of_difference.
  - intros Hsub. apply Hsub in Hin. apply elem_of_difference in Hin as [_ Hn].
    apply Hn. by apply elem_of_singleton.
Qed.

Lemma elem_of_difference_ne (a : gset string) x addr :
  x ∈ a → x ≠ addr → x ∈ a ∖ {[addr]}.
Proof.
  intros Hx Hne. apply elem_of_difference. split; [done|].
  by intros ?%elem_of_singleton.
Qed.

Lemma connect_total env a fuel :
  size a < fuel → is_Some (connect fuel env a).
Proof.
  revert a. induction fuel as [|f IH]; intros a Hsz; [lia|]. simpl.
  destruct (range_first env a) as [addr|] eqn:Hr; [|by eexists].
  destruct (de_dial env addr); [by eexists|].
  apply IH. apply range_first_elem in Hr.
  pose proof (size_difference_elem _ _ Hr). lia.
Qed.

(** When [connect] gives up, the pool is empty and the dial of every
    address it held has failed. *)
Lemma connect_gives_up env a fuel a' :
  connect fuel env a = Some (None, a') →
  a' = ∅ ∧ ∀ x, x ∈ a → de_dial env x = false.
Proof.
  revert a. induction fuel as [|f IH]; intros a; simpl; [done|].
  destruct (range_first env a) as [addr|] eqn:Hr.
  - destruct (de_dial env addr) eqn:Hd; [done|]. intros Hc.
    destruct (IH _ Hc) as [-> Hall]. split; [done|]. intros x Hx.
    destruct (decide (x = addr)) as [->|Hne]; [done|].
    apply Hall. by apply elem_of_difference_ne.
  - intros [= <-]. apply range_first_None in Hr as ->. split; [done|].
    intros x Hx. by apply elem_of_empty in Hx.
Qed.

Lemma connect_all_fail env a fuel :
  size a < fuel → (∀ x, x ∈ a → de_dial env x = false) →
  connect fuel env a = Some (None, ∅).
Proof.
  revert a. induction fuel as [|f IH]; intros a Hsz Hall; [lia|]. simpl.
  destruct (range_first env a) as [addr|] eqn:Hr.
  - pose proof (range_first_elem _ _ _ Hr) as Hin. rewrite (Hall _ Hin).
    apply IH.
    + pose proof (size_difference_elem _ _ Hin). lia.
    + intros x [Hx _]%elem_of_difference. by apply Hall.
  - by apply range_first_None in Hr as ->.
Qed.

(** [connect] returns: every failed dial takes an address out of the
    pool. *)
Lemma reconnect_total env a : is_Some (reconnect env a).
Proof.
  unfold reconnect.
  destruct (connect_total env a (S (size a))) as [[[addr|] a'] ->]; [lia|..];
    by eexists.
Qed.

Lemma reconnect_Stopped_inv env a :
  reconnect env a = Some Stopped → ∀ x, x ∈ a → de_dial env x = false.
Proof.
  unfold reconnect.
  destruct (connect (S (size a)) env a) as [[[addr|] a']|] eqn:Hc; try done.
  intros _. by apply connect_gives_up in Hc as [_ Hall].
Qed.

(** ** The session without addresses *)

(** [run] returns only from a [connect] that has found no address to
    dial. *)
Lemma session_step_Stopped_inv s ev :
  session_step s ev = Some Stopped → pool_exhausted s ev.
Proof.
  destruct s as [a c|]; [|done]. destruct ev; simpl; try done.
  intros Hr. exists a, c, env. split_and!; [done..|].
  intros x Hx Hne. apply (reconnect_Stopped_inv _ _ Hr).
  by apply elem_of_difference_ne.
Qed.

Lemma session_run_Stopped_inv evs s :
  session_run s evs = Some Stopped →
  s = Stopped ∨
  ∃ evs0 s0 ev,
    evs = evs0 ++ [ev] ∧ session_run s evs0 = Some s0 ∧ pool_exhausted s0 ev.
Proof.
  revert s. induction evs as [|ev evs IH]; intros s; simpl.
  - intros [= ->]. by left.
  - destruct (session_step s ev) as [s1|] eqn:Hs; [|done]. intros Hrun.
    right. destruct (IH _ Hrun) as [->|(evs0 & s0 & ev0 & -> & Hrun0 & Hex)].
    + destruct evs; [|done].
      exists [], s, ev. split_and!; [done..|]. by apply session_step_Stopped_inv.
    + exists (ev :: evs0), s0, ev0. split_and!; [done| |done].
      simpl. by rewrite Hs.
Qed.

Lemma session_run_Stopped evs s : session_run Stopped evs = Some s → s = Stopped ∧ evs = [].
Proof. destruct evs; simpl; [|done]. by intros [= <-]. Qed.

Lemma retry_Stopped t rounds res :
  retry Stopped t rounds = Some res → res = (None, Some ErrNoAddrs).
Proof.
  destruct rounds as [|rd rounds]; simpl; [done|].
  destruct (session_run Stopped (rd_events rd)) as [s|] eqn:Hs; [|done].
  apply session_run_Stopped in Hs as [-> _]. simpl. by intros [= <-].
Qed.

(** C8.  When the dial of every address of the pool fails, [connect]
    empties the pool and gives up, at the start of [run] as well as
    after the loss of a connection, and [run] returns.  From then on no
    request to the session is served any more, an added address
    included, so the session stays as it is whatever is asked of it; and
    [call], [retry], [Watch], [Walk] and [Getdir] all return the error
    of no known address.  [connect] always returns, and [run] returns in
    no other way than this. *)
Theorem exhausted_pool_is_terminal :
  (∀ env a,
     (∀ x, x ∈ a → de_dial env x = false) →
     connect (S (size a)) env a = Some (None, ∅) ∧
     reconnect env a = Some Stopped) ∧
  (∀ env addr, de_dial env addr = false → New env addr = Some Stopped) ∧
  (∀ env a c,
     (∀ x, x ∈ a → x ≠ c → de_dial env x = false) →
     session_step (Running a c) (SClosed env) = Some Stopped) ∧
  (∀ ev, session_step Stopped ev = None) ∧
  (∀ evs s, session_run Stopped evs = Some s → s = Stopped) ∧
  recv_c Stopped = None ∧
  (∀ env t, Client_call env Stopped t = (None, Some ErrNoAddrs)) ∧
  (∀ t rounds res,
     retry Stopped t rounds = Some res → res = (None, Some ErrNoAddrs)) ∧
  (∀ t rd rounds,
     rd_events rd = [] →
     retry Stopped t (rd :: rounds) = Some (None, Some ErrNoAddrs)) ∧
  (∀ env glob from,
     Client_Watch env Stopped glob from = (None, Some ErrNoAddrs)) ∧
  (∀ env glob rev offset limit,
     Client_Walk env Stopped glob rev offset limit = (None, Some ErrNoAddrs)) ∧
  (∀ env path offset limit rev,
     Client_Getdir env Stopped path offset limit rev
     = (None, Some ErrNoAddrs)) ∧
  (∀ env a, is_Some (reconnect env a)) ∧
  (∀ s ev, session_step s ev = Some Stopped → pool_exhausted s ev).
Proof.
  assert (∀ env a, (∀ x, x ∈ a → de_dial env x = false) →
                   connect (S (size a)) env a = Some (None, ∅)) as Hc.
  { intros env a Hall. apply connect_all_fail; [lia|done]. }
  assert (∀ env a, (∀ x, x ∈ a → de_dial env x = false) →
                   reconnect env a = Some Stopped) as Hr.
  { intros env a Hall. unfold reconnect. by rewrite Hc. }
  split_and!; try done.
  - intros env a Hall. split; [by apply Hc|by apply Hr].
  - intros env addr Hd. apply Hr. intros x ->%elem_of_singleton. done.
  - intros env a c Hall. simpl. apply Hr. intros x Hx.
    apply elem_of_difference in Hx as [Hx Hne]. apply Hall; [done|].
    intros ->. apply Hne. by apply elem_of_singleton.
  - intros evs s Hs. by apply session_run_Stopped in Hs as [-> _].
  - apply retry_Stopped.
  - intros t rd rounds Hev. simpl. by rewrite Hev.
  - apply reconnect_total.
  - apply session_step_Stopped_inv.
Qed.

(** ** retry *)

Lemma session_run_app s evs1 evs2 :
  session_run s (evs1 ++ evs2)
  = match session_run s evs1 with
    | Some s' => session_run s' evs2
    | None => None
    end.
Proof.
  revert s. induction evs1 as [|ev evs1 IH]; intros s; simpl; [done|].
  destruct (session_step s ev); [apply IH|done].
Qed.

Lemma retry_ErrNoAddrs s t rounds r :
  Forall (λ rd, ∀ c, call_outcome (ce_call (rd_conn rd) c t)) rounds →
  retry s t rounds = Some (r, Some ErrNoAddrs) →
  ∃ pre post s',
    rounds = pre ++ post ∧ session_run s (served pre) = Some s' ∧
    recv_c s' = None.
Proof.
  revert s. induction rounds as [|rd rounds IH]; intros s Hall; simpl; [done|].
  apply Forall_cons in Hall as [Hrd Hall].
  destruct (session_run s (rd_events rd)) as [s1|] eqn:Hs; [|done].
  destruct (recv_c s1) as [c|] eqn:Hc.
  - destruct (rd_err rd).
    + intros Hret. destruct (IH _ Hall Hret) as (pre & post & s' & -> & Hrun & Hn).
      exists (rd :: pre), post, s'. split_and!; [done| |done].
      unfold served. simpl. by rewrite session_run_app, Hs.
    + intros [= Hres]. specialize (Hrd c).
      apply call_outcome_not_ErrNoAddrs in Hrd.
      rewrite Hres in Hrd. by destruct Hrd.
  - intros _. exists [rd], rounds, s1. split_and!; [done| |done].
    unfold served. simpl. by rewrite app_nil_r.
Qed.

(** C9.  One turn of [retry], after the session has served what it had
    to serve: if the session has no connection to hand out, [retry]
    returns the error of no known address; if the connection it got has
    its error set after the call, the outcome of that call is dropped,
    whatever it was, and [retry] goes on with the next turn, fetching
    the connection anew; otherwise it returns the outcome of the call.
    As no call on a connection yields the error of no known address,
    [retry] returns that error only when the session had no connection
    to hand out: [run] had returned, before [retry] began or during it,
    and then because the session lost its connection and no address
    left in the pool could be dialled. *)
Theorem retry_reissues s t rd rest s1 :
  session_run s (rd_events rd) = Some s1 →
  (recv_c s1 = None → retry s t (rd :: rest) = Some (None, Some ErrNoAddrs)) ∧
  (∀ c e,
     recv_c s1 = Some c → rd_err rd = Some e →
     retry s t (rd :: rest) = retry s1 t rest) ∧
  (∀ c,
     recv_c s1 = Some c → rd_err rd = None →
     retry s t (rd :: rest) = Some (ce_call (rd_conn rd) c t)) ∧
  (∀ r,
     Forall (λ rd, ∀ c, call_outcome (ce_call (rd_conn rd) c t)) (rd :: rest) →
     retry s t (rd :: rest) = Some (r, Some ErrNoAddrs) →
     ∃ pre post s',
       rd :: rest = pre ++ post ∧ session_run s (served pre) = Some s' ∧
       s' = Stopped ∧
       (s = Stopped ∨
        ∃ evs0 s0 ev,
          served pre = evs0 ++ [ev] ∧ session_run s evs0 = Some s0 ∧
          pool_exhausted s0 ev)).
Proof.
  intros Hs. split_and!.
  - intros Hc. simpl. by rewrite Hs, Hc.
  - intros c e Hc He. simpl. by rewrite Hs, Hc, He.
  - intros c Hc He. simpl. by rewrite Hs, Hc, He.
  - intros r Hall Hret.
    destruct (retry_ErrNoAddrs _ _ _ _ Hall Hret)
      as (pre & post & s' & ? & Hrun & Hn).
    destruct s'; [done|].
    exists pre, post, Stopped. split_and!; [done..|].
    by apply session_run_Stopped_inv.
Qed.

(** ** connect, run and retry as a whole; the operations; monitorAddrs *)

(** X13.  When [connect] returns a connection, the dial of its address
    has succeeded and the address is still in the pool; the addresses
    that have left the pool are addresses whose dial has failed, and no
    address has joined it. *)
Theorem connect_keeps_what_it_dials env a fuel addr a' :
  connect fuel env a = Some (Some addr, a') →
  de_dial env addr = true ∧ addr ∈ a' ∧ a' ⊆ a ∧
  ∀ x, x ∈ a → x ∉ a' → de_dial env x = false.
Proof.
  revert a. induction fuel as [|f IH]; intros a; simpl; [done|].
  destruct (range_first env a) as [x0|] eqn:Hr; [|done].
  destruct (de_dial env x0) eqn:Hd.
  - intros [= <- <-]. split_and!; [done|by eapply range_first_elem|done|done].
  - intros Hc. destruct (IH _ Hc) as (Hok & Hin & Hsub & Hgone).
    split_and!; [done|done| |].
    + intros x Hx. apply Hsub in Hx. by apply elem_of_difference in Hx as [? _].
    + intros x Hx Hnx. destruct (decide (x = x0)) as [->|Hne]; [done|].
      apply Hgone; [|done]. by apply elem_of_difference_ne.
Qed.

Lemma reconnect_Running_inv env a a' c' :
  reconnect env a = Some (Running a' c') →
  de_dial env c' = true ∧ c' ∈ a' ∧ a' ⊆ a ∧
  ∀ x, x ∈ a → x ∉ a' → de_dial env x = false.
Proof.
  unfold reconnect.
  destruct (connect (S (size a)) env a) as [[[addr|] a0]|] eqn:Hc; try done.
  intros [= <- <-]. revert Hc. generalize (S (size a)). intros fuel. revert a.
  induction fuel as [|f IH]; intros a; simpl; [done|].
  destruct (range_first env a) as [x0|] eqn:Hr; [|done].
  destruct (de_dial env x0) eqn:Hd.
  - intros [= <- <-]. split_and!; [done|by eapply range_first_elem|done|done].
  - intros Hc. destruct (IH _ Hc) as (Hok & Hin & Hsub & Hgone).
    split_and!; [done|done| |].
    + intros x Hx. apply Hsub in Hx. by apply elem_of_difference in Hx as [? _].
    + intros x Hx Hnx. destruct (decide (x = x0)) as [->|Hne]; [done|].
      apply Hgone; [|done]. by apply elem_of_difference_ne.
Qed.

(** X14.  When the session loses its connection and goes on, the address
    of the lost connection has left the pool and the new connection is
    to another address of the pool, one whose dial has succeeded; the
    other addresses that have left the pool are addresses whose dial has
    failed. *)
Theorem lost_connection_moves_on env a c a' c' :
  session_step (Running a c) (SClosed env) = Some (Running a' c') →
  c' ≠ c ∧ c' ∈ a ∧ c' ∈ a' ∧ a' ⊆ a ∧ de_dial env c' = true ∧
  (c ∈ a' → False) ∧
  ∀ x, x ∈ a → x ∉ a' → x = c ∨ de_dial env x = false.
Proof.
  simpl. intros Hr.
  apply reconnect_Running_inv in Hr as (Hok & Hin & Hsub & Hgone).
  assert (c' ∈ a ∖ {[c]}) as Hin' by by apply Hsub.
  apply elem_of_difference in Hin' as [Hca Hne].
  split_and!; try done.
  - intros ->. apply Hne. by apply elem_of_singleton.
  - intros x Hx. apply Hsub in Hx. by apply elem_of_difference in Hx as [? _].
  - intros Hc. apply Hsub in Hc. apply elem_of_difference in Hc as [_ Hc].
    apply Hc. by apply elem_of_singleton.
  - intros x Hx Hnx. destruct (decide (x = c)) as [->|Hxc]; [by left|].
    right. apply Hgone; [|done]. by apply elem_of_difference_ne.
Qed.

(** X15.  What [retry] returns is settled in the first turn in which the
    session has no connection to hand out, and then it is the error of
    no known address, or in which the connection has no error after the
    call, and then it is the outcome of that call; in every turn before,
    the connection had an error after the call and the outcome of the
    call was dropped. *)
Theorem retry_returns_first_settled s t rounds res :
  retry s t rounds = Some res →
  ∃ pre rd post s1,
    rounds = pre ++ rd :: post ∧
    Forall (λ rd', is_Some (rd_err rd')) pre ∧
    session_run s (served (pre ++ [rd])) = Some s1 ∧
    match recv_c s1 with
    | None => res = (None, Some ErrNoAddrs)
    | Some c => rd_err rd = None ∧ res = ce_call (rd_conn rd) c t
    end.
Proof.
  revert s. induction rounds as [|rd rounds IH]; intros s; simpl; [done|].
  destruct (session_run s (rd_events rd)) as [s1|] eqn:Hs; [|done].
  destruct (recv_c s1) as [c|] eqn:Hc.
  - destruct (rd_err rd) as [e|] eqn:He.
    + intros Hret.
      destruct (IH _ Hret) as (pre & rd' & post & s2 & -> & Hall & Hrun & Hres).
      exists (rd :: pre), rd', post, s2. split_and!; [done| |  |done].
      * constructor; [by rewrite He|done].
      * unfold served in *. simpl. by rewrite session_run_app, Hs.
    + intros [= <-]. exists [], rd, rounds, s1. split_and!; [done|constructor| |].
      * unfold served. simpl. by rewrite app_nil_r.
      * by rewrite Hc.
  - intros [= <-]. exists [], rd, rounds, s1. split_and!; [done|constructor| |].
    + unfold served. simpl. by rewrite app_nil_r.
    + by rewrite Hc.
Qed.

Lemma call_outcome_answer_ok res : call_outcome res → answer_ok res.
Proof.
  intros (addr & sched & w & tid & Hrun & Hth).
  pose proof (reachable_res_exclusive _ _ _ Hrun _ _ Hth) as Hex.
  destruct res as [[r|] [e|]]; done.
Qed.

Lemma retry_answer_ok s t rounds res :
  Forall (λ rd, ∀ c, answer_ok (ce_call (rd_conn rd) c t)) rounds →
  retry s t rounds = Some res → answer_ok res.
Proof.
  revert s. induction rounds as [|rd rounds IH]; intros s Hall; simpl; [done|].
  apply Forall_cons in Hall as [Hrd Hall].
  destruct (session_run s (rd_events rd)) as [s1|]; [|done].
  destruct (recv_c s1) as [c|]; [|by intros [= <-]].
  destruct (rd_err rd); [by apply IH|]. intros [= <-]. apply Hrd.
Qed.

(** X16.  On what a connection hands back, a response without an error
    code or an error, the operations of the client read no field of a
    nil response.  [Set] returns the rev of the response, [Get] its
    value and its rev, [Stat] its len and its rev, a missing rev or len
    reading as 0; with the error of a failed call they return the zero
    values and that error.  [Rev] alone dereferences the rev of the
    response: it returns it when the response has one and panics when
    it has none. *)
Theorem client_operations_on_answers env s path oldRev body rev rounds :
  (∀ c t, call_outcome (ce_call env c t)) →
  Forall (λ rd, ∀ c t, call_outcome (ce_call (rd_conn rd) c t)) rounds →
  ((∃ r,
      Client_call env s
        (mkT None (Some Request_SET) (Some path) body None (Some oldRev)
             None None) = (Some r, None) ∧
      Client_Set env s path oldRev body = Returns (GetInt (R_Rev r), None)) ∨
   (∃ e,
      Client_call env s
        (mkT None (Some Request_SET) (Some path) body None (Some oldRev)
             None None) = (None, Some e) ∧
      Client_Set env s path oldRev body = Returns (0%Z, Some e))) ∧
  match retry s (mkT None (Some Request_GET) (Some path) [] None rev None None)
          rounds with
  | None => Client_Get s path rev rounds = None
  | Some res =>
      (∃ r, res = (Some r, None) ∧
            Client_Get s path rev rounds
            = Some (Returns (R_Value r, GetInt (R_Rev r), None))) ∨
      (∃ e, res = (None, Some e) ∧
            Client_Get s path rev rounds = Some (Returns ([], 0%Z, Some e)))
  end ∧
  match retry s (mkT None (Some Request_STAT) (Some path) [] None rev None None)
          rounds with
  | None => Client_Stat s path rev rounds = None
  | Some res =>
      (∃ r, res = (Some r, None) ∧
            Client_Stat s path rev rounds
            = Some (Returns (GetInt (R_Len r), GetInt (R_Rev r), None))) ∨
      (∃ e, res = (None, Some e) ∧
            Client_Stat s path rev rounds = Some (Returns (0%Z, 0%Z, Some e)))
  end ∧
  match retry s (mkT None (Some Request_REV) None [] None None None None)
          rounds with
  | None => Client_Rev s rounds = None
  | Some res =>
      (∃ r v, res = (Some r, None) ∧ R_Rev r = Some v ∧
              Client_Rev s rounds = Some (Returns (v, None))) ∨
      (∃ r, res = (Some r, None) ∧ R_Rev r = None ∧
            Client_Rev s rounds = Some Panics) ∨
      (∃ e, res = (None, Some e) ∧
            Client_Rev s rounds = Some (Returns (0%Z, Some e)))
  end.
Proof.
  intros Henv Hrounds.
  assert (∀ t res, retry s t rounds = Some res → answer_ok res) as Hretry.
  { intros t res. apply retry_answer_ok.
    eapply Forall_impl; [exact Hrounds|]. intros rd Hrd c.
    apply call_outcome_answer_ok, Hrd. }
  split_and!.
  - assert (answer_ok (Client_call env s
              (mkT None (Some Request_SET) (Some path) body None (Some oldRev)
                   None None))) as Hok.
    { unfold Client_call. destruct (recv_c s) as [c|]; [|done].
      apply call_outcome_answer_ok, Henv. }
    unfold Client_Set.
    destruct (Client_call env s _) as [[r|] [e|]]; try done; eauto.
  - unfold Client_Get. destruct (retry s _ rounds) as [res|] eqn:Hret; [|done].
    apply Hretry in Hret. destruct res as [[r|] [e|]]; try done; eauto.
  - unfold Client_Stat. destruct (retry s _ rounds) as [res|] eqn:Hret; [|done].
    apply Hretry in Hret. destruct res as [[r|] [e|]]; try done; eauto.
  - unfold Client_Rev. destruct (retry s _ rounds) as [res|] eqn:Hret; [|done].
    apply Hretry in Hret. destruct res as [[r|] [e|]]; try done; [|eauto].
    destruct (R_Rev r) as [v|] eqn:Hrev; eauto 10.
Qed.

(** X17.  When a calendar slot is taken and later vacated, the address
    that [monitorAddrs] has the session remove is the one it had the
    session add, whatever it has learnt of addresses in between; the
    slot is forgotten; and as the pool is a set, the address leaves the
    pool even if it was in it before the slot was taken. *)
Theorem calendar_slot_round_trip m src1 src2 ev1 ev2 m1 out1 :
  Ev_Body ev1 ≠ [] → Ev_Body ev2 = [] → Ev_Path ev2 = Ev_Path ev1 →
  src1 ≠ SrcWatchAddr → src2 ≠ SrcWatchAddr →
  mon_open m src2 = true →
  mon_step m src1 (Some ev1) = Some (m1, out1) →
  ∃ a,
    a = default EmptyString
          (mon_addrs m !! ("/ctl/node/" ++ string_of_bytes (Ev_Body ev1)
                           ++ "/addr")%string) ∧
    out1 = [SAdd a] ∧
    ∀ addrs',
      ∃ m2,
        mon_step (mkMon addrs' (mon_cal m1) (mon_watchAddr m1) (mon_walk m1)
                    (mon_watch m1)) src2 (Some ev2)
        = Some (m2, [SRm a]) ∧
        mon_cal m2 = delete (Ev_Path ev1) (mon_cal m) ∧
        ∀ pool c,
          session_run (Running pool c) (out1 ++ [SRm a])
          = Some (Running (pool ∖ {[a]}) c).
Proof.
  intros Hb1 Hb2 Hp Hs1 Hs2 Hopen. unfold mon_step.
  destruct (mon_done m) eqn:Hdone; [done|].
  destruct (mon_open m src1) eqn:Hopen1; [|done]. simpl.
  assert ((0 <? length (Ev_Body ev1)) = true) as Hlen1.
  { apply Nat.ltb_lt. destruct (Ev_Body ev1); [done|simpl; lia]. }
  assert (cal_case (mon_addrs m) (mon_cal m) ev1
          = (<[Ev_Path ev1 :=
                 default EmptyString
                   (mon_addrs m !! ("/ctl/node/" ++ string_of_bytes (Ev_Body ev1)
                                    ++ "/addr")%string)]> (mon_cal m),
             SAdd (default EmptyString
                     (mon_addrs m !! ("/ctl/node/" ++ string_of_bytes (Ev_Body ev1)
                                      ++ "/addr")%string)))) as Hc1.
  { unfold cal_case. by rewrite Hlen1. }
  destruct src1; [done| |]; rewrite Hc1; intros [= <- <-].
  all: eexists; split; [done|]; split; [done|]; intros addrs'.
  all: unfold mon_done in *; simpl.
  all: destruct src2; [done| |]; simpl in Hopen; rewrite ?Hopen, ?Hdone; simpl.
  all: rewrite ?andb_false_r; simpl.
  all: unfold cal_case; rewrite Hb2, Hp; simpl.
  all: rewrite lookup_insert_eq; simpl.
  all: eexists; split; [done|]; split; [simpl; by rewrite delete_insert_eq|].
  all: intros pool c; simpl; do 2 f_equal.
  all: apply set_eq; intros x; rewrite !elem_of_difference, elem_of_union; tauto.
Qed.

(** X18.  A calendar slot taken by a node whose address [monitorAddrs]
    has not learnt puts the empty address into the pool; and a slot
    vacated that it has not seen taken has the empty address removed. *)
Theorem unknown_holder_is_empty_address m src ev :
  src ≠ SrcWatchAddr → mon_open m src = true →
  (Ev_Body ev ≠ [] →
   mon_addrs m !! ("/ctl/node/" ++ string_of_bytes (Ev_Body ev) ++ "/addr")%string
   = None →
   mon_step m src (Some ev)
   = Some (mkMon (mon_addrs m) (<[Ev_Path ev := EmptyString]> (mon_cal m))
             (mon_watchAddr m) (mon_walk m) (mon_watch m), [SAdd EmptyString])) ∧
  (Ev_Body ev = [] → mon_cal m !! Ev_Path ev = None →
   mon_step m src (Some ev) = Some (m, [SRm EmptyString])).
Proof.
  intros Hsrc Hopen.
  assert (mon_done m = false) as Hdone.
  { unfold mon_done. destruct src; simpl in Hopen; rewrite Hopen; simpl;
      by rewrite ?andb_false_r. }
  split.
  - intros Hb Hl. unfold mon_step. rewrite Hdone, Hopen. simpl.
    assert ((0 <? length (Ev_Body ev)) = true) as Hlen.
    { apply Nat.ltb_lt. destruct (Ev_Body ev); [done|simpl; lia]. }
    unfold cal_case. rewrite Hlen, Hl. simpl. by destruct src.
  - intros Hb Hl. unfold mon_step. rewrite Hdone, Hopen. simpl.
    unfold cal_case. rewrite Hb, Hl. simpl.
    rewrite delete_id by done. destruct src; [done|by destruct m..].
Qed.

(** X19.  The first loop of [monitorAddrs] ends exactly when
    [walkAddr.C] is the first of the two channels to yield nil, that is
    to be found closed, and then it has learnt the addresses of the
    events received until then, from either channel; it panics exactly
    when [watchAddr.C] is the first to yield nil, whose case reads a
    field of the nil event; and it goes on as long as neither has
    happened. *)
Theorem init_loop_ends_or_panics addrs turns :
  (∀ addrs',
     mon_init addrs turns = Returns addrs' ↔
     ∃ pre evs post,
       turns = pre ++ (InitWalk, None) :: post ∧ pre.*2 = Some <$> evs ∧
       addrs' = learn addrs evs) ∧
  (mon_init addrs turns = Panics ↔
   ∃ pre evs post,
     turns = pre ++ (InitWatch, None) :: post ∧ pre.*2 = Some <$> evs) ∧
  (mon_init addrs turns = Hangs ↔ ∃ evs, turns.*2 = Some <$> evs).
Proof.
  revert addrs. induction turns as [|[src [ev|]] turns IH]; intros addrs.
  - split_and!; [intros addrs'|..]; simpl; split; try done.
    + intros ([|??] & ? & ? & ? & _); done.
    + intros ([|??] & ? & ? & ? & _); done.
    + intros _. by exists [].
  - destruct (IH (addAddr addrs (Ev_Path ev) (string_of_bytes (Ev_Body ev))))
      as (IHr & IHp & IHh).
    assert (∀ o, mon_init addrs ((src, Some ev) :: turns) = o ↔
                 mon_init (addAddr addrs (Ev_Path ev)
                             (string_of_bytes (Ev_Body ev))) turns = o) as Heq.
    { intros o. by destruct src. }
    split_and!; [intros addrs'|..]; rewrite Heq.
    + rewrite IHr. split.
      * intros (pre & evs & post & -> & Hs & ->).
        exists ((src, Some ev) :: pre), (ev :: evs), post.
        split_and!; [done|by rewrite !fmap_cons, Hs|done].
      * intros ([|p pre] & evs & post & Ht & Hs & ->); simplify_eq/=.
        destruct evs as [|ev' evs]; simplify_eq/=. by exists pre, evs, post.
    + rewrite IHp. split.
      * intros (pre & evs & post & -> & Hs).
        exists ((src, Some ev) :: pre), (ev :: evs), post.
        split; [done|by rewrite !fmap_cons, Hs].
      * intros ([|p pre] & evs & post & Ht & Hs); simplify_eq/=.
        destruct evs as [|ev' evs]; simplify_eq/=. by exists pre, evs, post.
    + rewrite IHh. split.
      * intros (evs & Hs). exists (ev :: evs). by rewrite !fmap_cons, Hs.
      * intros ([|ev' evs] & Hs); simplify_eq/=. by exists evs.
  - split_and!; [intros addrs'|..]; destruct src; simpl; split; try done.
    all: try (intros [= <-]; by exists [], [], turns).
    all: try (intros _; by exists [], [], turns).
    all: try (intros ([|??] & [|??] & post & Ht & Hs & ?); by simplify_eq/=).
    all: try (intros ([|??] & [|??] & post & Ht & Hs); by simplify_eq/=).
    all: intros ([|??] & Hs); by simplify_eq/=.
Qed.

End ClientFacts.

(** * The properties on the sample runs *)

Example sched_call_result :
  w_threads <$> run (dial_world "a") sched_call
  = Some [RdRead; Finished (RCall (Some (response 0 3)) None)].
Proof. vm_compute. reflexivity. Qed.

Lemma send_registers_unmapped_tag_witness :
  ∃ w, run (dial_world "a") sched_call = Some w ∧
       ∀ ch r, EvDeliver ch r ∈ w_trace w →
               EvRegister (tagof r) ch ∈ w_trace w ∧
               ∀ tag, EvRegister tag ch ∈ w_trace w → tag = tagof r.
Proof.
  eexists. split; [vm_compute; reflexivity|].
  refine (proj2 (proj2 (proj2 (proj2
            (send_registers_unmapped_tag "a" sched_call _ _))))).
  vm_compute. reflexivity.
Defined.

Lemma done_tag_removed_before_delivery_witness :
  ∃ w, run (dial_world "a") sched_call = Some w ∧
       ∀ ch r, is_done r → before (EvDeliver ch r) (w_trace w) (removed_last r).
Proof.
  eexists. split; [vm_compute; reflexivity|].
  refine (proj1 (proj2 (proj2 (proj2
            (done_tag_removed_before_delivery "a" sched_call _ _))))).
  vm_compute. reflexivity.
Defined.




(** C5 fails as stated: for the code of not-a-directory with a detail,
    the call returns the generic error, not the typed one. *)
Lemma known_code_with_detail_is_generic :
  call_return Direct (Some response_notdir)
    = Finished (RCall None
                  (Some (Error Response_NOTDIR "not a directory: /a"))) ∧
  call_return Direct (Some response_notdir)
    ≠ Finished (RCall None (Some ENOTDIR)).
Proof. split; [vm_compute; reflexivity|vm_compute; discriminate]. Defined.

Lemma call_error_of_response_witness :
  call_return Direct (Some response_noent) = Finished (RCall None (Some ENOENT)).
Proof.
  refine (proj1 (proj2 (proj2 (call_error_of_response response_noent)))
            Response_NOENT ENOENT _ _ _).
  - reflexivity.
  - reflexivity.
  - vm_compute. do 2 right. left.
Defined.

(** C6 fails as stated: with the error of the connection set by the
    failed write, the read loop still reads a frame, and delivers it to
    the call that waits for it. *)
Lemma frame_read_after_sticky_error :
  run (dial_world "a") sched_broken_write = Some w_broken ∧
  conn_err (w_conn w_broken) = Some (IOError "broken pipe") ∧
  ∃ w,
    run w_broken
      [ ActStep 0 (InRead (ReadFrame (response 0 3)));
        ActStep 0 InNone; ActStep 0 (InPartner 1); ActStep 0 InNone ] = Some w ∧
    w_trace w
      = [ EvClose ByReader 0; EvDeliver 0 (response 0 3); EvRemove 0;
          EvRead (ReadFrame (response 0 3)) ] ++ w_trace w_broken ∧
    w_threads w !! 1 = Some (Finished (RCall (Some (response 0 3)) None)).
Proof.
  split; [vm_compute; reflexivity|]. split; [vm_compute; reflexivity|].
  eexists. split; [vm_compute; reflexivity|].
  split; vm_compute; reflexivity.
Defined.

Lemma sticky_error_stops_writes_witness :
  ∃ w',
    run w_broken [ActStep 2 InNone; ActCall T_zero; ActStep 3 InNone] = Some w' ∧
    conn_err (w_conn w') = Some (IOError "broken pipe") ∧
    w_threads w' !! 3
      = Some (Finished (RCall None (Some (IOError "broken pipe")))).
Proof.
  eexists. split; [vm_compute; reflexivity|]. split.
  - refine (proj1 (sticky_error_stops_writes w_broken (IOError "broken pipe")
                     [ActStep 2 InNone; ActCall T_zero; ActStep 3 InNone] _ _ _)).
    + vm_compute. reflexivity.
    + vm_compute. reflexivity.
  - vm_compute. reflexivity.
Defined.

(** C7 fails as stated: the streaming call loses its connection in
    mid-stream, and its output is closed after the one event it had got,
    which carries no error; no event with an error is published. *)
Lemma teardown_closes_stream_without_error :
  ∃ w,
    run (dial_world "a") sched_stream_torn_down = Some w ∧
    conn_err (w_conn w) = Some EOF ∧ conn_cb (w_conn w) = None ∧
    w_threads w !! 1 = Some (Finished (RWatch (Some (mkWatch 1 0 0)) None)) ∧
    emitted 1 (w_trace w) = [mkEvent 7 "" [] 1 None] ∧
    emit_closed 1 (w_trace w) = true.
Proof.
  eexists. split; [vm_compute; reflexivity|].
  repeat (split; [vm_compute; reflexivity|]).
  vm_compute. reflexivity.
Defined.

Lemma forwarder_republishes_witness :
  (∃ w,
     run (dial_world "a") sched_stream_torn_down = Some w ∧
     ∀ evs ev, EvEmit evs ev ∈ w_trace w →
               ∃ ch r, EvDeliver ch r ∈ w_trace w ∧ ev = event_of r) ∧
  run (dial_world "a") sched_cancel_torn_down = Some w_cancel_torn_down ∧
  conn_cb (w_conn w_cancel_torn_down) = None ∧
  w_threads w_cancel_torn_down !! 3 = Some (Finished (RCancel (Some EOF))) ∧
  emit_closed 1 (w_trace w_cancel_torn_down) = false ∧
  ∀ sched' w',
    run w_cancel_torn_down sched' = Some w' →
    w_threads w' !! 2 = Some (FwdRecv 0 1) ∧
    (∀ inp, step w' (ActStep 2 inp) = None) ∧
    0 ∉ w_closed w'.
Proof.
  split.
  { eexists. split; [vm_compute; reflexivity|].
    refine (proj1 (proj2 (proj2 (proj2
              (forwarder_republishes "a" sched_stream_torn_down _ _))))).
    vm_compute. reflexivity. }
  assert (run (dial_world "a") sched_cancel_torn_down = Some w_cancel_torn_down)
    as Hrun by (vm_compute; reflexivity).
  assert (w_threads w_cancel_torn_down
          = [RdNotify; Finished (RWatch (Some (mkWatch 1 0 0)) None);
             FwdRecv 0 1; Finished (RCancel (Some EOF))]) as Hthr
    by (vm_compute; reflexivity).
  split; [exact Hrun|].
  split; [vm_compute; reflexivity|].
  split; [by rewrite Hthr|].
  split; [vm_compute; reflexivity|].
  refine (proj2 (proj2 (proj2 (proj2 (proj2
            (forwarder_republishes "a" sched_cancel_torn_down
               w_cancel_torn_down Hrun))))) 2 0 1 _ _ _ _).
  - vm_compute. reflexivity.
  - by rewrite Hthr.
  - rewrite Hthr. intros [|[|[|[|tid]]]] th; simpl; intros [= <-]; discriminate.
  - intros Hin. apply (bool_decide_pack _) in Hin. vm_compute in Hin.
    exact Hin.
Defined.



Lemma exhausted_pool_is_terminal_witness :
  session_run (Running {["a"; "b"; "c"]} "a") [SAdd "d"; SClosed env_down]
    = Some Stopped ∧
  session_run (Running {["a"; "b"; "c"]} "a")
    [SAdd "d"; SClosed env_down; SAdd "e"] = None.
Proof.
  assert (session_step (Running {["d"; "a"; "b"; "c"]} "a") (SClosed env_down)
          = Some Stopped) as Hstop.
  { refine (proj1 (proj2 (proj2 exhausted_pool_is_terminal)) env_down _ "a" _).
    intros x _ _. reflexivity. }
  assert (session_step Stopped (SAdd "e") = None) as Hadd.
  { exact (proj1 (proj2 (proj2 (proj2 exhausted_pool_is_terminal))) (SAdd "e")). }
  split.
  - change (session_run (Running {["a"; "b"; "c"]} "a") [SAdd "d"; SClosed env_down])
      with (match session_step (Running ({["d"]} ∪ {["a"; "b"; "c"]}) "a")
                    (SClosed env_down) with
            | Some s' => session_run s' []
            | None => None
            end).
    change ({["d"]} ∪ {["a"; "b"; "c"]} : gset string) with ({["d"; "a"; "b"; "c"]} : gset string).
    by rewrite Hstop.
  - change (session_run (Running {["a"; "b"; "c"]} "a")
              [SAdd "d"; SClosed env_down; SAdd "e"])
      with (match session_step (Running ({["d"]} ∪ {["a"; "b"; "c"]}) "a")
                    (SClosed env_down) with
            | Some s' => session_run s' [SAdd "e"]
            | None => None
            end).
    change ({["d"]} ∪ {["a"; "b"; "c"]} : gset string) with ({["d"; "a"; "b"; "c"]} : gset string).
    rewrite Hstop. simpl. reflexivity.
Defined.

Lemma call_outcome_answer : call_outcome (Some (response 0 3), None).
Proof.
  exists "a", sched_call. eexists. exists 1.
  split; vm_compute; reflexivity.
Defined.

Lemma call_outcome_EOF : call_outcome (None, Some EOF).
Proof.
  exists "a", sched_call_torn_down. eexists. exists 1.
  split; vm_compute; reflexivity.
Defined.

Lemma retry_reissues_witness :
  retry (Running {["a"; "b"]} "a") T_zero [round_lost; round_good]
    = Some (Some (response 0 3), None) ∧
  retry (Running {["a"; "b"]} "a") T_zero [round_lost; round_down]
    = Some (None, Some ErrNoAddrs) ∧
  ∃ pre post s',
    [round_lost; round_down] = pre ++ post ∧
    session_run (Running {["a"; "b"]} "a") (served pre) = Some s' ∧
    s' = Stopped.
Proof.
  assert (session_run (Running {["a"; "b"]} "a") (rd_events round_lost)
          = Some (Running {["a"; "b"]} "a")) as H1 by (vm_compute; reflexivity).
  assert (session_run (Running {["a"; "b"]} "a") (rd_events round_good)
          = Some (Running {["b"]} "b")) as H2 by (vm_compute; reflexivity).
  assert (session_run (Running {["a"; "b"]} "a") (rd_events round_down)
          = Some Stopped) as H3 by (vm_compute; reflexivity).
  assert (retry (Running {["a"; "b"]} "a") T_zero [round_lost; round_down]
          = Some (None, Some ErrNoAddrs)) as Hdown.
  { rewrite (proj1 (proj2 (retry_reissues _ T_zero round_lost [round_down] _ H1))
               "a" EOF eq_refl eq_refl).
    exact (proj1 (retry_reissues _ T_zero round_down [] _ H3) eq_refl). }
  split_and!.
  - rewrite (proj1 (proj2 (retry_reissues _ T_zero round_lost [round_good] _ H1))
               "a" EOF eq_refl eq_refl).
    exact (proj1 (proj2 (proj2 (retry_reissues _ T_zero round_good [] _ H2)))
             "b" eq_refl eq_refl).
  - exact Hdown.
  - destruct (proj2 (proj2 (proj2
                (retry_reissues _ T_zero round_lost [round_down] _ H1)))
                None) as (pre & post & s' & Hpre & Hrun & Hs' & _).
    + repeat constructor; intros c; exact call_outcome_EOF.
    + exact Hdown.
    + exists pre, post, s'. split; [exact Hpre|]. split; [exact Hrun|exact Hs'].
Defined.

Lemma event_of_flags_witness :
  IsSet (event_of (response 0 5)) = true ∧ IsDel (event_of (response 0 5)) = false.
Proof.
  destruct (proj2 (event_of_flags (response 0 5)) eq_refl) as (_ & Hs & Hd).
  split; [exact Hs|exact Hd].
Defined.

Lemma writeT_error_sticks_witness :
  writeT write_unmarshalled (dial_conn "a")
  = Returns (dial_conn "a", Some (PbError "required field not set"), false) ∧
  ∃ msg, wr_marshal write_unmarshalled = inl msg.
Proof.
  assert (writeT write_unmarshalled (dial_conn "a")
          = Returns (dial_conn "a", Some (PbError "required field not set"), false))
    as Hw by reflexivity.
  split; [exact Hw|].
  destruct (writeT_error_sticks write_unmarshalled (dial_conn "a") _ _ _ eq_refl Hw)
    as [(msg & Hm & _)|(buf & io & Hm & _)].
  - exists msg. exact Hm.
  - discriminate Hm.
Defined.

Lemma send_takes_first_free_tag_witness :
  ∃ c', send_register 1 conn_last_tag = Returns ((-2147483648)%Z, c') ∧
        conn_n c' = (-2147483648)%Z.
Proof.
  assert (∃ c', send_register 1 conn_last_tag = Returns ((-2147483648)%Z, c'))
    as [c' Hreg] by (eexists; vm_compute; reflexivity).
  exists c'. split; [exact Hreg|].
  destruct (send_takes_first_free_tag 1 conn_last_tag (-2147483648)%Z c')
    as (m & k & H).
  - unfold is_int32. vm_compute. split; [discriminate|reflexivity].
  - exact Hreg.
  - exact (proj1 (proj2 (proj2 (proj2 (proj2 (proj2 H)))))).
Defined.

Lemma call_returns_response_or_error_witness :
  ∃ w, run (dial_world "a") sched_call = Some w ∧
       w_threads w !! 1 = Some (Finished (RCall (Some (response 0 3)) None)) ∧
       R_ErrCode (response 0 3) = None.
Proof.
  assert (∃ w, run (dial_world "a") sched_call = Some w ∧
               w_threads w !! 1
               = Some (Finished (RCall (Some (response 0 3)) None)))
    as (w & Hrun & Hth) by (eexists; split; vm_compute; reflexivity).
  exists w. split; [exact Hrun|]. split; [exact Hth|].
  destruct (proj1 (call_returns_response_or_error "a" sched_call w 1 Hrun) _ _ Hth)
    as [(r' & Hr & _ & Hc)|(Hr & _)].
  - injection Hr as <-. exact Hc.
  - discriminate Hr.
Defined.

Lemma delivery_follows_request_of_its_tag_witness :
  (∃ t, EvWrite t ∈ w_trace w_deliver ∧ T_Tag t = Some 0%Z) ∧
  EvRegister 0 0 ∈ w_trace w_deliver.
Proof.
  destruct (delivery_follows_request_of_its_tag "a" sched_deliver w_deliver 0 1 0
              (response 0 3) (CallRecv Direct 0)
              (Finished (RCall (Some (response 0 3)) None)))
    as (Hw & Hreg & _).
  - vm_compute. reflexivity.
  - vm_compute. reflexivity.
  - vm_compute. reflexivity.
  - vm_compute. reflexivity.
  - split; [exact Hw|exact Hreg].
Defined.

Lemma panic_has_three_causes_witness :
  (step w_overtaken (ActStep 1 InNone)
   = Some (mkWorld (w_conn w_overtaken) (w_next w_overtaken) (w_closed w_overtaken)
             (w_threads w_overtaken) (w_trace w_overtaken) true) ∧
   ∃ tid inp th,
     ActStep 1 InNone = ActStep tid inp ∧
     w_threads w_overtaken !! tid = Some th ∧
     ((writes_table th ∧ conn_cb (w_conn w_overtaken) = None) ∨
      (∃ k t tag ch i buf used n rest,
         th = SendWrite k t tag ch ∧ inp = InWrite i ∧
         conn_err (w_conn w_overtaken) = None ∧
         wr_marshal i = inr buf ∧ wr_len i = None ∧
         wr_body i = used ++ (n, None) :: rest ∧ accepted used ∧
         (written used < Z.of_nat (length buf))%Z ∧
         (n < 0 ∨ Z.of_nat (length buf) - written used < n)%Z) ∨
      (th = RdPanicNotify ∧ EvRead ReadSizeNegative ∈ w_trace w_overtaken))) ∧
  (∃ w', step w_negative_size (ActStep 0 InNone) = Some w' ∧ w_panic w' = true) ∧
  writeT write_overcount (dial_conn "a") = Panics.
Proof.
  assert (step w_overtaken (ActStep 1 InNone)
          = Some (mkWorld (w_conn w_overtaken) (w_next w_overtaken)
                    (w_closed w_overtaken) (w_threads w_overtaken)
                    (w_trace w_overtaken) true)) as Hs
    by (vm_compute; reflexivity).
  split; [split; [exact Hs|]|split].
  - refine (proj1 (panic_has_three_causes "a" sched_send_overtaken w_overtaken
                     _ _ _ Hs) eq_refl).
    vm_compute. reflexivity.
  - eexists. split; vm_compute; reflexivity.
  - vm_compute. reflexivity.
Defined.

Lemma teardown_closes_every_sink_witness :
  ∃ w' w'',
    step w_before_teardown (ActStep 0 InNone) = Some w' ∧
    conn_cb (w_conn w') = None ∧
    step w' (ActStep 1 InNone) = Some w'' ∧
    w_threads w'' !! 1 = Some (Finished (RCall None (Some EOF))).
Proof.
  destruct (teardown_closes_every_sink "a" sched_before_teardown
              w_before_teardown 0)
    as (m & w' & Hm & Hstep & _ & Hnil & _ & _ & Hwake).
  - vm_compute. reflexivity.
  - vm_compute. reflexivity.
  - vm_compute. reflexivity.
  - assert (conn_cb (w_conn w_before_teardown) = Some {[0%Z := Some 0]}) as Hcb
      by (vm_compute; reflexivity).
    rewrite Hcb in Hm. injection Hm as <-.
    destruct (proj1 (Hwake 1 0%Z 0 InNone eq_refl)) as (w'' & Hs2 & Hth).
    + vm_compute. reflexivity.
    + exists w', w''.
      split; [exact (Hstep InNone)|]. split; [exact Hnil|].
      split; [exact Hs2|exact Hth].
Defined.

Lemma close_notifies_once_witness :
  ∃ w', step w_torn_down (ActStep 0 InNone) = Some w' ∧
        conn_closed (w_conn w') = [true].
Proof.
  destruct (proj2 (close_notifies_once "a" sched_call_torn_down w_torn_down
                     ltac:(vm_compute; reflexivity)) 0 InNone)
    as [Hs Hc].
  - vm_compute. reflexivity.
  - vm_compute. reflexivity.
  - eexists. split; [exact Hs|exact Hc].
Defined.


Lemma redirect_remembered_witness :
  (conn_redirected (w_conn w_redirect), conn_redirectAddr (w_conn w_redirect))
  = (true, "10.0.0.2:8046").
Proof.
  rewrite (redirect_remembered "a" sched_redirect w_redirect)
    by (vm_compute; reflexivity).
  vm_compute. reflexivity.
Defined.

Lemma cancel_fails_when_sink_gone_witness :
  step w_cancel_late (ActStep 3 InNone)
  = Some (mkWorld (w_conn w_cancel_late) (w_next w_cancel_late)
            (w_closed w_cancel_late)
            (<[3 := Finished (RCancel (Some ErrBadTag))]> (w_threads w_cancel_late))
            (w_trace w_cancel_late) false).
Proof.
  destruct (cancel_fails_when_sink_gone "a" sched_cancel_late w_cancel_late 3 0%Z 0)
    as (_ & Hbad & Hclosed).
  - vm_compute. reflexivity.
  - vm_compute. reflexivity.
  - vm_compute. reflexivity.
  - apply Hbad, Hclosed. vm_compute. reflexivity.
Defined.

Lemma connect_keeps_what_it_dials_witness :
  ∃ a', connect 4 env_b {["a"; "b"; "c"]} = Some (Some "b", a') ∧ "b" ∈ a'.
Proof.
  assert (∃ a', connect 4 env_b {["a"; "b"; "c"]} = Some (Some "b", a'))
    as [a' Hc] by (eexists; vm_compute; reflexivity).
  exists a'. split; [exact Hc|].
  exact (proj1 (proj2 (connect_keeps_what_it_dials _ _ _ _ _ Hc))).
Defined.

Lemma lost_connection_moves_on_witness :
  session_step (Running {["a"; "b"]} "a") (SClosed env_b)
  = Some (Running {["b"]} "b") ∧ "b" ≠ "a".
Proof.
  assert (session_step (Running {["a"; "b"]} "a") (SClosed env_b)
          = Some (Running {["b"]} "b")) as Hs by (vm_compute; reflexivity).
  split; [exact Hs|].
  exact (proj1 (lost_connection_moves_on _ _ _ _ _ Hs)).
Defined.

Lemma retry_returns_first_settled_witness :
  ∃ pre rd post s1,
    [round_lost; round_good] = pre ++ rd :: post ∧
    Forall (λ rd', is_Some (rd_err rd')) pre ∧
    session_run (Running {["a"; "b"]} "a") (served (pre ++ [rd])) = Some s1 ∧
    match recv_c s1 with
    | None => (Some (response 0 3), None) = (None, Some ErrNoAddrs)
    | Some c => rd_err rd = None ∧
                (Some (response 0 3), None) = ce_call (rd_conn rd) c T_zero
    end.
Proof.
  apply (retry_returns_first_settled (Running {["a"; "b"]} "a") T_zero
           [round_lost; round_good] (Some (response 0 3), None)).
  vm_compute. reflexivity.
Defined.

Lemma client_operations_on_answers_witness :
  Client_Set (answers (Some (response 0 3), None)) (Running {["a"]} "a")
    "/x" 0 [] = Returns (7%Z, None).
Proof.
  destruct (proj1 (client_operations_on_answers
                     (answers (Some (response 0 3), None))
                     (Running {["a"]} "a") "/x" 0%Z [] None
                     [round_lost; round_good]
                     (λ c t, call_outcome_answer)
                     ltac:(repeat constructor; intros c t;
                           [exact call_outcome_EOF|exact call_outcome_answer])))
    as [(r & Hc & Hs)|(e & Hc & _)].
  - injection Hc as <-. exact Hs.
  - discriminate Hc.
Defined.

Lemma calendar_slot_round_trip_witness :
  ∃ m1 m2,
    mon_step mon_start SrcWalk (Some slot_taken)
    = Some (m1, [SAdd "10.0.0.1:8046"]) ∧
    mon_step m1 SrcWatch (Some slot_vacated)
    = Some (m2, [SRm "10.0.0.1:8046"]) ∧
    mon_cal m2 = ∅.
Proof.
  assert (∃ m1, mon_step mon_start SrcWalk (Some slot_taken)
                = Some (m1, [SAdd "10.0.0.1:8046"]))
    as [m1 Hs1] by (eexists; vm_compute; reflexivity).
  destruct (calendar_slot_round_trip mon_start SrcWalk SrcWatch
              slot_taken slot_vacated m1 _
              ltac:(discriminate) eq_refl eq_refl
              ltac:(discriminate) ltac:(discriminate) eq_refl Hs1)
    as (a & Ha & Hout & Hnext).
  injection Hout as <-.
  destruct (Hnext (mon_addrs m1)) as (m2 & Hs2 & Hcal & _).
  exists m1, m2. split; [exact Hs1|]. split.
  - destruct m1. exact Hs2.
  - rewrite Hcal. reflexivity.
Defined.

Lemma unknown_holder_is_empty_address_witness :
  mon_step mon_start SrcWalk (Some slot_taken_unknown)
  = Some (mkMon (mon_addrs mon_start)
            (<[Ev_Path slot_taken_unknown := EmptyString]> (mon_cal mon_start))
            true true true, [SAdd EmptyString]).
Proof.
  refine (proj1 (unknown_holder_is_empty_address mon_start SrcWalk
                   slot_taken_unknown _ eq_refl) _ _).
  - discriminate.
  - discriminate.
  - vm_compute. reflexivity.
Defined.
